(** * friendly-box2d.js: a shallow embedding of the facade and its properties

    The development embeds [src/friendly-box2d.js] function by function.

    - JavaScript values are a small inductive type; objects and arrays live in
      a heap addressed by locations, so that aliasing between the caller's
      option objects and the facade is visible.
    - JavaScript numbers are exact rationals extended with NaN and the two
      infinities: rounding, overflow and the sign of zero are abstracted.
    - Strings are sequences of code units below 256.
    - [parseFloat], ToNumber on strings and the pixel pattern are written out
      on these strings. Number::toString is written out for the numbers whose
      decimal expansion ends; where [parsePixels] prints a number only to
      read it again, the number that stands alone is taken to read back as
      itself, as a double does.
    - Calls end in one of three ways: a value, a thrown [TypeError], or
      [Unsupported] when the run leaves the fragment of JavaScript that is
      modelled (user functions called through a shadowed [hasOwnProperty],
      arrays or engine objects used as option objects, ...).
    - The physics engine (box2dweb) is an external collaborator: its objects
      are records of the values the facade hands to it. *)

From Stdlib Require Import Ascii String QArith Qpower DecimalString DecimalPos DecimalN.
From stdpp Require Import base list strings.

Local Open Scope Z_scope.

(* ===================================================================== *)
(** ** Numbers *)
(* ===================================================================== *)

Inductive number : Type :=
| NaN
| Fin (q : Q)
| PInf
| NInf.

(** Finite numbers are kept in lowest terms, so that Leibniz equality on
    [number] is numeric equality. *)
Definition fin (q : Q) : number := Fin (Qred q).

Definition Qsign (q : Q) : comparison := (Qnum q ?= 0)%Z.

Definition num_neg (a : number) : number :=
  match a with
  | NaN => NaN
  | Fin q => fin (- q)
  | PInf => NInf
  | NInf => PInf
  end.

Definition inf_of_sign (c : comparison) : number :=
  match c with
  | Gt => PInf
  | Lt => NInf
  | Eq => NaN
  end.

(** [a * b] *)
Definition num_mul (a b : number) : number :=
  match a, b with
  | NaN, _ | _, NaN => NaN
  | Fin p, Fin q => fin (p * q)
  | Fin p, PInf | PInf, Fin p => inf_of_sign (Qsign p)
  | Fin p, NInf | NInf, Fin p => inf_of_sign (CompOpp (Qsign p))
  | PInf, PInf | NInf, NInf => PInf
  | PInf, NInf | NInf, PInf => NInf
  end.

(** [a / b]; a zero divisor counts as +0. *)
Definition num_div (a b : number) : number :=
  match a, b with
  | NaN, _ | _, NaN => NaN
  | Fin p, Fin q =>
      match Qsign q with
      | Eq => inf_of_sign (Qsign p)
      | _ => fin (p / q)
      end
  | Fin _, (PInf | NInf) => fin 0
  | PInf, Fin q => match Qsign q with Lt => NInf | _ => PInf end
  | NInf, Fin q => match Qsign q with Lt => PInf | _ => NInf end
  | (PInf | NInf), (PInf | NInf) => NaN
  end.

(* ===================================================================== *)
(** ** Characters and numeric literals *)
(* ===================================================================== *)

Definition code (c : ascii) : N := N_of_ascii c.

(** WhiteSpace and LineTerminator code units below 256: TAB, LF, VT, FF, CR,
    SP and NBSP. This is both the regular expression class [\s] and the
    StrWhiteSpaceChar of [parseFloat] and [ToNumber]. *)
Definition is_ws (c : ascii) : bool :=
  let n := code c in
  ((9 <=? n) && (n <=? 13) || (n =? 32) || (n =? 160))%N.

(** LineTerminator: where [^] matches under the [m] flag. *)
Definition is_line_terminator (c : ascii) : bool :=
  let n := code c in ((n =? 10) || (n =? 13))%N.

Definition digit_val (c : ascii) : option Z :=
  let n := code c in
  if ((48 <=? n) && (n <=? 57))%N then Some (Z.of_N n - 48) else None.

Definition is_digit (c : ascii) : bool :=
  match digit_val c with Some _ => true | None => false end.

(** Skips a maximal run of white space. *)
Fixpoint skip_ws (s : string) : string :=
  match s with
  | String c r => if is_ws c then skip_ws r else s
  | EmptyString => s
  end.

(** Splits off a maximal run of decimal digits, most significant first. *)
Fixpoint take_digits (s : string) : list Z * string :=
  match s with
  | String c r =>
      match digit_val c with
      | Some d => let '(ds, rest) := take_digits r in (d :: ds, rest)
      | None => ([], s)
      end
  | EmptyString => ([], s)
  end.

(** The integer written by a digit sequence. *)
Definition digits_value (ds : list Z) : Z :=
  fold_left (fun acc d => 10 * acc + d) ds 0.

(** ExponentPart: [e] or [E], an optional sign and at least one digit. When
    the part is incomplete the exponent is 0 and nothing is consumed. *)
Definition take_exponent (s : string) : Z * string :=
  match s with
  | String c r =>
      if (Ascii.eqb c "e" || Ascii.eqb c "E")%char then
        let '(neg, r1) :=
          match r with
          | String sg r' =>
              if Ascii.eqb sg "-" then (true, r')
              else if Ascii.eqb sg "+" then (false, r')
              else (false, r)
          | EmptyString => (false, r)
          end in
        match take_digits r1 with
        | ([], _) => (0, s)
        | (ds, rest) =>
            ((if neg then - digits_value ds else digits_value ds), rest)
        end
      else (0, s)
  | EmptyString => (0, s)
  end.

(** The mathematical value of [int.frac e exp]. *)
Definition decimal_value (ints fracs : list Z) (e : Z) : Q :=
  (inject_Z (digits_value (ints ++ fracs))
   * Qpower (inject_Z 10) (e - Z.of_nat (length fracs)))%Q.

(** [s] with the prefix [p] taken off, when it starts with [p]. *)
Fixpoint starts_with (p s : string) : option string :=
  match p, s with
  | EmptyString, _ => Some s
  | String a p', String b s' =>
      if Ascii.eqb b a then starts_with p' s' else None
  | String _ _, EmptyString => None
  end.

(** Longest prefix that is a StrUnsignedDecimalLiteral, with what follows. *)
Definition parse_unsigned (s : string) : option (number * string) :=
  match starts_with "Infinity" s with
  | Some rest => Some (PInf, rest)
  | None =>
      let '(ints, r) := take_digits s in
      match ints, r with
      | [], String c r' =>
          if Ascii.eqb c "." then
            match take_digits r' with
            | ([], _) => None
            | (fracs, r2) =>
                let '(e, r3) := take_exponent r2 in
                Some (fin (decimal_value [] fracs e), r3)
            end
          else None
      | [], EmptyString => None
      | _, String c r' =>
          if Ascii.eqb c "." then
            let '(fracs, r2) := take_digits r' in
            let '(e, r3) := take_exponent r2 in
            Some (fin (decimal_value ints fracs e), r3)
          else
            let '(e, r3) := take_exponent r in
            Some (fin (decimal_value ints [] e), r3)
      | _, EmptyString => Some (fin (decimal_value ints [] 0), r)
      end
  end.

(** Longest prefix that is a StrDecimalLiteral (an optional sign first). *)
Definition parse_decimal (s : string) : option (number * string) :=
  match s with
  | String c r =>
      if Ascii.eqb c "-" then
        match parse_unsigned r with
        | Some (n, rest) => Some (num_neg n, rest)
        | None => None
        end
      else if Ascii.eqb c "+" then parse_unsigned r
      else parse_unsigned s
  | EmptyString => None
  end.

(** The global [parseFloat] on a string argument. *)
Definition parseFloat (s : string) : number :=
  match parse_decimal (skip_ws s) with
  | Some (n, _) => n
  | None => NaN
  end.

(** The decimal digits of a natural number. *)
Definition N_to_string (n : N) : string :=
  NilZero.string_of_uint (N.to_uint n).

(** Digits of an integer literal in radix 2, 8 or 16. *)
Definition radix_digit_val (radix : Z) (c : ascii) : option Z :=
  let n := Z.of_N (code c) in
  let v :=
    if (48 <=? n) && (n <=? 57) then Some (n - 48)
    else if (97 <=? n) && (n <=? 102) then Some (n - 87)
    else if (65 <=? n) && (n <=? 70) then Some (n - 55)
    else None in
  match v with
  | Some d => if d <? radix then Some d else None
  | None => None
  end.

Fixpoint take_radix_digits (radix : Z) (s : string) : list Z * string :=
  match s with
  | String c r =>
      match radix_digit_val radix c with
      | Some d => let '(ds, rest) := take_radix_digits radix r in (d :: ds, rest)
      | None => ([], s)
      end
  | EmptyString => ([], s)
  end.

(** NonDecimalIntegerLiteral: [0x], [0o] or [0b] and at least one digit. *)
Definition parse_nondecimal (s : string) : option (number * string) :=
  match s with
  | String z (String k r) =>
      if Ascii.eqb z "0" then
        let radix :=
          if (Ascii.eqb k "x" || Ascii.eqb k "X")%char then Some 16
          else if (Ascii.eqb k "o" || Ascii.eqb k "O")%char then Some 8
          else if (Ascii.eqb k "b" || Ascii.eqb k "B")%char then Some 2
          else None in
        match radix with
        | Some rx =>
            match take_radix_digits rx r with
            | ([], _) => None
            | (ds, rest) =>
                Some (fin (inject_Z (fold_left (fun a d => rx * a + d) ds 0)),
                      rest)
            end
        | None => None
        end
      else None
  | _ => None
  end.

(** ToNumber applied to a string (StringToNumber): the whole string, white
    space at both ends apart, must be a numeric literal; the empty string is
    0. *)
Definition string_to_number (s : string) : number :=
  let t := skip_ws s in
  match t with
  | EmptyString => fin 0
  | _ =>
      match parse_nondecimal t with
      | Some (n, rest) =>
          match skip_ws rest with EmptyString => n | _ => NaN end
      | None =>
          match parse_decimal t with
          | Some (n, rest) =>
              match skip_ws rest with EmptyString => n | _ => NaN end
          | None => NaN
          end
      end
  end.

(* ===================================================================== *)
(** ** Printing numbers (Number::toString, radix 10) *)
(* ===================================================================== *)

Fixpoint zeros (n : nat) : string :=
  match n with
  | O => EmptyString
  | S m => String "0" (zeros m)
  end.

(** Least [j <= fuel] (counting up from [j]) with [den] dividing
    [num * 10^j]; the quotient comes with it. *)
Fixpoint exact_scale (fuel : nat) (num : Z) (den : Z) (j : Z) : option (Z * Z) :=
  if (num mod den =? 0) then Some (num / den, j)
  else match fuel with
       | O => None
       | S f => exact_scale f (10 * num) den (j + 1)
       end.

(** Removes trailing zeros of [s], raising the exponent. *)
Fixpoint strip_zeros (fuel : nat) (s e : Z) : Z * Z :=
  match fuel with
  | O => (s, e)
  | S f => if (s mod 10 =? 0) && negb (s =? 0)
           then strip_zeros f (s / 10) (e + 1) else (s, e)
  end.

(** A positive rational as [s * 10^e] with [s] free of trailing zeros:
    exactly when its decimal expansion ends, and rounded to 17 significant
    digits otherwise (a double prints with at most 17). *)
Definition decimal_of (num : Z) (den : positive) : Z * Z :=
  let '(s, e) :=
    match exact_scale (Pos.size_nat den) num (Zpos den) 0 with
    | Some (t, j) => (t, - j)
    | None =>
        let j := 17 + Z.of_nat (String.length (N_to_string (Npos den))) in
        let t := (num * 10 ^ j) / Zpos den in
        let drop := Z.of_nat (String.length (N_to_string (Z.to_N t))) - 17 in
        ((t + 5 * 10 ^ (drop - 1)) / 10 ^ drop, drop - j)
    end in
  strip_zeros (String.length (N_to_string (Z.to_N s))) s e.

(** The layout rules of Number::toString for the digits [ds] of [s] and
    [n = length ds + e]. *)
Definition layout (ds : string) (n : Z) : string :=
  let k := Z.of_nat (String.length ds) in
  if (k <=? n) && (n <=? 21) then
    ds +:+ zeros (Z.to_nat (n - k))
  else if (0 <? n) && (n <=? 21) then
    String.substring 0 (Z.to_nat n) ds +:+ "." +:+
    String.substring (Z.to_nat n) (Z.to_nat (k - n)) ds
  else if (-6 <? n) && (n <=? 0) then
    "0." +:+ zeros (Z.to_nat (- n)) +:+ ds
  else
    let mant :=
      match ds with
      | String d (String _ _ as r) => String d ("." +:+ r)
      | _ => ds
      end in
    mant +:+ "e" +:+ (if 0 <=? n - 1 then "+" else "-") +:+
    N_to_string (Z.to_N (Z.abs (n - 1))).

Definition number_to_string (a : number) : string :=
  match a with
  | NaN => "NaN"
  | PInf => "Infinity"
  | NInf => "-Infinity"
  | Fin q =>
      let q := Qred q in
      match Qnum q with
      | Z0 => "0"
      | num =>
          let '(s, e) := decimal_of (Z.abs num) (Qden q) in
          let ds := N_to_string (Z.to_N s) in
          (if num <? 0 then "-" else EmptyString) +:+
          layout ds (Z.of_nat (String.length ds) + e)
      end
  end.

(* ===================================================================== *)
(** ** The pixel pattern [/^\s*([-0-9.]+)\s*px/im] *)
(* ===================================================================== *)

(** The class [[-0-9.]]. *)
Definition in_class (c : ascii) : bool :=
  (Ascii.eqb c "-" || is_digit c || Ascii.eqb c ".")%char.

Fixpoint take_class (s : string) : string * string :=
  match s with
  | String c r =>
      if in_class c
      then let '(g, rest) := take_class r in (String c g, rest)
      else (EmptyString, s)
  | EmptyString => (EmptyString, s)
  end.

(** The pattern tried at one position. The three starred or plussed classes
    are pairwise disjoint from what follows them ([\s] from [[-0-9.]],
    [[-0-9.]] from [\s] and [p], [\s] from [p]), so the greedy choice is the
    only one that can succeed and no backtracking is lost. Returns the
    captured group and the text after the match. *)
Definition match_here (s : string) : option (string * string) :=
  let '(g, s2) := take_class (skip_ws s) in
  match g with
  | EmptyString => None
  | _ =>
      match skip_ws s2 with
      | String p (String x rest) =>
          if ((Ascii.eqb p "p" || Ascii.eqb p "P")
              && (Ascii.eqb x "x" || Ascii.eqb x "X"))%char
          then Some (g, rest) else None
      | _ => None
      end
  end.

(** Leftmost match: [^] holds at the start of the input and, with the [m]
    flag, after every line terminator. Returns the text before the match,
    the group and the text after the match. *)
Fixpoint search (line_start : bool) (s : string)
  : option (string * string * string) :=
  match (if line_start then match_here s else None) with
  | Some (g, rest) => Some (EmptyString, g, rest)
  | None =>
      match s with
      | EmptyString => None
      | String c r =>
          match search (is_line_terminator c) r with
          | Some (before, g, rest) => Some (String c before, g, rest)
          | None => None
          end
      end
  end.

(* ===================================================================== *)
(** ** Values, objects and the heap *)
(* ===================================================================== *)

(** Locations are indices into the heap. *)
Abbreviation loc := nat (only parsing).

Inductive value : Type :=
| VUndef
| VNull
| VBool (b : bool)
| VNum (n : number)
| VStr (s : string)
| VRef (l : loc)      (* an object, an array or an engine object *)
| VFun (f : nat).     (* a function, by identity; never called *)

(** *** The engine's objects, as records of what the facade passes in *)

Inductive b2Shape : Type :=
| SetAsBox (hx hy : number)                       (* new PolygonShape, SetAsBox *)
| SetAsArray (vec : list (value * value)) (n : nat) (* new PolygonShape, SetAsArray *)
| CircleShape (radius : value).                   (* new CircleShape(radius) *)

Record FixtureDef : Type := mkFixtureDef {
  density : value;
  friction : value;
  restitution : value;
  shape : b2Shape
}.

Inductive b2BodyType : Type := b2_staticBody | b2_dynamicBody.

Record BodyDef : Type := mkBodyDef {
  type : b2BodyType;
  position : value * value
}.

Record b2Body : Type := mkBody {
  m_def : BodyDef;
  m_fixtures : list FixtureDef;
  m_angle : value;
  sensorCallback : option value;   (* [None]: the property was never set *)
  body_id : value;
  m_impulses : list (value * value)
}.

Record B2DWorld : Type := mkB2DWorld {
  m_gravity : value;
  m_allowSleep : value;
  m_bodyList : list value;
  m_contactListener : bool;
  m_steps : list (list value);     (* arguments of every Step call *)
  m_clearForces : nat              (* number of ClearForces calls *)
}.

Inductive hobj : Type :=
| HObj (props : list (string * value)) (* own properties, in creation order *)
| HArr (elems : list value)
| HVec2 (x y : value)
| HBody (b : b2Body).

Abbreviation heap := (list hobj) (only parsing).

(** *** Outcomes *)

Inductive error : Type := TypeError.

Inductive outcome (A : Type) : Type :=
| Ok (a : A)
| Throw (e : error)
| Unsupported.
Arguments Ok {A} a.
Arguments Throw {A} e.
Arguments Unsupported {A}.

(** *** Property tables *)

Fixpoint assoc (k : string) (props : list (string * value)) : option value :=
  match props with
  | [] => None
  | (k', v) :: rest => if String.eqb k k' then Some v else assoc k rest
  end.

(** Assignment keeps the position of an existing key and appends a new one. *)
Fixpoint assign (k : string) (v : value) (props : list (string * value))
  : list (string * value) :=
  match props with
  | [] => [(k, v)]
  | (k', v') :: rest =>
      if String.eqb k k' then (k, v) :: rest else (k', v') :: assign k v rest
  end.

(** An array index: a string [k] that is the canonical decimal form of a
    number below 2^32 - 1, that is, ToString(ToUint32(k)) = k. *)
Definition array_index (k : string) : option N :=
  match take_digits k with
  | ((_ :: _) as ds, EmptyString) =>
      let n := Z.to_N (digits_value ds) in
      if String.eqb (N_to_string n) k && (n <? 4294967295)%N
      then Some n else None
  | _ => None
  end.

Definition index_key (i : nat) : string := N_to_string (N.of_nat i).

Fixpoint insert_sorted (n : N) (l : list N) : list N :=
  match l with
  | [] => [n]
  | m :: rest => if (n <=? m)%N then n :: l else m :: insert_sorted n rest
  end.

(** Enumeration order of own keys: array indices ascending, then the other
    keys in creation order. *)
Definition own_keys (props : list (string * value)) : list string :=
  let ks := fst <$> props in
  (N_to_string <$> fold_right insert_sorted [] (omap array_index ks))
  ++ filter (fun k => array_index k = None) ks.

(** The property names every object inherits from [Object.prototype]. *)
Definition object_prototype_keys : list string :=
  ["constructor"; "toString"; "toLocaleString"; "valueOf"; "hasOwnProperty";
   "isPrototypeOf"; "propertyIsEnumerable"; "__proto__"; "__defineGetter__";
   "__defineSetter__"; "__lookupGetter__"; "__lookupSetter__"].

Definition inherited (k : string) : bool :=
  existsb (String.eqb k) object_prototype_keys.

Fixpoint string_chars (s : string) : list value :=
  match s with
  | EmptyString => []
  | String c r => VStr (String c EmptyString) :: string_chars r
  end.

Definition index_keys (n : nat) : list string := map index_key (seq 0 n).

(** *** Reading the heap *)

(** The keys a [for (key in v)] loop visits, before the loop's own
    [hasOwnProperty] test. Inherited enumerable keys (the methods on the
    engine's prototypes) fail that test and are left out here. *)
Definition enum_keys (h : heap) (v : value) : outcome (list string) :=
  match v with
  | VStr s => Ok (index_keys (String.length s))
  | VRef l =>
      match h !! l with
      | Some (HObj props) => Ok (own_keys props)
      | Some (HArr elems) => Ok (index_keys (length elems))
      | Some (HVec2 _ _) => Ok ["x"; "y"]
      | Some (HBody _) | None => Unsupported
      end
  | _ => Ok []
  end.

(** [v.hasOwnProperty(key)] followed by [v[key]] when it holds: [Some] of
    the property's value, or [None] when [key] is not an own property. An
    object that shadows [hasOwnProperty] with something not callable throws;
    with a function, the call is outside the model. *)
Definition own_property (h : heap) (v : value) (key : string)
  : outcome (option value) :=
  match v with
  | VUndef | VNull => Throw TypeError
  | VStr s =>
      Ok (match array_index key with
          | Some i => string_chars s !! N.to_nat i
          | None => None
          end)
  | VRef l =>
      match h !! l with
      | Some (HObj props) =>
          match assoc "hasOwnProperty" props with
          | Some (VFun _) => Unsupported
          | Some _ => Throw TypeError
          | None => Ok (assoc key props)
          end
      | Some (HArr elems) =>
          Ok (match array_index key with
              | Some i => elems !! N.to_nat i
              | None => None
              end)
      | Some (HVec2 x y) =>
          Ok (if String.eqb key "x" then Some x
              else if String.eqb key "y" then Some y else None)
      | Some (HBody _) | None => Unsupported
      end
  | _ => Ok None
  end.

(** [key in v]. Only ordinary objects are supported as option objects. *)
Definition has_property (h : heap) (key : string) (v : value) : outcome bool :=
  match v with
  | VRef l =>
      match h !! l with
      | Some (HObj props) =>
          Ok (match assoc key props with
              | Some _ => true
              | None => inherited key
              end)
      | _ => Unsupported
      end
  | VFun _ => Unsupported
  | _ => Throw TypeError
  end.

(** [v[key]], for the property names the facade reads (none of them is
    defined on a built-in prototype; an inherited [Object.prototype] name is
    outside the model). *)
Definition get (h : heap) (v : value) (key : string) : outcome value :=
  match v with
  | VUndef | VNull => Throw TypeError
  | VStr s =>
      Ok (match array_index key with
          | Some i => default VUndef (string_chars s !! N.to_nat i)
          | None => VUndef
          end)
  | VRef l =>
      match h !! l with
      | Some (HObj props) =>
          match assoc key props with
          | Some x => Ok x
          | None => if inherited key then Unsupported else Ok VUndef
          end
      | Some (HArr elems) =>
          Ok (match array_index key with
              | Some i => default VUndef (elems !! N.to_nat i)
              | None => VUndef
              end)
      | Some (HVec2 x y) =>
          Ok (if String.eqb key "x" then x
              else if String.eqb key "y" then y else VUndef)
      | Some (HBody b) =>
          Ok (if String.eqb key "id" then body_id b
              else if String.eqb key "sensorCallback"
                   then default VUndef (sensorCallback b)
              else VUndef)
      | None => Unsupported
      end
  | _ => Ok VUndef
  end.

(** ToNumber. An ordinary object with the inherited [valueOf] and
    [toString] converts through ["[object Object]"] to NaN; other objects
    are outside the model. *)
Definition to_number (h : heap) (v : value) : outcome number :=
  match v with
  | VUndef => Ok NaN
  | VNull => Ok (fin 0)
  | VBool b => Ok (fin (if b then 1 else 0))
  | VNum n => Ok n
  | VStr s => Ok (string_to_number s)
  | VFun _ => Ok NaN
  | VRef l =>
      match h !! l with
      | Some (HObj props) =>
          match assoc "valueOf" props, assoc "toString" props with
          | None, None => Ok NaN
          | _, _ => Unsupported
          end
      | _ => Unsupported
      end
  end.

(** ToBoolean. *)
Definition to_boolean (v : value) : bool :=
  match v with
  | VUndef | VNull => false
  | VBool b => b
  | VNum NaN => false
  | VNum (Fin q) => match Qsign q with Eq => false | _ => true end
  | VNum _ => true
  | VStr EmptyString => false
  | VStr _ => true
  | VRef _ | VFun _ => true
  end.

(** [v == undefined] *)
Definition eq_undefined (v : value) : bool :=
  match v with
  | VUndef | VNull => true
  | _ => false
  end.

(** [v === 'k'], with a string literal on the right. *)
Definition is_string (k : string) (v : value) : bool :=
  match v with
  | VStr s => String.eqb s k
  | _ => false
  end.

(* ===================================================================== *)
(** ** The facade's state and its computations *)
(* ===================================================================== *)

(** The heap together with the three variables the constructor closes over:
    [settings], [bodies] and [world]. *)
Record state : Type := mkState {
  st_heap : heap;
  settings : value;
  bodies : list value;
  world : option B2DWorld
}.

Definition with_heap (st : state) (h : heap) : state :=
  mkState h (settings st) (bodies st) (world st).

Definition with_bodies (st : state) (bs : list value) : state :=
  mkState (st_heap st) (settings st) bs (world st).

Definition with_world (st : state) (w : B2DWorld) : state :=
  mkState (st_heap st) (settings st) (bodies st) (Some w).

(** A computation may change the state and then return, throw or leave the
    model; what it changed before throwing stays changed. *)
Definition M (A : Type) : Type := state -> outcome A * state.

Definition ret {A} (a : A) : M A := fun st => (Ok a, st).

Definition throw {A} (e : error) : M A := fun st => (Throw e, st).

Definition unsupported {A} : M A := fun st => (Unsupported, st).

Definition bind {A B} (m : M A) (k : A -> M B) : M B :=
  fun st =>
    match m st with
    | (Ok a, st') => k a st'
    | (Throw e, st') => (Throw e, st')
    | (Unsupported, st') => (Unsupported, st')
    end.

Notation "'let*' x ':=' m 'in' k" := (bind m (fun x => k))
  (at level 10, x pattern, m at level 100, k at level 200).
Notation "m ';;' k" := (bind m (fun _ => k))
  (at level 100, k at level 200, right associativity).

Definition read {A} (f : heap -> outcome A) : M A :=
  fun st => (f (st_heap st), st).

(** A new object; its location is the next free one. *)
Definition alloc (o : hobj) : M value :=
  fun st => (Ok (VRef (length (st_heap st))), with_heap st (st_heap st ++ [o])).

(** [v[key] = x] on an ordinary object. *)
Definition set (v : value) (key : string) (x : value) : M unit :=
  fun st =>
    match v with
    | VRef l =>
        match st_heap st !! l with
        | Some (HObj props) =>
            (Ok tt, with_heap st (<[l := HObj (assign key x props)]> (st_heap st)))
        | _ => (Unsupported, st)
        end
    | _ => (Unsupported, st)
    end.

Definition arg (i : nat) (args : list value) : value :=
  default VUndef (args !! i).

(** *** [map] and [merge] *)

(** The body of [map]'s loop over the keys found when the loop started;
    [own key] is the test [obj.hasOwnProperty(key)] together with
    [obj[key]], both read when the key is reached. *)
Fixpoint map_loop (own : string -> M (option value))
    (func : string -> value -> value -> M value) (context : value)
    (keys : list string) : M (list value) :=
  match keys with
  | [] => ret []
  | key :: rest =>
      let* o := own key in
      match o with
      | Some v =>
          let* r := func key v context in
          let* results := map_loop own func context rest in
          ret (r :: results)
      | None => map_loop own func context rest
      end
  end.

(** [map(obj, func, context)]; the result array is returned as a list. *)
Definition map (obj : value) (func : string -> value -> value -> M value)
    (context : value) : M (list value) :=
  let* keys := read (fun h => enum_keys h obj) in
  map_loop (fun key => read (fun h => own_property h obj key)) func context keys.

(** The function [merge] hands to [map]. *)
Definition merge_callback (defaults settings : value)
  : string -> value -> value -> M value :=
  fun key val _ =>
    let* own := read (fun h => own_property h defaults key) in
    match own with
    | Some _ =>
        let* present := read (fun h => has_property h key settings) in
        if negb present then
          let* d := read (fun h => get h defaults key) in
          set settings key d ;; ret VUndef
        else ret VUndef
    | None => ret VUndef
    end.

(** [merge(defaults, settings)] *)
Definition merge (defaults settings : value) : M value :=
  map defaults (merge_callback defaults settings) VUndef ;;
  ret settings.

(** *** The engine *)

Definition new_Vec2 (x y : value) : M value := alloc (HVec2 x y).

Definition the_world : M B2DWorld :=
  fun st =>
    match world st with
    | Some w => (Ok w, st)
    | None => (Throw TypeError, st)
    end.

Definition put_world (w : B2DWorld) : M unit :=
  fun st => (Ok tt, with_world st w).

Definition update_body (body : value) (f : b2Body -> b2Body) : M unit :=
  fun st =>
    match body with
    | VRef l =>
        match st_heap st !! l with
        | Some (HBody b) =>
            (Ok tt, with_heap st (<[l := HBody (f b)]> (st_heap st)))
        | _ => (Unsupported, st)
        end
    | _ => (Unsupported, st)
    end.

(** [world.CreateBody(bodyDef)] *)
Definition CreateBody (bodyDef : BodyDef) : M value :=
  let* w := the_world in
  let* body := alloc (HBody (mkBody bodyDef [] (VNum (fin 0)) None VUndef [])) in
  put_world (mkB2DWorld (m_gravity w) (m_allowSleep w) (m_bodyList w ++ [body])
               (m_contactListener w) (m_steps w) (m_clearForces w)) ;;
  ret body.

(** [body.CreateFixture(fixDef)] *)
Definition CreateFixture (body : value) (fixDef : FixtureDef) : M unit :=
  update_body body (fun b =>
    mkBody (m_def b) (m_fixtures b ++ [fixDef]) (m_angle b) (sensorCallback b)
           (body_id b) (m_impulses b)).

(** [body.SetAngle(angle)] *)
Definition SetAngle (body : value) (angle : value) : M unit :=
  update_body body (fun b =>
    mkBody (m_def b) (m_fixtures b) angle (sensorCallback b) (body_id b)
           (m_impulses b)).

(** [body.sensorCallback = f] *)
Definition set_sensorCallback (body : value) (f : value) : M unit :=
  update_body body (fun b =>
    mkBody (m_def b) (m_fixtures b) (m_angle b) (Some f) (body_id b)
           (m_impulses b)).

(** [body.id = v] *)
Definition set_id (body : value) (v : value) : M unit :=
  update_body body (fun b =>
    mkBody (m_def b) (m_fixtures b) (m_angle b) (sensorCallback b) v
           (m_impulses b)).

(** [body.ApplyImpulse(f, c)], with [c] the body's own centre. *)
Definition ApplyImpulse (body : value) (f : value * value) : M unit :=
  update_body body (fun b =>
    mkBody (m_def b) (m_fixtures b) (m_angle b) (sensorCallback b) (body_id b)
           (m_impulses b ++ [f])).

(** The coordinates of a vector the facade has just built. *)
Definition vec2_coords (h : heap) (v : value) : outcome (value * value) :=
  match v with
  | VRef l =>
      match h !! l with
      | Some (HVec2 x y) => Ok (x, y)
      | _ => Unsupported
      end
  | _ => Unsupported
  end.

Fixpoint mapM {A B} (f : A -> M B) (l : list A) : M (list B) :=
  match l with
  | [] => ret []
  | a :: rest =>
      let* b := f a in
      let* bs := mapM f rest in
      ret (b :: bs)
  end.

(* ===================================================================== *)
(** ** The facade *)
(* ===================================================================== *)

(** [this.drawRatio()] *)
Definition drawRatio : M value :=
  fun st => (get (st_heap st) (settings st) "drawRatio", st).

(** Strings of white space only. *)
Fixpoint all_ws (s : string) : bool :=
  match s with
  | EmptyString => true
  | String c r => is_ws c && all_ws r
  end.

(** What [str.replace(re, fn)] returns when [fn] returns a number: the
    string itself without a match, and otherwise the text before the match,
    the number (to be printed by Number::toString) and the text after it. *)
Inductive replaced : Type :=
| Unchanged (s : string)
| Spliced (before : string) (x : number) (rest : string).

(** Whether [rest], put after a printed number, could be read as more of
    it: a digit, a point or an exponent mark. *)
Definition continues (rest : string) : bool :=
  match rest with
  | String c _ =>
      (is_digit c || Ascii.eqb c "." || Ascii.eqb c "e" || Ascii.eqb c "E")%char
  | EmptyString => false
  end.

(** [parseFloat] of a replaced string. Number::toString prints a double so
    that it reads back as the same double; an exact rational has no such
    finite form in general. So where the printed number stands alone, after
    white space only and before nothing that continues it, reading it is the
    number itself; elsewhere the number is printed with [number_to_string]
    (exactly when its decimal expansion ends) and the string is read. *)
Definition parseFloat_replaced (p : replaced) : number :=
  match p with
  | Unchanged s => parseFloat s
  | Spliced before x rest =>
      if all_ws before && negb (continues rest) then x
      else parseFloat (before +:+ number_to_string x +:+ rest)
  end.

(** [world.prototype.parsePixels] *)
Definition parsePixels (str : value) : M value :=
  let* drawRatio := drawRatio in
  match str with
  | VStr s =>
      let* replaced :=
        match search true s with
        | Some (before, g, rest) =>
            (* function ($0, $1) { return parseFloat($1) * 1/drawRatio } *)
            let* r := read (fun h => to_number h drawRatio) in
            ret (Spliced before
                   (num_div (num_mul (parseFloat g) (fin 1)) r) rest)
        | None => ret (Unchanged s)
        end in
      ret (VNum (parseFloat_replaced replaced))
  | _ => ret str
  end.

(** [world.prototype.toPixels] *)
Definition toPixels (num : value) : M value :=
  let* drawRatio := drawRatio in
  let* a := read (fun h => to_number h num) in
  let* r := read (fun h => to_number h drawRatio) in
  ret (VNum (num_mul a r)).

(** [num.replace(/px/i, '')]: the first [px], in either case, is removed. *)
Fixpoint strip_px (s : string) : string :=
  match s with
  | String p (String x rest as r) =>
      if ((Ascii.eqb p "p" || Ascii.eqb p "P")
          && (Ascii.eqb x "x" || Ascii.eqb x "X"))%char
      then rest else String p (strip_px r)
  | _ => s
  end.

(** [world.prototype.toMeters] *)
Definition toMeters (num : value) : M value :=
  let num := match num with VStr s => VStr (strip_px s) | _ => num end in
  let* drawRatio := drawRatio in
  let* a := read (fun h => to_number h num) in
  let* r := read (fun h => to_number h drawRatio) in
  ret (VNum (num_div a r)).

(** The defaults literal of [addBody]. *)
Definition addBody_defaults : list (string * value) :=
  [("shape", VStr "box"); ("static", VBool true);
   ("density", VNum (fin 1)); ("friction", VNum (fin (1 # 2)));
   ("restitution", VNum (fin (3 # 10))); ("sensorCallback", VUndef);
   ("x", VNum (fin 0)); ("y", VNum (fin 0)); ("rotation", VNum (fin 0));
   ("radius", VUndef); ("width", VUndef); ("height", VUndef);
   ("vertices", VUndef); ("id", VUndef)].

Definition getp (v : value) (key : string) : M value :=
  read (fun h => get h v key).

(** [bodies.push(body)] *)
Definition push_body (body : value) : M unit :=
  fun st => (Ok tt, with_bodies st (bodies st ++ [body])).

(** The [switch (settings.shape)] of [addBody]. *)
Definition make_shape (settings : value) : M b2Shape :=
  let* tag := getp settings "shape" in
  if is_string "box" tag then
    let* width := getp settings "width" in
    let* hx := read (fun h => to_number h width) in
    let* height := getp settings "height" in
    let* hy := read (fun h => to_number h height) in
    ret (SetAsBox (num_div hx (fin 2)) (num_div hy (fin 2)))
  else if is_string "polygon" tag then
    let* vertices := getp settings "vertices" in
    let* vec :=
      map vertices (fun i e _ =>
        let* e0 := getp e "0" in
        let* x := parsePixels e0 in
        let* e1 := getp e "1" in
        let* y := parsePixels e1 in
        new_Vec2 x y) VUndef in
    let* coords := mapM (fun v => read (fun h => vec2_coords h v)) vec in
    ret (SetAsArray coords (length vec))
  else if is_string "circle" tag then
    let* radius := getp settings "radius" in
    ret (CircleShape radius)
  else throw TypeError.

(** [this.addBody], applied to its [arguments]. *)
Definition addBody (args : list value) : M value :=
  match args with
  | [] => throw TypeError
  | settings :: _ =>
      (* Merge the defaults *)
      let* defaults := alloc (HObj addBody_defaults) in
      merge defaults settings ;;
      (* Convert all pixels to meters *)
      let* sx := getp settings "x" in
      let* x := parsePixels sx in
      let* sy := getp settings "y" in
      let* y := parsePixels sy in
      let* sradius := getp settings "radius" in
      let* radius := parsePixels sradius in
      let* swidth := getp settings "width" in
      let* width := parsePixels swidth in
      let* sheight := getp settings "height" in
      let* height := parsePixels sheight in
      let* converted :=
        alloc (HObj [("x", x); ("y", y); ("radius", radius);
                     ("width", width); ("height", height)]) in
      let* settings := merge settings converted in
      let* vertices := getp settings "vertices" in
      (if to_boolean vertices
       then set settings "shape" (VStr "polygon") else ret tt) ;;
      let* density := getp settings "density" in
      let* friction := getp settings "friction" in
      let* restitution := getp settings "restitution" in
      let* static := getp settings "static" in
      let type := if to_boolean static then b2_staticBody else b2_dynamicBody in
      let* px := getp settings "x" in
      let* py := getp settings "y" in
      let* shape := make_shape settings in
      let* body := CreateBody (mkBodyDef type (px, py)) in
      CreateFixture body (mkFixtureDef density friction restitution shape) ;;
      let* callback := getp settings "sensorCallback" in
      (match callback with
       | VFun _ => set_sensorCallback body callback
       | _ => ret tt
       end) ;;
      let* rotation := getp settings "rotation" in
      SetAngle body rotation ;;
      let* id := getp settings "id" in
      set_id body id ;;
      push_body body ;;
      ret body
  end.

(** A visitor passed to [iterBodies]: it may read and change the heap, and
    has no access to the facade's private variables. *)
Definition visitor : Type :=
  string -> value -> value -> heap -> outcome value * heap.

Definition call_visitor (func : visitor) (key : string) (v context : value)
  : M value :=
  fun st =>
    let '(r, h) := func key v context (st_heap st) in (r, with_heap st h).

(** [bodies.hasOwnProperty(key)] with [bodies[key]], on the private array. *)
Definition registry_lookup (bs : list value) (key : string) : option value :=
  match array_index key with
  | Some i => bs !! N.to_nat i
  | None => None
  end.

(** [this.iterBodies]: [map] over the private array [bodies]. *)
Definition iterBodies (func : visitor) (context : value) : M (list value) :=
  let* keys := (fun st => (Ok (index_keys (length (bodies st))), st)) in
  map_loop (fun key st => (Ok (registry_lookup (bodies st) key), st))
    (call_visitor func) context keys.

(** [this.world()] *)
Definition world_ : M (option B2DWorld) := fun st => (Ok (world st), st).

(** [this.step]: [world.Step.apply(world, arguments)] *)
Definition step (args : list value) : M value :=
  let* w := the_world in
  put_world (mkB2DWorld (m_gravity w) (m_allowSleep w) (m_bodyList w)
               (m_contactListener w) (m_steps w ++ [args]) (m_clearForces w)) ;;
  ret VUndef.

(** [this.clearForces]: [world.ClearForces.apply(world, arguments)] *)
Definition clearForces (args : list value) : M value :=
  let* w := the_world in
  put_world (mkB2DWorld (m_gravity w) (m_allowSleep w) (m_bodyList w)
               (m_contactListener w) (m_steps w) (S (m_clearForces w))) ;;
  ret VUndef.

Definition GetGravity : M value :=
  let* w := the_world in ret (m_gravity w).

Definition SetGravity (g : value) : M unit :=
  let* w := the_world in
  put_world (mkB2DWorld g (m_allowSleep w) (m_bodyList w)
               (m_contactListener w) (m_steps w) (m_clearForces w)).

(** [world.prototype.gravity] *)
Definition gravity (args : list value) : M value :=
  let gravity := arg 0 args in
  let* current := GetGravity in
  if negb (to_boolean gravity) then ret current
  else
    let* gx := getp gravity "x" in
    let* x := if eq_undefined gx then getp current "x" else ret gx in
    let* gy := getp gravity "y" in
    let* y := if eq_undefined gy then getp current "y" else ret gy in
    let* v := new_Vec2 x y in
    SetGravity v ;;
    ret VUndef.

(** The constructor [world(settings)], run on a heap; the three closed-over
    variables start as the argument, the empty array and [undefined]. The
    contact listener only forwards to sensor callbacks and is recorded as
    installed. *)
Definition Box2D_world (args : list value) (h : heap) : outcome unit * state :=
  (let* settings := (fun st => (Ok (settings st), st)) in
   let* g := alloc (HObj [("x", VNum (fin 0)); ("y", VNum (fin (98 # 10)))]) in
   let* defaults :=
     alloc (HObj [("ignoreStatic", VBool true); ("drawRatio", VNum (fin 1));
                  ("gravity", g)]) in
   merge defaults settings ;;
   let* sg := getp settings "gravity" in
   let* gx := getp sg "x" in
   let* gy := getp sg "y" in
   let* v := new_Vec2 gx gy in
   let* ignoreStatic := getp settings "ignoreStatic" in
   put_world (mkB2DWorld v ignoreStatic [] true [] 0))
    (mkState h (arg 0 args) [] None).

(** [body.GetWorldCenter()] needs an engine body: on anything else the
    method is missing and the call throws, unless an ordinary object brings
    a property of that name. *)
Definition has_GetWorldCenter (body : value) : M unit :=
  read (fun h =>
    match body with
    | VRef l =>
        match h !! l with
        | Some (HBody _) => Ok tt
        | Some (HObj props) =>
            match assoc "GetWorldCenter" props with
            | Some _ => Unsupported
            | None => Throw TypeError
            end
        | Some _ => Throw TypeError
        | None => Unsupported
        end
    | _ => Throw TypeError
    end).

(** The defaults literal of [randomImpulse]. *)
Definition randomImpulse_defaults : list (string * value) :=
  [("minAngle", VNum (fin 0)); ("maxAngle", VNum (fin 360));
   ("scale", VStr "10px")].

Section RandomImpulse.

(** [Math.random], [Math.cos], [Math.sin] and [Math.PI] are floating-point
    and not deterministic: the vector [f] they give for [minAngle],
    [maxAngle] and [scale] is a parameter. *)
Variable impulse_vector : value -> value -> value -> value * value.

(** [world.prototype.randomImpulse] *)
Definition randomImpulse (body settings : value) : M unit :=
  let* defaults := alloc (HObj randomImpulse_defaults) in
  merge defaults settings ;;
  let* s := getp settings "scale" in
  let* scale := parsePixels s in
  set settings "scale" scale ;;
  let* minAngle := getp settings "minAngle" in
  let* maxAngle := getp settings "maxAngle" in
  let* scale := getp settings "scale" in
  has_GetWorldCenter body ;;
  ApplyImpulse body (impulse_vector minAngle maxAngle scale).

End RandomImpulse.

(* ===================================================================== *)
(** ** Pixel strings, as the specification writes them *)
(* ===================================================================== *)

(** The character of a decimal digit. *)
Definition digit_char (d : Z) : ascii := ascii_of_N (Z.to_N (48 + d)).

Fixpoint digits_string (ds : list Z) : string :=
  match ds with
  | [] => EmptyString
  | d :: rest => String (digit_char d) (digits_string rest)
  end.

Definition is_digits (ds : list Z) : Prop := Forall (fun d => 0 <= d <= 9) ds.

(** An unsigned literal [[0-9]*\.?[0-9]+]: integer digits, then either
    nothing more (and at least one integer digit) or a point and at least one
    fraction digit. *)
Definition unsigned_literal (ints : list Z) (dot : bool) (fracs : list Z)
  : string :=
  digits_string ints +:+ (if dot then "." else EmptyString) +:+ digits_string fracs.

Definition well_formed (ints : list Z) (dot : bool) (fracs : list Z) : Prop :=
  is_digits ints /\ is_digits fracs /\
  if dot then fracs <> [] else fracs = [] /\ ints <> [].

(** A literal with an optional minus sign. *)
Definition literal (neg : bool) (ints : list Z) (dot : bool) (fracs : list Z)
  : string :=
  (if neg then "-" else EmptyString) +:+ unsigned_literal ints dot fracs.

(** The number a literal denotes: the integer digits weigh 1, 10, 100, ...
    from the right, the fraction digits 1/10, 1/100, ... from the left. *)
Definition frac_value (fracs : list Z) : Q :=
  fold_right (fun d acc => (inject_Z d + acc) / inject_Z 10)%Q 0%Q fracs.

Definition literal_value (neg : bool) (ints fracs : list Z) : Q :=
  let v := (inject_Z (digits_value ints) + frac_value fracs)%Q in
  if neg then (- v)%Q else v.

(** The suffix [px], in either case. *)
Definition is_px (s : string) : bool :=
  match s with
  | String p (String x EmptyString) =>
      ((Ascii.eqb p "p" || Ascii.eqb p "P")
       && (Ascii.eqb x "x" || Ascii.eqb x "X"))%char
  | _ => false
  end.

(** Whether [px], in either case, occurs in a string. *)
Fixpoint has_px (s : string) : bool :=
  match s with
  | String p (String x _ as r) =>
      ((Ascii.eqb p "p" || Ascii.eqb p "P")
       && (Ascii.eqb x "x" || Ascii.eqb x "X"))%char
      || has_px r
  | _ => false
  end.

(** What may follow a literal without being read as part of it. *)
Definition stops (rest : string) : Prop :=
  match rest with
  | EmptyString => True
  | String c _ =>
      digit_val c = None /\ Ascii.eqb c "." = false /\
      Ascii.eqb c "e" = false /\ Ascii.eqb c "E" = false
  end.

Fixpoint all_class (s : string) : bool :=
  match s with
  | EmptyString => true
  | String c r => in_class c && all_class r
  end.

Fixpoint uint_digits (u : Decimal.uint) : list Z :=
  match u with
  | Decimal.Nil => []
  | Decimal.D0 u => 0 :: uint_digits u
  | Decimal.D1 u => 1 :: uint_digits u
  | Decimal.D2 u => 2 :: uint_digits u
  | Decimal.D3 u => 3 :: uint_digits u
  | Decimal.D4 u => 4 :: uint_digits u
  | Decimal.D5 u => 5 :: uint_digits u
  | Decimal.D6 u => 6 :: uint_digits u
  | Decimal.D7 u => 7 :: uint_digits u
  | Decimal.D8 u => 8 :: uint_digits u
  | Decimal.D9 u => 9 :: uint_digits u
  end.

(* ===================================================================== *)
(** ** Option objects, as functions *)
(* ===================================================================== *)

(** [props[key]] for a key that [Object.prototype] does not define. *)
Definition prop (props : list (string * value)) (key : string) : value :=
  default VUndef (assoc key props).

(** One round of [merge]'s loop: [key in settings] fails exactly when the
    key is neither an own property nor inherited. *)
Definition merge_step (dprops acc : list (string * value)) (key : string)
  : list (string * value) :=
  match assoc key dprops with
  | Some d =>
      match assoc key acc with
      | Some _ => acc
      | None => if inherited key then acc else assign key d acc
      end
  | None => acc
  end.

(** The properties of [settings] after [merge(defaults, settings)]. *)
Definition merge_props (dprops sprops : list (string * value))
  : list (string * value) :=
  fold_left (merge_step dprops) (own_keys dprops) sprops.

(** [parsePixels] for a numeric draw ratio [r], as a function. *)
Definition parse_pixels (r : Q) (v : value) : value :=
  match v with
  | VStr s =>
      VNum (parseFloat_replaced
              match search true s with
              | Some (before, g, rest) =>
                  Spliced before
                    (num_div (num_mul (parseFloat g) (fin 1)) (Fin r)) rest
              | None => Unchanged s
              end)
  | _ => v
  end.


(** The object literal of [addBody]'s second [merge]. *)
Definition converted_props (r : Q) (merged : list (string * value))
  : list (string * value) :=
  [("x", parse_pixels r (prop merged "x"));
   ("y", parse_pixels r (prop merged "y"));
   ("radius", parse_pixels r (prop merged "radius"));
   ("width", parse_pixels r (prop merged "width"));
   ("height", parse_pixels r (prop merged "height"))].

(** The properties of the object [addBody] builds the body from. *)
Definition resolved_props (r : Q) (props : list (string * value))
  : list (string * value) :=
  let merged := merge_props addBody_defaults props in
  let final := merge_props merged (converted_props r merged) in
  if to_boolean (prop final "vertices")
  then assign "shape" (VStr "polygon") final else final.




(** The engine body [addBody] ends with, for resolved properties [final]. *)
Definition new_body (final : list (string * value)) (shape : b2Shape) : b2Body :=
  mkBody
    (mkBodyDef
       (if to_boolean (prop final "static")
        then b2_staticBody else b2_dynamicBody)
       (prop final "x", prop final "y"))
    [mkFixtureDef (prop final "density") (prop final "friction")
       (prop final "restitution") shape]
    (prop final "rotation")
    (match prop final "sensorCallback" with
     | VFun f => Some (VFun f)
     | _ => None
     end)
    (prop final "id") [].

(** The outcome of [addBody] once the shape is made: the body is allocated
    next in the heap, registered with the engine and pushed. *)
Definition created (final : list (string * value)) (shape : b2Shape)
    (w : B2DWorld) (st : state) : outcome value * state :=
  let body := VRef (length (st_heap st)) in
  (Ok body,
   mkState (st_heap st ++ [HBody (new_body final shape)]) (settings st)
     (bodies st ++ [body])
     (Some (mkB2DWorld (m_gravity w) (m_allowSleep w) (m_bodyList w ++ [body])
              (m_contactListener w) (m_steps w) (m_clearForces w)))).

(** The heap in which [addBody] makes the shape. *)
Definition shape_state (st : state) (l : loc) (props final : list (string * value))
  : state :=
  with_heap st
    (<[l := HObj (merge_props addBody_defaults props)]> (st_heap st)
     ++ [HObj addBody_defaults; HObj final]).

(** The shapes of the fixtures of the body a call to [addBody] returned. *)
Definition created_shapes (res : outcome value * state) : option (list b2Shape) :=
  match res with
  | (Ok (VRef body), st) =>
      match st_heap st !! body with
      | Some (HBody b) => Some (shape <$> m_fixtures b)
      | _ => None
      end
  | _ => None
  end.

(** One axis after [gravity(g)]: the given value, unless it is missing,
    undefined or null. *)
Definition updated_axis (given : option value) (current : value) : value :=
  match given with
  | Some v => if eq_undefined v then current else v
  | None => current
  end.

(* ===================================================================== *)
(** ** Worlds *)
(* ===================================================================== *)

(** A world whose draw ratio is the finite number [r]. *)
Definition has_drawRatio (st : state) (r : Q) : Prop :=
  get (st_heap st) (settings st) "drawRatio" = Ok (VNum (Fin r)).

(** A world built by the constructor, as far as [addBody] needs it: the
    engine world exists and the settings object, which is not the options
    object at [l], holds the numeric draw ratio [r]. *)
Definition world_ready (st : state) (l : loc) (r : Q) (w : B2DWorld) : Prop :=
  world st = Some w /\
  exists ls wprops,
    settings st = VRef ls /\ st_heap st !! ls = Some (HObj wprops) /\
    assoc "drawRatio" wprops = Some (VNum (Fin r)) /\ l <> ls.

(** The objects the examples pass to the facade. *)
Definition example_heap : heap :=
  [ (* 0: {drawRatio: 2} *)
    HObj [("drawRatio", VNum (fin 2))];
    (* 1: {} *)
    HObj [];
    (* 2: {shape: 'circle', radius: '50px', friction: 0.1, id: '#circle'} *)
    HObj [("shape", VStr "circle"); ("radius", VStr "50px");
          ("friction", VNum (fin (1 # 10))); ("id", VStr "#circle")];
    (* 3: {shape: undefined, width: 1, height: 2} *)
    HObj [("shape", VUndef); ("width", VNum (fin 1)); ("height", VNum (fin 2))];
    (* 4: {width: 1, height: 2} *)
    HObj [("width", VNum (fin 1)); ("height", VNum (fin 2))];
    (* 5: {shape: 'circle', radius: 'abc'} *)
    HObj [("shape", VStr "circle"); ("radius", VStr "abc")];
    (* 6: {x: 5} *)
    HObj [("x", VNum (fin 5))];
    (* 7: {vertices: [[1, 2], [3, 4], [5, 6]]} *)
    HObj [("vertices", VRef 8%nat)];
    HArr [VRef 9%nat; VRef 10%nat; VRef 11%nat];
    HArr [VNum (fin 1); VNum (fin 2)];
    HArr [VNum (fin 3); VNum (fin 4)];
    HArr [VNum (fin 5); VNum (fin 6)];
    (* 12: {vertices: [{x: 1, y: 2}, {x: 3, y: 4}, {x: 5, y: 6}]} *)
    HObj [("vertices", VRef 13%nat)];
    HArr [VRef 14%nat; VRef 15%nat; VRef 16%nat];
    HObj [("x", VNum (fin 1)); ("y", VNum (fin 2))];
    HObj [("x", VNum (fin 3)); ("y", VNum (fin 4))];
    HObj [("x", VNum (fin 5)); ("y", VNum (fin 6))];
    (* 17: {vertices: [1, 2, 3, 4, 5, 6]} *)
    HObj [("vertices", VRef 18%nat)];
    HArr [VNum (fin 1); VNum (fin 2); VNum (fin 3); VNum (fin 4);
          VNum (fin 5); VNum (fin 6)];
    (* 19: {shape: 'triangle'} *)
    HObj [("shape", VStr "triangle")];
    (* 20: {x: '10px', width: '4px', height: 1,
            vertices: [[1, 2], [3, 4], [5, 6]]} *)
    HObj [("x", VStr "10px"); ("width", VStr "4px"); ("height", VNum (fin 1));
          ("vertices", VRef 8%nat)];
    (* 21: {scale: '30px'} *)
    HObj [("scale", VStr "30px")] ].

(** [new Box2D.world({drawRatio: 2})] *)
Definition example_world : state := snd (Box2D_world [VRef 0%nat] example_heap).

(* ===================================================================== *)
(** ** Calls on the facade and the registry *)
(* ===================================================================== *)

(** The visitor that returns each body. *)
Definition identity_visitor : visitor := fun _ body _ h => (Ok body, h).

(** What [iterBodies] returns for the visitor that returns each body. *)
Definition traversal (st : state) : outcome (list value) :=
  fst (iterBodies identity_visitor VUndef st).

Inductive call : Type :=
| call_drawRatio
| call_world
| call_step (args : list value)
| call_clearForces (args : list value)
| call_iterBodies (func : visitor) (context : value)
| call_addBody (args : list value)
| call_gravity (args : list value)
| call_parsePixels (str : value)
| call_toPixels (num : value)
| call_toMeters (num : value)
| call_randomImpulse (body settings : value).

(** One call: the bodies it created (at most one) and the state after it. *)
Definition run_call (impulse_vector : value -> value -> value -> value * value)
    (c : call) (st : state) : list value * state :=
  match c with
  | call_drawRatio => ([], snd (drawRatio st))
  | call_world => ([], snd (world_ st))
  | call_step args => ([], snd (step args st))
  | call_clearForces args => ([], snd (clearForces args st))
  | call_iterBodies func context => ([], snd (iterBodies func context st))
  | call_addBody args =>
      match addBody args st with
      | (Ok body, st') => ([body], st')
      | (_, st') => ([], st')
      end
  | call_gravity args => ([], snd (gravity args st))
  | call_parsePixels str => ([], snd (parsePixels str st))
  | call_toPixels num => ([], snd (toPixels num st))
  | call_toMeters num => ([], snd (toMeters num st))
  | call_randomImpulse body settings =>
      ([], snd (randomImpulse impulse_vector body settings st))
  end.

(** A sequence of calls: the bodies created, in order, and the last state. *)
Fixpoint run_calls (impulse_vector : value -> value -> value -> value * value)
    (calls : list call) (st : state) : list value * state :=
  match calls with
  | [] => ([], st)
  | c :: rest =>
      let '(created, st1) := run_call impulse_vector c st in
      let '(more, st2) := run_calls impulse_vector rest st1 in
      (created ++ more, st2)
  end.

(* ===================================================================== *)
(** ** What a computation leaves alone *)
(* ===================================================================== *)

(** A computation that leaves the registry alone, however it ends. *)
Definition keeps_bodies {A} (m : M A) : Prop :=
  forall st, bodies (snd (m st)) = bodies st.

(** A computation that appends the body it returns, and leaves the registry
    alone when it does not return. *)
Definition appends_body (m : M value) : Prop :=
  forall st,
    match m st with
    | (Ok body, st') => bodies st' = bodies st ++ [body]
    | (_, st') => bodies st' = bodies st
    end.

(** A computation that changes the state only by allocating. *)
Definition only_allocates {A} (m : M A) : Prop :=
  forall st, exists more, snd (m st) = with_heap st (st_heap st ++ more).

(** A computation that leaves the ordinary object at [l] as it is, however
    it ends, and whose result, when it returns, satisfies [R]. *)
Definition keeps_object {A} (l : loc) (props : list (string * value))
    (m : M A) (R : A -> Prop) : Prop :=
  forall st,
    st_heap st !! l = Some (HObj props) ->
    st_heap (snd (m st)) !! l = Some (HObj props) /\
    forall a, fst (m st) = Ok a -> R a.

Definition any {A} : A -> Prop := fun _ => True.

(** A computation that leaves the engine's world alone. *)
Definition keeps_world {A} (m : M A) : Prop :=
  forall st, world (snd (m st)) = world st.

(** A computation that, when it throws, has not touched the engine. *)
Definition throws_early {A} (m : M A) : Prop :=
  forall st,
    match m st with
    | (Throw _, st') => world st' = world st
    | _ => True
    end.

(** A computation that returns or leaves the model, and never throws. *)
Definition never_throws {A} (m : M A) : Prop :=
  forall st e, fst (m st) <> Throw e.

(** The values without properties: reading one throws. *)
Definition nullish (v : value) : bool :=
  match v with
  | VUndef | VNull => true
  | _ => false
  end.

(* ===================================================================== *)
(** ** The constructor, traversals and polygons, as functions *)
(* ===================================================================== *)

(** A world whose draw ratio is zero. *)
Definition flat_world : state :=
  snd (Box2D_world [VRef 0%nat] [HObj [("drawRatio", VNum (fin 0))]]).

(** The values that are not objects: [key in v] throws on them. *)
Definition is_primitive (v : value) : bool :=
  match v with
  | VRef _ | VFun _ => false
  | _ => true
  end.

(** A visitor applied to the bodies [bs] one after the other, the first
    under the index [i]; every call sees the heap the one before left, and an
    exception ends the round. *)
Fixpoint visit_all (func : visitor) (context : value) (i : nat)
    (bs : list value) (h : heap) : outcome (list value) * heap :=
  match bs with
  | [] => (Ok [], h)
  | b :: rest =>
      match func (index_key i) b context h with
      | (Ok r, h1) =>
          match visit_all func context (S i) rest h1 with
          | (Ok rs, h2) => (Ok (r :: rs), h2)
          | (Throw e, h2) => (Throw e, h2)
          | (Unsupported, h2) => (Unsupported, h2)
          end
      | (Throw e, h1) => (Throw e, h1)
      | (Unsupported, h1) => (Unsupported, h1)
      end
  end.

(** A visitor that returns the key it is given. *)
Definition key_visitor : visitor := fun key _ _ h => (Ok (VStr key), h).

(** The defaults literal of the constructor, whose gravity object is at [g]. *)
Definition world_defaults (g : loc) : list (string * value) :=
  [("ignoreStatic", VBool true); ("drawRatio", VNum (fin 1));
   ("gravity", VRef g)].

(** The default gravity literal [{x: 0, y: 9.8}]. *)
Definition default_gravity : list (string * value) :=
  [("x", VNum (fin 0)); ("y", VNum (fin (98 # 10)))].

(** The world the constructor leaves for the settings object at [l], once
    merged, with the gravity vector [(gx, gy)]. *)
Definition constructed (h : heap) (l : loc) (merged : list (string * value))
    (gx gy : value) : state :=
  mkState
    (<[l := HObj merged]> h
     ++ [HObj default_gravity; HObj (world_defaults (length h)); HVec2 gx gy])
    (VRef l) []
    (Some (mkB2DWorld (VRef (length h + 2)) (prop merged "ignoreStatic") []
             true [] 0)).







(** An options object whose radius and whose vertex coordinates hold strings
    that the pixel pattern does not match:
    [{radius: 'abc', vertices: [['abc', 2], [3, 'x5'], [5, '6px']]}],
    beside the settings [{drawRatio: 2}]. *)
Definition vertex_heap : heap :=
  [ HObj [("drawRatio", VNum (fin 2))];
    HObj [("radius", VStr "abc"); ("vertices", VRef 2%nat)];
    HArr [VRef 3%nat; VRef 4%nat; VRef 5%nat];
    HArr [VStr "abc"; VNum (fin 2)];
    HArr [VNum (fin 3); VStr "x5"];
    HArr [VNum (fin 5); VStr "6px"] ].

Definition vertex_world : state := snd (Box2D_world [VRef 0%nat] vertex_heap).

(* ===================================================================== *)
(** * Properties *)
(* ===================================================================== *)

(** ** Numbers *)

Lemma fin_eq (p q : Q) : (p == q)%Q -> fin p = fin q.
Proof. intros H. unfold fin. f_equal. by apply Qred_complete. Qed.

Lemma Qsign_pos (r : Q) : (0 < r)%Q -> Qsign r = Gt.
Proof.
  destruct r as [n d]. unfold Qlt, Qsign. simpl. intros H.
  apply Z.compare_gt_iff. lia.
Qed.

Lemma num_mul_one (q : Q) : num_mul (fin q) (fin 1) = fin q.
Proof.
  unfold num_mul, fin at 1 2. apply fin_eq.
  rewrite !Qred_correct. ring.
Qed.

Lemma num_div_pos (q r : Q) : (0 < r)%Q -> num_div (fin q) (Fin r) = fin (q / r).
Proof.
  intros Hr. unfold num_div, fin at 1. rewrite (Qsign_pos r Hr).
  apply fin_eq. by rewrite Qred_correct.
Qed.

Lemma num_mul_div_cancel (n r : Q) :
  (0 < r)%Q -> num_mul (fin (n / r)) (Fin r) = fin n.
Proof.
  intros Hr. unfold num_mul, fin at 1. apply fin_eq.
  rewrite Qred_correct. field. intros E. rewrite E in Hr. by apply Qlt_irrefl in Hr.
Qed.

Lemma num_neg_fin (q : Q) : num_neg (fin q) = fin (- q).
Proof. unfold num_neg, fin at 1. apply fin_eq. by rewrite Qred_correct. Qed.

(** ** Characters *)

Lemma digit_cases (d : Z) :
  0 <= d <= 9 ->
  d = 0 \/ d = 1 \/ d = 2 \/ d = 3 \/ d = 4 \/ d = 5 \/ d = 6 \/ d = 7 \/
  d = 8 \/ d = 9.
Proof. lia. Qed.

Ltac each_digit d H :=
  destruct (digit_cases d H) as [->|[->|[->|[->|[->|[->|[->|[->|[->| ->]]]]]]]]].

Lemma digit_val_char (d : Z) : 0 <= d <= 9 -> digit_val (digit_char d) = Some d.
Proof. intros H. each_digit d H; reflexivity. Qed.

Lemma digit_char_class (d : Z) :
  0 <= d <= 9 ->
  in_class (digit_char d) = true /\ is_ws (digit_char d) = false /\
  Ascii.eqb (digit_char d) "-" = false /\ Ascii.eqb (digit_char d) "+" = false /\
  Ascii.eqb (digit_char d) "I" = false /\ Ascii.eqb (digit_char d) "." = false.
Proof. intros H. each_digit d H; repeat split; reflexivity. Qed.

Lemma append_nil (t : string) : EmptyString +:+ t = t.
Proof. reflexivity. Qed.

Lemma append_cons (c : ascii) (s t : string) :
  String c s +:+ t = String c (s +:+ t).
Proof. reflexivity. Qed.

Lemma append_empty_r (s : string) : s +:+ EmptyString = s.
Proof. induction s as [|c s IH]; rewrite ?append_nil, ?append_cons; congruence. Qed.

Lemma append_assoc (a b c : string) : (a +:+ b) +:+ c = a +:+ (b +:+ c).
Proof. induction a as [|x a IH]; rewrite ?append_nil, ?append_cons; congruence. Qed.

(** ** Lexing digit runs *)

Lemma take_digits_stop (rest : string) :
  stops rest -> take_digits rest = ([], rest).
Proof.
  destruct rest as [|c r]; simpl; [done |]. intros (H & _). by rewrite H.
Qed.

Lemma take_digits_string (ds : list Z) (rest : string) :
  is_digits ds -> take_digits rest = ([], rest) ->
  take_digits (digits_string ds +:+ rest) = (ds, rest).
Proof.
  intros Hds Hrest. induction Hds as [|d ds Hd _ IH]; simpl; [done |].
  by rewrite (digit_val_char d Hd), IH.
Qed.

Lemma take_exponent_stop (rest : string) :
  stops rest -> take_exponent rest = (0, rest).
Proof.
  destruct rest as [|c r]; simpl; [done |]. intros (_ & _ & He & HE).
  unfold take_exponent. by rewrite He, HE.
Qed.

Lemma starts_with_Infinity (c : ascii) (r : string) :
  Ascii.eqb c "I" = false -> starts_with "Infinity" (String c r) = None.
Proof. intros H. simpl. by rewrite H. Qed.

(** ** The value of a literal *)

Lemma digits_value_snoc (ds : list Z) (d : Z) :
  digits_value (ds ++ [d]) = 10 * digits_value ds + d.
Proof. unfold digits_value. by rewrite fold_left_app. Qed.

Lemma decimal_value_spec (ints fracs : list Z) :
  (decimal_value ints fracs 0 == inject_Z (digits_value ints) + frac_value fracs)%Q.
Proof.
  unfold decimal_value. revert ints.
  induction fracs as [|d fs IH]; intros ints.
  - rewrite app_nil_r. simpl. ring.
  - replace (ints ++ d :: fs) with ((ints ++ [d]) ++ fs)
      by (by rewrite <- app_assoc).
    replace (0 - Z.of_nat (length (d :: fs)))
      with ((0 - Z.of_nat (length fs)) + (-1)) by (simpl length; lia).
    rewrite Qpower_plus by discriminate.
    rewrite Qmult_assoc, IH, digits_value_snoc.
    simpl frac_value. rewrite inject_Z_plus, inject_Z_mult.
    change (inject_Z 10 ^ (-1))%Q with (/ inject_Z 10)%Q.
    field; discriminate.
Qed.

(** ** Parsing a literal *)

Lemma unsigned_literal_head (ints : list Z) (dot : bool) (fracs : list Z)
    (rest : string) :
  well_formed ints dot fracs ->
  exists c r,
    unsigned_literal ints dot fracs +:+ rest = String c r /\
    in_class c = true /\ is_ws c = false /\
    Ascii.eqb c "-" = false /\ Ascii.eqb c "+" = false /\
    Ascii.eqb c "I" = false.
Proof.
  intros (Hi & Hf & Hd). unfold unsigned_literal.
  destruct Hi as [|d ints Hd0 Hi].
  - destruct dot.
    + exists "."%char. eexists. split; [reflexivity | by repeat split].
    + by destruct Hd as [_ ?].
  - exists (digit_char d). eexists. split; [reflexivity |].
    destruct (digit_char_class d Hd0) as (? & ? & ? & ? & ? & ?). by repeat split.
Qed.

Lemma parse_unsigned_literal (ints : list Z) (dot : bool) (fracs : list Z)
    (rest : string) :
  well_formed ints dot fracs -> stops rest ->
  parse_unsigned (unsigned_literal ints dot fracs +:+ rest)
  = Some (fin (decimal_value ints fracs 0), rest).
Proof.
  intros Hwf Hrest.
  destruct (unsigned_literal_head ints dot fracs rest Hwf)
    as (c & r & E & _ & _ & _ & _ & HI).
  unfold parse_unsigned. rewrite E, (starts_with_Infinity c r HI), <- E.
  clear E HI c r. destruct Hwf as (Hi & Hf & Hd).
  unfold unsigned_literal. rewrite !append_assoc. destruct dot.
  - rewrite (take_digits_string ints _ Hi) by reflexivity.
    rewrite append_cons, append_nil.
    rewrite (take_digits_string fracs rest Hf (take_digits_stop rest Hrest)).
    rewrite (take_exponent_stop rest Hrest).
    destruct ints; simpl; destruct fracs; done.
  - destruct Hd as [-> Hne]. simpl digits_string. rewrite !append_nil.
    rewrite (take_digits_string ints rest Hi (take_digits_stop rest Hrest)).
    rewrite (take_exponent_stop rest Hrest).
    destruct ints as [|d ints]; [done |].
    destruct rest as [|c r]; [done |].
    destruct Hrest as (_ & -> & _). done.
Qed.

Lemma parse_decimal_literal (neg : bool) (ints : list Z) (dot : bool)
    (fracs : list Z) (rest : string) :
  well_formed ints dot fracs -> stops rest ->
  parse_decimal (literal neg ints dot fracs +:+ rest)
  = Some (fin (literal_value neg ints fracs), rest).
Proof.
  intros Hwf Hrest. unfold literal, literal_value.
  pose proof (parse_unsigned_literal ints dot fracs rest Hwf Hrest) as Hu.
  rewrite (fin_eq _ _ (decimal_value_spec ints fracs)) in Hu.
  destruct neg.
  - rewrite append_assoc, append_cons, append_nil. simpl. rewrite Hu.
    by rewrite num_neg_fin.
  - rewrite append_nil.
    destruct (unsigned_literal_head ints dot fracs rest Hwf)
      as (c & r & E & _ & _ & Hm & Hp & _).
    rewrite E in Hu |- *. simpl. by rewrite Hm, Hp.
Qed.

Lemma skip_ws_all (ws t : string) :
  all_ws ws = true -> skip_ws (ws +:+ t) = skip_ws t.
Proof.
  induction ws as [|c ws IH]; [done |]. simpl. intros H.
  apply andb_true_iff in H as [Hc Hws]. by rewrite Hc, IH.
Qed.

Lemma skip_ws_literal (neg : bool) (ints : list Z) (dot : bool)
    (fracs : list Z) (rest : string) :
  well_formed ints dot fracs ->
  skip_ws (literal neg ints dot fracs +:+ rest)
  = literal neg ints dot fracs +:+ rest.
Proof.
  intros Hwf. unfold literal. destruct neg.
  - reflexivity.
  - rewrite append_nil.
    destruct (unsigned_literal_head ints dot fracs rest Hwf)
      as (c & r & E & _ & Hws & _).
    rewrite E. simpl. by rewrite Hws.
Qed.

(** [parseFloat] reads a literal as the number it denotes. *)
Lemma parseFloat_literal (neg : bool) (ints : list Z) (dot : bool)
    (fracs : list Z) (rest : string) :
  well_formed ints dot fracs -> stops rest ->
  parseFloat (literal neg ints dot fracs +:+ rest)
  = fin (literal_value neg ints fracs).
Proof.
  intros Hwf Hrest. unfold parseFloat.
  by rewrite (skip_ws_literal _ _ _ _ _ Hwf),
    (parse_decimal_literal _ _ _ _ _ Hwf Hrest).
Qed.

(** ** Matching the pixel pattern *)

Lemma all_class_app (a b : string) :
  all_class a = true -> all_class b = true -> all_class (a +:+ b) = true.
Proof.
  intros Ha Hb. induction a as [|c a IH]; [done |].
  rewrite append_cons. simpl in *.
  apply andb_true_iff in Ha as [-> Ha]. by apply IH.
Qed.

Lemma all_class_digits (ds : list Z) :
  is_digits ds -> all_class (digits_string ds) = true.
Proof.
  induction 1 as [|d ds Hd _ IH]; [done |]. simpl.
  destruct (digit_char_class d Hd) as (-> & _). done.
Qed.

Lemma all_class_literal (neg : bool) (ints : list Z) (dot : bool)
    (fracs : list Z) :
  well_formed ints dot fracs -> all_class (literal neg ints dot fracs) = true.
Proof.
  intros (Hi & Hf & _). unfold literal, unsigned_literal.
  repeat apply all_class_app; auto using all_class_digits.
  - by destruct neg.
  - by destruct dot.
Qed.

Lemma take_class_app (a rest : string) :
  all_class a = true -> take_class rest = (EmptyString, rest) ->
  take_class (a +:+ rest) = (a, rest).
Proof.
  intros Ha Hrest. induction a as [|c a IH]; [done |].
  simpl in Ha. apply andb_true_iff in Ha as [Hc Ha].
  rewrite append_cons. simpl. by rewrite Hc, (IH Ha).
Qed.

Lemma ws_not_class (c : ascii) : is_ws c = true -> in_class c = false.
Proof. destruct c as [[] [] [] [] [] [] [] []]; done. Qed.

Lemma is_px_inv (px : string) :
  is_px px = true ->
  exists p x, px = String p (String x EmptyString) /\
    (p = "p" \/ p = "P")%char /\ (x = "x" \/ x = "X")%char.
Proof.
  destruct px as [|p [|x [|? ?]]]; try done. simpl. intros H.
  apply andb_true_iff in H as [Hp Hx].
  apply orb_true_iff in Hp, Hx. rewrite !Ascii.eqb_eq in Hp, Hx. eauto.
Qed.

Lemma take_class_ws_px (ws px : string) :
  all_ws ws = true -> is_px px = true ->
  take_class (ws +:+ px) = (EmptyString, ws +:+ px).
Proof.
  intros Hws Hpx. destruct ws as [|c ws].
  - destruct (is_px_inv px Hpx) as (p & x & -> & [-> | ->] & _); done.
  - simpl in Hws. apply andb_true_iff in Hws as [Hc _].
    rewrite append_cons. simpl. by rewrite (ws_not_class c Hc).
Qed.

Lemma skip_ws_px (ws px : string) :
  all_ws ws = true -> is_px px = true -> skip_ws (ws +:+ px) = px.
Proof.
  intros Hws Hpx. rewrite (skip_ws_all ws px Hws).
  destruct (is_px_inv px Hpx) as (p & x & -> & [-> | ->] & _); done.
Qed.

Lemma search_here (s g rest : string) :
  match_here s = Some (g, rest) -> search true s = Some (EmptyString, g, rest).
Proof.
  intros H. destruct s as [|c s]; [by vm_compute in H |].
  cbn [search]. by rewrite H.
Qed.

(** The pattern matches a pixel string from its first character, captures
    the literal and leaves nothing over. *)
Lemma search_pixel_string (ws1 : string) (neg : bool) (ints : list Z)
    (dot : bool) (fracs : list Z) (ws2 px : string) :
  all_ws ws1 = true -> well_formed ints dot fracs ->
  all_ws ws2 = true -> is_px px = true ->
  search true (ws1 +:+ literal neg ints dot fracs +:+ ws2 +:+ px)
  = Some (EmptyString, literal neg ints dot fracs, EmptyString).
Proof.
  intros H1 Hwf H2 Hpx. apply search_here. unfold match_here.
  rewrite (skip_ws_all _ _ H1), (skip_ws_literal _ _ _ _ _ Hwf).
  rewrite (take_class_app _ _ (all_class_literal neg _ _ _ Hwf)
             (take_class_ws_px _ _ H2 Hpx)).
  rewrite (skip_ws_px _ _ H2 Hpx).
  assert (literal neg ints dot fracs <> EmptyString) as Hne.
  { unfold literal. destruct neg; [done |]. rewrite append_nil.
    destruct (unsigned_literal_head ints dot fracs EmptyString Hwf)
      as (c & r & E & _). rewrite append_empty_r in E. by rewrite E. }
  destruct (literal neg ints dot fracs); [done |].
  destruct (is_px_inv px Hpx) as (p & x & -> & [-> | ->] & [-> | ->]); done.
Qed.

(** ** The conversions *)

(** Where both readings of a spliced number apply they agree: printing a
    number whose decimal expansion ends and reading it gives the number. *)
Example printed_numbers_read_back :
  Forall (fun x => parseFloat (number_to_string x) = x)
    [fin 0; fin 5; fin (21 # 4); fin (- (5 # 2)); fin (1 # 10000000);
     fin (1000000000000000000000 # 1); fin (123456789 # 1000);
     fin (- (3 # 1000)); NaN; PInf; NInf].
Proof. repeat constructor. Qed.

Lemma drawRatio_eq (st : state) (r : Q) :
  has_drawRatio st r -> drawRatio st = (Ok (VNum (Fin r)), st).
Proof. intros H. unfold drawRatio. by rewrite H. Qed.

Lemma parsePixels_matched (st : state) (r : Q) (s before g rest : string) :
  has_drawRatio st r -> search true s = Some (before, g, rest) ->
  parsePixels (VStr s) st
  = (Ok (VNum (parseFloat_replaced
                 (Spliced before
                    (num_div (num_mul (parseFloat g) (fin 1)) (Fin r)) rest))),
     st).
Proof.
  intros H Hs. unfold parsePixels, bind.
  by rewrite (drawRatio_eq st r H), Hs.
Qed.

Lemma toPixels_eq (st : state) (r : Q) (v : value) (a : number) :
  has_drawRatio st r -> to_number (st_heap st) v = Ok a ->
  toPixels v st = (Ok (VNum (num_mul a (Fin r))), st).
Proof.
  intros H Ha. unfold toPixels, bind, read.
  by rewrite (drawRatio_eq st r H), Ha.
Qed.

Lemma toMeters_string (st : state) (r : Q) (s : string) :
  has_drawRatio st r ->
  toMeters (VStr s) st
  = (Ok (VNum (num_div (string_to_number (strip_px s)) (Fin r))), st).
Proof.
  intros H. unfold toMeters, bind, read. by rewrite (drawRatio_eq st r H).
Qed.

(** ** Strings handed to [toPixels] and [toMeters] *)

Lemma class_not_p (c : ascii) :
  in_class c = true ->
  (Ascii.eqb c "p" || Ascii.eqb c "P")%char = false /\
  (Ascii.eqb c "x" || Ascii.eqb c "X")%char = false /\
  (Ascii.eqb c "o" || Ascii.eqb c "O")%char = false /\
  (Ascii.eqb c "b" || Ascii.eqb c "B")%char = false.
Proof. destruct c as [[] [] [] [] [] [] [] []]; done. Qed.

Lemma strip_px_cons (c c2 : ascii) (r : string) :
  (Ascii.eqb c "p" || Ascii.eqb c "P")%char = false ->
  strip_px (String c (String c2 r)) = String c (strip_px (String c2 r)).
Proof. intros H. simpl. by rewrite H. Qed.

Lemma strip_px_literal (a px : string) :
  all_class a = true -> is_px px = true -> strip_px (a +:+ px) = a.
Proof.
  intros Ha Hpx. induction a as [|c a IH].
  - destruct (is_px_inv px Hpx) as (p & x & -> & [-> | ->] & [-> | ->]); done.
  - simpl in Ha. apply andb_true_iff in Ha as [Hc Ha].
    specialize (IH Ha). destruct (class_not_p c Hc) as (Hp & _).
    rewrite append_cons.
    destruct (a +:+ px) as [|c2 r] eqn:E.
    + destruct a; [|done]. rewrite append_nil in E. subst px. done.
    + by rewrite (strip_px_cons c c2 r Hp), IH.
Qed.

Lemma strip_px_step (c c2 : ascii) (r : string) :
  strip_px (String c (String c2 r))
  = if ((Ascii.eqb c "p" || Ascii.eqb c "P")
        && (Ascii.eqb c2 "x" || Ascii.eqb c2 "X"))%char
    then r else String c (strip_px (String c2 r)).
Proof. reflexivity. Qed.

Lemma strip_px_absent (s : string) : has_px s = false -> strip_px s = s.
Proof.
  induction s as [|c s IH]; [done |].
  destruct s as [|c2 r]; [done |].
  intros H. cbn [has_px] in H. apply orb_false_iff in H as [Hc Hr].
  rewrite strip_px_step, Hc. by rewrite (IH Hr).
Qed.

Lemma strip_px_first (a px b : string) :
  has_px a = false -> is_px px = true ->
  strip_px (a +:+ px +:+ b) = a +:+ b.
Proof.
  intros Ha Hpx.
  destruct (is_px_inv px Hpx) as (p & x & -> & Hp & Hx).
  assert (Hpx' : ((Ascii.eqb p "p" || Ascii.eqb p "P")
                  && (Ascii.eqb x "x" || Ascii.eqb x "X"))%char = true)
    by (destruct Hp as [-> | ->], Hx as [-> | ->]; done).
  change (String p (String x EmptyString) +:+ b) with (String p (String x b)).
  induction a as [|c a IH].
  - rewrite !append_nil. by rewrite strip_px_step, Hpx'.
  - rewrite !append_cons.
    destruct a as [|c2 r].
    + rewrite !append_nil, strip_px_step.
      destruct ((Ascii.eqb c "p" || Ascii.eqb c "P")
                && (Ascii.eqb p "x" || Ascii.eqb p "X"))%char eqn:E.
      * destruct Hp as [-> | ->]; apply andb_true_iff in E as [_ E]; done.
      * by rewrite strip_px_step, Hpx'.
    + cbn [has_px] in Ha. apply orb_false_iff in Ha as [Hc Hr].
      specialize (IH Hr). rewrite !append_cons in IH |- *.
      rewrite strip_px_step, Hc. by rewrite IH.
Qed.

Lemma parse_nondecimal_class (c : ascii) (s : string) :
  (Ascii.eqb c "x" || Ascii.eqb c "X")%char = false ->
  (Ascii.eqb c "o" || Ascii.eqb c "O")%char = false ->
  (Ascii.eqb c "b" || Ascii.eqb c "B")%char = false ->
  forall z, parse_nondecimal (String z (String c s)) = None.
Proof.
  intros Hx Ho Hb z. unfold parse_nondecimal. rewrite Hx, Ho, Hb.
  by destruct (Ascii.eqb z "0").
Qed.

Lemma parse_nondecimal_literal (a px : string) :
  all_class a = true -> is_px px = true ->
  parse_nondecimal a = None /\ parse_nondecimal (a +:+ px) = None.
Proof.
  intros Ha Hpx.
  destruct (is_px_inv px Hpx) as (p & x & -> & Hp & _).
  destruct a as [|z [|c s]]; simpl in Ha.
  - split; [done |]. by destruct Hp as [-> | ->].
  - split; [done |]. rewrite append_cons, append_nil.
    apply parse_nondecimal_class; by destruct Hp as [-> | ->].
  - apply andb_true_iff in Ha as [_ Ha]. apply andb_true_iff in Ha as [Hc _].
    destruct (class_not_p c Hc) as (_ & Hx & Ho & Hb).
    split; [|rewrite !append_cons]; by apply parse_nondecimal_class.
Qed.

Lemma stops_px (px : string) : is_px px = true -> stops px.
Proof.
  intros H. destruct (is_px_inv px H) as (p & x & -> & [-> | ->] & _); done.
Qed.

(** ToNumber reads a bare literal as its value, and rejects it once [px]
    follows. *)
Lemma string_to_number_literal (neg : bool) (ints : list Z) (dot : bool)
    (fracs : list Z) (px : string) :
  well_formed ints dot fracs -> is_px px = true ->
  string_to_number (literal neg ints dot fracs)
  = fin (literal_value neg ints fracs) /\
  string_to_number (literal neg ints dot fracs +:+ px) = NaN.
Proof.
  intros Hwf Hpx.
  pose proof (all_class_literal neg _ _ _ Hwf) as Hc.
  destruct (parse_nondecimal_literal _ px Hc Hpx) as [Hn1 Hn2].
  pose proof (skip_ws_literal neg _ _ _ EmptyString Hwf) as Hs1.
  pose proof (parse_decimal_literal neg _ _ _ EmptyString Hwf I) as Hd1.
  rewrite append_empty_r in Hs1, Hd1.
  pose proof (skip_ws_literal neg _ _ _ px Hwf) as Hs2.
  pose proof (parse_decimal_literal neg _ _ _ px Hwf (stops_px px Hpx)) as Hd2.
  unfold string_to_number. rewrite Hs1, Hs2, Hn1, Hn2, Hd1, Hd2.
  assert (skip_ws px = px) as ->.
  { rewrite <- (append_nil px) at 1. by apply skip_ws_px. }
  split.
  - by destruct (literal neg ints dot fracs).
  - destruct (is_px_inv px Hpx) as (p & x & -> & _).
    by destruct (literal neg ints dot fracs +:+ String p (String x EmptyString)).
Qed.

(** C1 (as amended). For every string made of optional white space, a
    decimal literal n with an optional minus sign, optional white space and
    a case-insensitive px suffix, and every draw ratio r > 0, parsePixels
    returns n / r and toPixels applied to n / r returns n, in exact
    arithmetic. *)
Theorem parsePixels_toPixels_roundtrip (st : state) (r : Q) (ws1 : string)
    (neg : bool) (ints : list Z) (dot : bool) (fracs : list Z)
    (ws2 px : string) :
  has_drawRatio st r -> (0 < r)%Q ->
  all_ws ws1 = true -> well_formed ints dot fracs ->
  all_ws ws2 = true -> is_px px = true ->
  parsePixels (VStr (ws1 +:+ literal neg ints dot fracs +:+ ws2 +:+ px)) st
  = (Ok (VNum (fin (literal_value neg ints fracs / r))), st) /\
  toPixels (VNum (fin (literal_value neg ints fracs / r))) st
  = (Ok (VNum (fin (literal_value neg ints fracs))), st).
Proof.
  intros Hr Hpos H1 Hwf H2 Hpx. split.
  - rewrite (parsePixels_matched st r _ _ _ _ Hr
               (search_pixel_string ws1 neg ints dot fracs ws2 px H1 Hwf H2 Hpx)).
    pose proof (parseFloat_literal neg ints dot fracs EmptyString Hwf I) as Hlit.
    rewrite append_empty_r in Hlit.
    by rewrite Hlit, num_mul_one, (num_div_pos _ r Hpos).
  - rewrite (toPixels_eq st r (VNum _) _ Hr eq_refl).
    by rewrite (num_mul_div_cancel _ r Hpos).
Qed.

Lemma parsePixels_toPixels_roundtrip_witness :
  parsePixels (VStr (" " +:+ literal false [1; 0] true [5] +:+ " " +:+ "PX"))
    example_world
  = (Ok (VNum (fin (literal_value false [1; 0] [5] / 2))), example_world) /\
  toPixels (VNum (fin (literal_value false [1; 0] [5] / 2))) example_world
  = (Ok (VNum (fin (literal_value false [1; 0] [5]))), example_world).
Proof.
  apply (parsePixels_toPixels_roundtrip example_world 2 " " false [1; 0] true
           [5] " " "PX"); try reflexivity.
  unfold well_formed, is_digits. repeat split; [| |discriminate];
    repeat constructor; lia.
Defined.

(** C1, as stated, fails for a literal with a plus sign: the pattern does
    not admit [+], the string goes to [parseFloat] unscaled, and with draw
    ratio 2 the result for ["+10px"] is 10, not 10 / 2. *)
Lemma parsePixels_plus_sign_unscaled :
  has_drawRatio example_world 2 /\
  fst (parsePixels (VStr "+10px") example_world) = Ok (VNum (fin 10)) /\
  fst (parsePixels (VStr "+10px") example_world) <> Ok (VNum (fin (10 / 2))).
Proof. split; [reflexivity |]. split; [reflexivity |]. vm_compute. discriminate. Qed.

(** C9 (as amended). toPixels multiplies a bare real by the draw ratio. A
    string is converted with ToNumber as it stands, nothing is stripped: a
    numeric string carrying a px suffix gives NaN. It is toMeters that
    removes the first px (in either case) from a string, and it divides by
    the draw ratio. *)
Theorem toPixels_multiplies_toMeters_strips (st : state) (r : Q) :
  has_drawRatio st r -> (0 < r)%Q ->
  (forall a, toPixels (VNum a) st = (Ok (VNum (num_mul a (Fin r))), st)) /\
  (forall s, toPixels (VStr s) st
             = (Ok (VNum (num_mul (string_to_number s) (Fin r))), st)) /\
  (forall neg ints dot fracs px,
      well_formed ints dot fracs -> is_px px = true ->
      toPixels (VStr (literal neg ints dot fracs +:+ px)) st
      = (Ok (VNum NaN), st) /\
      toMeters (VStr (literal neg ints dot fracs +:+ px)) st
      = (Ok (VNum (fin (literal_value neg ints fracs / r))), st)) /\
  (forall a px b,
      has_px a = false -> is_px px = true ->
      toMeters (VStr (a +:+ px +:+ b)) st
      = (Ok (VNum (num_div (string_to_number (a +:+ b)) (Fin r))), st)) /\
  (forall a, toMeters (VNum a) st = (Ok (VNum (num_div a (Fin r))), st)).
Proof.
  intros Hr Hpos. split; [|split; [|split; [|split]]].
  - intros a. by apply toPixels_eq.
  - intros s. by apply toPixels_eq.
  - intros neg ints dot fracs px Hwf Hpx.
    destruct (string_to_number_literal neg ints dot fracs px Hwf Hpx)
      as [Hlit Hpxs].
    split.
    + rewrite (toPixels_eq st r (VStr _) _ Hr eq_refl). by rewrite Hpxs.
    + rewrite (toMeters_string st r _ Hr).
      rewrite (strip_px_literal _ px (all_class_literal neg _ _ _ Hwf) Hpx).
      by rewrite Hlit, (num_div_pos _ r Hpos).
  - intros a px b Ha Hpx.
    by rewrite (toMeters_string st r _ Hr), (strip_px_first a px b Ha Hpx).
  - intros a. unfold toMeters, bind, read. by rewrite (drawRatio_eq st r Hr).
Qed.

Lemma toPixels_multiplies_toMeters_strips_witness :
  toPixels (VNum (fin 3)) example_world = (Ok (VNum (fin 6)), example_world) /\
  toPixels (VStr (literal false [1; 0] false [] +:+ "px")) example_world
  = (Ok (VNum NaN), example_world) /\
  toMeters (VStr (literal false [1; 0] false [] +:+ "px")) example_world
  = (Ok (VNum (fin (literal_value false [1; 0] [] / 2))), example_world).
Proof.
  destruct (toPixels_multiplies_toMeters_strips example_world 2)
    as (Hnum & _ & Hstr & _); [reflexivity | reflexivity |].
  split; [apply (Hnum (fin 3)) |].
  apply (Hstr false [1; 0] false [] "px"); [|reflexivity].
  unfold well_formed, is_digits. repeat split; [| |discriminate];
    repeat constructor; lia.
Defined.

(** C9, as stated, fails: toPixels does not strip px, and with draw ratio 2
    the string ["10px"] gives NaN, not 10 * 2. *)
Lemma toPixels_px_string_is_NaN :
  has_drawRatio example_world 2 /\
  fst (toPixels (VStr "10px") example_world) = Ok (VNum NaN) /\
  fst (toPixels (VStr "10px") example_world) <> Ok (VNum (fin (10 * 2))).
Proof. split; [reflexivity |]. split; [reflexivity |]. vm_compute. discriminate. Qed.

(** ** Computations *)

Lemma bind_Ok {A B} (m : M A) (k : A -> M B) (st st' : state) (a : A) :
  m st = (Ok a, st') -> bind m k st = k a st'.
Proof. intros H. unfold bind. by rewrite H. Qed.

(** ** The registry *)

Create HintDb keeps.

Lemma keeps_ret {A} (a : A) : keeps_bodies (ret a).
Proof. by intros st. Qed.

Lemma keeps_throw {A} (e : error) : keeps_bodies (@throw A e).
Proof. by intros st. Qed.

Lemma keeps_unsupported {A} : keeps_bodies (@unsupported A).
Proof. by intros st. Qed.

Lemma keeps_bind {A B} (m : M A) (k : A -> M B) :
  keeps_bodies m -> (forall a, keeps_bodies (k a)) -> keeps_bodies (bind m k).
Proof.
  intros Hm Hk st. unfold bind. specialize (Hm st).
  destruct (m st) as [[a| |] st']; simpl in *; [|done..].
  by rewrite Hk.
Qed.

Lemma keeps_read {A} (f : heap -> outcome A) : keeps_bodies (read f).
Proof. by intros st. Qed.

Lemma keeps_alloc (o : hobj) : keeps_bodies (alloc o).
Proof. by intros st. Qed.

Lemma keeps_set (v : value) (key : string) (x : value) :
  keeps_bodies (set v key x).
Proof.
  intros st. unfold set. destruct v; try done.
  destruct (st_heap st !! l) as [[]|]; done.
Qed.

Lemma keeps_update_body (b : value) (f : b2Body -> b2Body) :
  keeps_bodies (update_body b f).
Proof.
  intros st. unfold update_body. destruct b; try done.
  destruct (st_heap st !! l) as [[]|]; done.
Qed.

Lemma keeps_the_world : keeps_bodies the_world.
Proof. intros st. unfold the_world. by destruct (world st). Qed.

Lemma keeps_put_world (w : B2DWorld) : keeps_bodies (put_world w).
Proof. by intros st. Qed.

Lemma keeps_drawRatio : keeps_bodies drawRatio.
Proof. by intros st. Qed.

Lemma keeps_call_visitor (func : visitor) (key : string) (v c : value) :
  keeps_bodies (call_visitor func key v c).
Proof.
  intros st. unfold call_visitor. by destruct (func key v c (st_heap st)).
Qed.

Lemma keeps_if {A} (b : bool) (m1 m2 : M A) :
  keeps_bodies m1 -> keeps_bodies m2 -> keeps_bodies (if b then m1 else m2).
Proof. by destruct b. Qed.

#[export] Hint Resolve keeps_ret keeps_throw keeps_unsupported keeps_read
  keeps_alloc keeps_set keeps_update_body keeps_the_world keeps_put_world
  keeps_drawRatio keeps_call_visitor keeps_if : keeps.

Ltac keeps_basic :=
  repeat match goal with
    | |- keeps_bodies (bind _ _) => apply keeps_bind; [| intros ?]
    | |- keeps_bodies (match ?x with _ => _ end) => destruct x
    | |- keeps_bodies _ => solve [auto with keeps]
    end.

Lemma keeps_map_loop (own : string -> M (option value))
    (func : string -> value -> value -> M value) (context : value)
    (keys : list string) :
  (forall key, keeps_bodies (own key)) ->
  (forall key v, keeps_bodies (func key v context)) ->
  keeps_bodies (map_loop own func context keys).
Proof.
  intros Hown Hfunc. induction keys as [|key keys IH]; simpl; keeps_basic.
Qed.

Lemma keeps_map (obj : value) (func : string -> value -> value -> M value)
    (context : value) :
  (forall key v, keeps_bodies (func key v context)) ->
  keeps_bodies (map obj func context).
Proof.
  intros H. unfold map. keeps_basic. apply keeps_map_loop; [|done].
  intros. keeps_basic.
Qed.

Lemma keeps_mapM {A B} (f : A -> M B) (l : list A) :
  (forall a, keeps_bodies (f a)) -> keeps_bodies (mapM f l).
Proof. intros H. induction l; simpl; keeps_basic. Qed.

Ltac keeps :=
  repeat match goal with
    | |- keeps_bodies (bind _ _) => apply keeps_bind; [| intros ?]
    | |- keeps_bodies (map _ _ _) => apply keeps_map; intros ? ?
    | |- keeps_bodies (mapM _ _) => apply keeps_mapM; intros ?
    | |- keeps_bodies (match ?x with _ => _ end) => destruct x
    | |- keeps_bodies _ => solve [auto with keeps]
    end.

Lemma keeps_merge (defaults settings : value) :
  keeps_bodies (merge defaults settings).
Proof. unfold merge, merge_callback. keeps. Qed.

Lemma keeps_parsePixels (str : value) : keeps_bodies (parsePixels str).
Proof. unfold parsePixels. keeps. Qed.

Lemma keeps_getp (v : value) (key : string) : keeps_bodies (getp v key).
Proof. unfold getp. keeps. Qed.

#[export] Hint Resolve keeps_merge keeps_parsePixels keeps_getp : keeps.

Lemma keeps_make_shape (settings : value) : keeps_bodies (make_shape settings).
Proof. unfold make_shape, new_Vec2. keeps. Qed.

Lemma keeps_CreateBody (bodyDef : BodyDef) : keeps_bodies (CreateBody bodyDef).
Proof. unfold CreateBody. keeps. Qed.

#[export] Hint Resolve keeps_make_shape keeps_CreateBody : keeps.

Lemma appends_throw (e : error) : appends_body (throw e).
Proof. by intros st. Qed.

Lemma appends_bind {A} (m : M A) (k : A -> M value) :
  keeps_bodies m -> (forall a, appends_body (k a)) -> appends_body (bind m k).
Proof.
  intros Hm Hk st. unfold bind. specialize (Hm st).
  destruct (m st) as [[a| |] st']; simpl in *; [|done..].
  specialize (Hk a st'). by rewrite Hm in Hk.
Qed.

Lemma appends_push (body : value) : appends_body (push_body body ;; ret body).
Proof. by intros st. Qed.

(** [addBody] changes the registry only by its last step. *)
Lemma addBody_appends (args : list value) : appends_body (addBody args).
Proof.
  unfold addBody. destruct args as [|settings args]; [apply appends_throw |].
  unfold CreateFixture, set_sensorCallback, SetAngle, set_id.
  repeat (apply appends_bind; [solve [keeps] | intros ?]).
  apply appends_push.
Qed.

(** ** The engine's world *)

Create HintDb world.

Lemma world_ret {A} (a : A) : keeps_world (ret a).
Proof. by intros st. Qed.

Lemma world_throw {A} (e : error) : keeps_world (@throw A e).
Proof. by intros st. Qed.

Lemma world_unsupported {A} : keeps_world (@unsupported A).
Proof. by intros st. Qed.

Lemma world_bind {A B} (m : M A) (k : A -> M B) :
  keeps_world m -> (forall a, keeps_world (k a)) -> keeps_world (bind m k).
Proof.
  intros Hm Hk st. unfold bind. specialize (Hm st).
  destruct (m st) as [[a| |] st']; simpl in *; [|done..].
  by rewrite Hk.
Qed.

Lemma world_read {A} (f : heap -> outcome A) : keeps_world (read f).
Proof. by intros st. Qed.

Lemma world_alloc (o : hobj) : keeps_world (alloc o).
Proof. by intros st. Qed.

Lemma world_set (v : value) (key : string) (x : value) :
  keeps_world (set v key x).
Proof.
  intros st. unfold set. destruct v; try done.
  destruct (st_heap st !! l) as [[]|]; done.
Qed.

Lemma world_drawRatio : keeps_world drawRatio.
Proof. by intros st. Qed.

Lemma world_if {A} (b : bool) (m1 m2 : M A) :
  keeps_world m1 -> keeps_world m2 -> keeps_world (if b then m1 else m2).
Proof. by destruct b. Qed.

#[export] Hint Resolve world_ret world_throw world_unsupported world_read
  world_alloc world_set world_drawRatio world_if : world.

Ltac world_basic :=
  repeat match goal with
    | |- keeps_world (bind _ _) => apply world_bind; [| intros ?]
    | |- keeps_world (match ?x with _ => _ end) => destruct x
    | |- keeps_world _ => solve [auto with world]
    end.

Lemma world_map_loop (own : string -> M (option value))
    (func : string -> value -> value -> M value) (context : value)
    (keys : list string) :
  (forall key, keeps_world (own key)) ->
  (forall key v, keeps_world (func key v context)) ->
  keeps_world (map_loop own func context keys).
Proof.
  intros Hown Hfunc. induction keys as [|key keys IH]; simpl; world_basic.
Qed.

Lemma world_map (obj : value) (func : string -> value -> value -> M value)
    (context : value) :
  (forall key v, keeps_world (func key v context)) ->
  keeps_world (map obj func context).
Proof.
  intros H. unfold map. world_basic. apply world_map_loop; [|done].
  intros. world_basic.
Qed.

Lemma world_mapM {A B} (f : A -> M B) (l : list A) :
  (forall a, keeps_world (f a)) -> keeps_world (mapM f l).
Proof. intros H. induction l; simpl; world_basic. Qed.

Ltac world_step :=
  repeat match goal with
    | |- keeps_world (bind _ _) => apply world_bind; [| intros ?]
    | |- keeps_world (map _ _ _) => apply world_map; intros ? ?
    | |- keeps_world (mapM _ _) => apply world_mapM; intros ?
    | |- keeps_world (match ?x with _ => _ end) => destruct x
    | |- keeps_world _ => solve [auto with world]
    end.

Lemma world_merge (defaults settings : value) :
  keeps_world (merge defaults settings).
Proof. unfold merge, merge_callback. world_step. Qed.

Lemma world_parsePixels (str : value) : keeps_world (parsePixels str).
Proof. unfold parsePixels. world_step. Qed.

Lemma world_getp (v : value) (key : string) : keeps_world (getp v key).
Proof. unfold getp. world_step. Qed.

#[export] Hint Resolve world_merge world_parsePixels world_getp : world.

Lemma world_make_shape (settings : value) : keeps_world (make_shape settings).
Proof. unfold make_shape, new_Vec2. world_step. Qed.

#[export] Hint Resolve world_make_shape : world.

Lemma early_throw {A} (e : error) : throws_early (@throw A e).
Proof. by intros st. Qed.

Lemma early_bind {A B} (m : M A) (k : A -> M B) :
  keeps_world m -> (forall a, throws_early (k a)) -> throws_early (bind m k).
Proof.
  intros Hm Hk st. unfold bind. specialize (Hm st).
  destruct (m st) as [[a| |] st']; simpl in *; [|done..].
  specialize (Hk a st'). by rewrite Hm in Hk.
Qed.

Lemma early_never {A} (m : M A) : never_throws m -> throws_early m.
Proof.
  intros H st. specialize (H st). destruct (m st) as [[a|e|] st']; [done| |done].
  by destruct (H e).
Qed.

Lemma never_ret {A} (a : A) : never_throws (ret a).
Proof. by intros st e. Qed.

Lemma never_bind {A B} (m : M A) (k : A -> M B) :
  never_throws m -> (forall a, never_throws (k a)) -> never_throws (bind m k).
Proof.
  intros Hm Hk st e. unfold bind. specialize (Hm st).
  destruct (m st) as [[a|e'|] st']; simpl in *; [apply Hk | | done].
  by destruct (Hm e').
Qed.

Lemma never_update_body (b : value) (f : b2Body -> b2Body) :
  never_throws (update_body b f).
Proof.
  intros st e. unfold update_body. destruct b; try done.
  destruct (st_heap st !! l) as [[]|]; done.
Qed.

Lemma never_push_body (body : value) : never_throws (push_body body).
Proof. by intros st e. Qed.

Lemma never_getp (v : value) (key : string) :
  nullish v = false -> never_throws (getp v key).
Proof.
  intros Hv st e. unfold getp, read, get. simpl.
  destruct v; try done.
  destruct (st_heap st !! l) as [[props| | |]|]; try done.
  destruct (assoc key props); [done |]. by destruct (inherited key).
Qed.

(** Once the engine has made the body, nothing in [addBody] throws. *)
Lemma early_CreateBody {B} (bodyDef : BodyDef) (k : value -> M B) :
  (forall body, never_throws (k body)) ->
  throws_early (bind (CreateBody bodyDef) k).
Proof.
  intros Hk st. unfold CreateBody, the_world, bind, alloc, put_world, ret.
  destruct (world st) as [w|] eqn:Hw; simpl; [|done].
  match goal with |- match k ?b ?s with _ => _ end =>
    specialize (Hk b s); destruct (k b s) as [[a|e|] st'] end; [done| |done].
  by destruct (Hk e).
Qed.

(** [addBody] throws, if at all, before it reaches the engine. *)
Lemma addBody_throws_early (args : list value) : throws_early (addBody args).
Proof.
  unfold addBody. destruct args as [|settings0 args]; [apply early_throw |].
  do 13 (apply early_bind; [solve [world_step] | intros ?]).
  apply early_bind; [solve [world_step] | intros settings].
  destruct (nullish settings) eqn:Hnull.
  - intros st. by destruct settings.
  - repeat (apply early_bind; [solve [world_step] | intros ?]).
    apply early_CreateBody. intros body.
    unfold CreateFixture, set_sensorCallback, SetAngle, set_id.
    repeat first
      [ apply never_bind; [| intros ?]
      | apply never_update_body
      | apply never_push_body
      | apply never_ret
      | by apply never_getp
      | match goal with |- never_throws (match ?x with _ => _ end) =>
          destruct x end ].
Qed.

(** ** Array indices *)

Lemma take_digits_uint (u : Decimal.uint) :
  take_digits (NilEmpty.string_of_uint u) = (uint_digits u, EmptyString).
Proof. induction u; simpl; try rewrite IHu; reflexivity. Qed.

Lemma of_uint_acc_digits (u : Decimal.uint) (acc : positive) :
  Zpos (Pos.of_uint_acc u acc)
  = fold_left (fun a d => 10 * a + d) (uint_digits u) (Zpos acc).
Proof.
  revert acc. induction u; intros acc; simpl; try rewrite IHu;
    try reflexivity; f_equal; lia.
Qed.

Lemma of_uint_digits (u : Decimal.uint) :
  Z.of_N (Pos.of_uint u) = digits_value (uint_digits u).
Proof.
  unfold digits_value. induction u; simpl; try done;
    by rewrite of_uint_acc_digits.
Qed.

Lemma take_digits_N (n : N) :
  exists d ds,
    take_digits (N_to_string n) = (d :: ds, EmptyString) /\
    Z.to_N (digits_value (d :: ds)) = n.
Proof.
  unfold N_to_string.
  assert (N.to_uint n <> Decimal.Nil) as Hne.
  { destruct n; [done |]. apply DecimalPos.Unsigned.to_uint_nonnil. }
  assert (NilZero.string_of_uint (N.to_uint n)
          = NilEmpty.string_of_uint (N.to_uint n)) as ->.
  { by destruct (N.to_uint n). }
  rewrite take_digits_uint.
  assert (Z.to_N (digits_value (uint_digits (N.to_uint n))) = n) as Hv.
  { rewrite <- of_uint_digits.
    change (Pos.of_uint (N.to_uint n)) with (N.of_uint (N.to_uint n)).
    rewrite DecimalN.Unsigned.of_to. lia. }
  destruct (N.to_uint n); try done; simpl in *; eauto.
Qed.

Lemma array_index_key (i : nat) :
  (N.of_nat i < 4294967295)%N -> array_index (index_key i) = Some (N.of_nat i).
Proof.
  intros Hi. unfold array_index, index_key.
  destruct (take_digits_N (N.of_nat i)) as (d & ds & E1 & E2).
  rewrite E1. cbv beta iota zeta. rewrite E2.
  rewrite String.eqb_refl. by apply N.ltb_lt in Hi as ->.
Qed.

(** ** Traversals *)

Lemma map_loop_identity (st : state) (keys : list string) :
  map_loop (fun key st => (Ok (registry_lookup (bodies st) key), st))
    (call_visitor identity_visitor) VUndef keys st
  = (Ok (omap (registry_lookup (bodies st)) keys), st).
Proof.
  destruct st as [h s bs w]. induction keys as [|key keys IH]; [done |].
  cbn [map_loop omap list_omap bodies] in *.
  erewrite bind_Ok by reflexivity. cbn [bodies].
  destruct (registry_lookup bs key) as [v|]; [|exact IH].
  erewrite bind_Ok by reflexivity. by erewrite bind_Ok by exact IH.
Qed.

Lemma traversal_eq (st : state) :
  traversal st
  = Ok (omap (registry_lookup (bodies st)) (index_keys (length (bodies st)))).
Proof.
  unfold traversal, iterBodies, bind. by rewrite map_loop_identity.
Qed.

Lemma omap_registry (bs : list value) (k m : nat) :
  (k + m <= length bs)%nat -> (N.of_nat (length bs) <= 4294967295)%N ->
  omap (registry_lookup bs) (List.map index_key (seq k m)) = take m (drop k bs).
Proof.
  revert k. induction m as [|m IH]; intros k Hk Hlen; [done |].
  simpl. unfold registry_lookup at 1.
  rewrite array_index_key by lia. rewrite Nat2N.id.
  destruct (lookup_lt_is_Some_2 bs k) as [v Hv]; [lia |].
  rewrite Hv, IH by lia.
  by rewrite (drop_S bs v k Hv).
Qed.

(** On a registry an array can hold, the traversal is the registry. *)
Lemma traversal_registry (st : state) :
  (N.of_nat (length (bodies st)) <= 4294967295)%N ->
  traversal st = Ok (bodies st).
Proof.
  intros H. rewrite traversal_eq. unfold index_keys.
  rewrite omap_registry by (simpl; lia).
  by rewrite drop_0, firstn_all.
Qed.

(** ** Calls on the facade *)

Lemma keeps_iterBodies (func : visitor) (context : value) :
  keeps_bodies (iterBodies func context).
Proof.
  unfold iterBodies. apply keeps_bind; [done |]. intros keys.
  apply keeps_map_loop; [done | auto with keeps].
Qed.

Lemma keeps_step (args : list value) : keeps_bodies (step args).
Proof. unfold step. keeps. Qed.

Lemma keeps_clearForces (args : list value) : keeps_bodies (clearForces args).
Proof. unfold clearForces. keeps. Qed.

Lemma keeps_gravity (args : list value) : keeps_bodies (gravity args).
Proof. unfold gravity, GetGravity, SetGravity, new_Vec2. keeps. Qed.

Lemma keeps_toPixels (num : value) : keeps_bodies (toPixels num).
Proof. unfold toPixels. keeps. Qed.

Lemma keeps_toMeters (num : value) : keeps_bodies (toMeters num).
Proof. unfold toMeters. keeps. Qed.

Lemma keeps_randomImpulse
    (impulse_vector : value -> value -> value -> value * value)
    (body settings : value) :
  keeps_bodies (randomImpulse impulse_vector body settings).
Proof. unfold randomImpulse, has_GetWorldCenter, ApplyImpulse. keeps. Qed.

Lemma run_call_appends
    (impulse_vector : value -> value -> value -> value * value)
    (c : call) (st : state) :
  bodies (snd (run_call impulse_vector c st))
  = bodies st ++ fst (run_call impulse_vector c st).
Proof.
  destruct c; simpl; rewrite ?app_nil_r;
    try solve [ done
              | apply keeps_iterBodies | apply keeps_step
              | apply keeps_clearForces | apply keeps_gravity
              | apply keeps_parsePixels | apply keeps_toPixels
              | apply keeps_toMeters | apply keeps_randomImpulse ].
  pose proof (addBody_appends args st) as H.
  destruct (addBody args st) as [[body| |] st']; simpl; by rewrite ?app_nil_r.
Qed.

Lemma run_calls_appends
    (impulse_vector : value -> value -> value -> value * value)
    (calls : list call) (st : state) :
  bodies (snd (run_calls impulse_vector calls st))
  = bodies st ++ fst (run_calls impulse_vector calls st).
Proof.
  revert st. induction calls as [|c calls IH]; intros st; simpl.
  - by rewrite app_nil_r.
  - pose proof (run_call_appends impulse_vector c st) as Hc.
    destruct (run_call impulse_vector c st) as [created st1].
    specialize (IH st1).
    destruct (run_calls impulse_vector calls st1) as [more st2].
    simpl in *. by rewrite IH, Hc, app_assoc.
Qed.

(** C6. Whenever addBody throws, the registry is as it was, and so is
    what a traversal by iterBodies returns; the engine's world has been
    given no body either. *)
Theorem failed_addBody_keeps_registry (args : list value) (st st' : state)
    (e : error) :
  addBody args st = (Throw e, st') ->
  bodies st' = bodies st /\ traversal st' = traversal st /\
  world st' = world st.
Proof.
  intros H. pose proof (addBody_appends args st) as Ha.
  pose proof (addBody_throws_early args st) as Hw. rewrite H in Ha, Hw.
  split; [done |]. split; [|done]. by rewrite !traversal_eq, Ha.
Qed.

Lemma failed_addBody_keeps_registry_witness :
  bodies (snd (addBody [VRef 19%nat] example_world)) = bodies example_world /\
  traversal (snd (addBody [VRef 19%nat] example_world))
  = traversal example_world /\
  world (snd (addBody [VRef 19%nat] example_world)) = world example_world.
Proof.
  apply (failed_addBody_keeps_registry [VRef 19%nat] example_world
           (snd (addBody [VRef 19%nat] example_world)) TypeError).
  vm_compute. reflexivity.
Defined.

(** C8. After a successful addBody on a registry an array can hold, the
    traversal by iterBodies is the one before with the returned body added
    at the end. Over any sequence of calls on the facade the registry grows
    by exactly the bodies created, in the order of their creation, and
    nothing is taken out or moved. *)
Theorem registry_is_creation_order
    (impulse_vector : value -> value -> value -> value * value)
    (args : list value) (st st' : state) (body : value) :
  addBody args st = (Ok body, st') ->
  (N.of_nat (length (bodies st)) < 4294967295)%N ->
  traversal st = Ok (bodies st) /\
  traversal st' = Ok (bodies st ++ [body]) /\
  (forall calls st0,
      bodies (snd (run_calls impulse_vector calls st0))
      = bodies st0 ++ fst (run_calls impulse_vector calls st0)).
Proof.
  intros H Hlen. pose proof (addBody_appends args st) as Ha. rewrite H in Ha.
  split; [|split].
  - apply traversal_registry. lia.
  - rewrite <- Ha. apply traversal_registry.
    rewrite Ha, length_app. simpl. lia.
  - apply run_calls_appends.
Qed.

Lemma registry_is_creation_order_witness :
  traversal example_world = Ok (bodies example_world) /\
  traversal (snd (addBody [VRef 2%nat] example_world))
  = Ok (bodies example_world ++ [VRef 27%nat]) /\
  (forall calls st0,
      bodies (snd (run_calls (fun _ _ _ => (VUndef, VUndef)) calls st0))
      = bodies st0 ++ fst (run_calls (fun _ _ _ => (VUndef, VUndef)) calls st0)).
Proof.
  apply (registry_is_creation_order (fun _ _ _ => (VUndef, VUndef))
           [VRef 2%nat] example_world
           (snd (addBody [VRef 2%nat] example_world)) (VRef 27%nat)).
  - vm_compute. reflexivity.
  - vm_compute. reflexivity.
Defined.

(** ** Property tables *)

Lemma assoc_assign_eq (k : string) (v : value) (props : list (string * value)) :
  assoc k (assign k v props) = Some v.
Proof.
  induction props as [|[k' v'] props IH]; simpl.
  - by rewrite String.eqb_refl.
  - destruct (String.eqb k k') eqn:E; simpl; [by rewrite String.eqb_refl |].
    by rewrite E.
Qed.

Lemma assoc_assign_ne (k k' : string) (v : value)
    (props : list (string * value)) :
  k <> k' -> assoc k (assign k' v props) = assoc k props.
Proof.
  intros Hne. apply String.eqb_neq in Hne.
  induction props as [|[k2 v2] props IH]; simpl.
  - by rewrite Hne.
  - destruct (String.eqb k' k2) eqn:E; simpl.
    + apply String.eqb_eq in E. subst k2. by rewrite Hne.
    + by rewrite IH.
Qed.

Lemma merge_step_keeps (d acc : list (string * value)) (k key : string)
    (v : value) :
  assoc key acc = Some v -> assoc key (merge_step d acc k) = Some v.
Proof.
  intros H. unfold merge_step.
  destruct (assoc k d); [|done]. destruct (assoc k acc) eqn:E; [done |].
  destruct (inherited k); [done |].
  rewrite assoc_assign_ne; [done |]. intros ->. congruence.
Qed.

Lemma fold_merge_keeps (d : list (string * value)) (keys : list string)
    (acc : list (string * value)) (key : string) (v : value) :
  assoc key acc = Some v ->
  assoc key (fold_left (merge_step d) keys acc) = Some v.
Proof.
  revert acc. induction keys as [|k keys IH]; intros acc H; [done |].
  simpl. apply IH. by apply merge_step_keeps.
Qed.

Lemma fold_merge_absent (d : list (string * value)) (keys : list string)
    (acc : list (string * value)) (key : string) :
  assoc key acc = None -> (assoc key d = None \/ inherited key = true) ->
  assoc key (fold_left (merge_step d) keys acc) = None.
Proof.
  revert acc. induction keys as [|k keys IH]; intros acc H Hd; [done |].
  simpl. apply IH; [|done]. unfold merge_step.
  destruct (assoc k d) eqn:Ek; [|done]. destruct (assoc k acc); [done |].
  destruct (inherited k) eqn:Ei; [done |].
  rewrite assoc_assign_ne; [done |]. intros ->. destruct Hd; congruence.
Qed.

Lemma fold_merge_default (d : list (string * value)) (keys : list string)
    (acc : list (string * value)) (key : string) (v : value) :
  assoc key acc = None -> inherited key = false -> assoc key d = Some v ->
  key ∈ keys ->
  assoc key (fold_left (merge_step d) keys acc) = Some v.
Proof.
  intros Hacc Hi Hd Hin. revert acc Hacc.
  induction keys as [|k keys IH]; intros acc Hacc; [by apply elem_of_nil in Hin |].
  simpl. destruct (decide (key = k)) as [<- | Hne].
  - apply fold_merge_keeps. unfold merge_step.
    rewrite Hd, Hacc, Hi. apply assoc_assign_eq.
  - apply elem_of_cons in Hin as [? | Hin]; [done |].
    apply IH; [done |]. unfold merge_step.
    destruct (assoc k d); [|done]. destruct (assoc k acc); [done |].
    destruct (inherited k); [done |]. by rewrite assoc_assign_ne.
Qed.

Lemma array_index_canonical (k : string) (n : N) :
  array_index k = Some n -> N_to_string n = k.
Proof.
  unfold array_index. destruct (take_digits k) as [[|d ds] [|c r]]; try done.
  destruct (String.eqb _ k) eqn:E; [|done]. apply String.eqb_eq in E.
  destruct (_ <? _)%N; [|done]. simpl. by intros [= <-].
Qed.

Lemma elem_of_insert_sorted (x n : N) (l : list N) :
  x ∈ insert_sorted n l <-> x = n \/ x ∈ l.
Proof.
  induction l as [|m l IH]; simpl.
  - rewrite list_elem_of_singleton, elem_of_nil. tauto.
  - destruct (n <=? m)%N; rewrite !elem_of_cons, ?IH; tauto.
Qed.

Lemma elem_of_sorted (x : N) (l : list N) :
  x ∈ fold_right insert_sorted [] l <-> x ∈ l.
Proof.
  induction l as [|m l IH]; simpl; [done |].
  rewrite elem_of_insert_sorted, IH, elem_of_cons. tauto.
Qed.

Lemma assoc_Some_fst (k : string) (v : value) (props : list (string * value)) :
  assoc k props = Some v -> k ∈ fst <$> props.
Proof.
  induction props as [|[k' v'] props IH]; simpl; [done |].
  rewrite elem_of_cons. destruct (String.eqb k k') eqn:E.
  - apply String.eqb_eq in E. by left.
  - right. by apply IH.
Qed.

(** Every own property is enumerated. *)
Lemma own_keys_complete (k : string) (v : value)
    (props : list (string * value)) :
  assoc k props = Some v -> k ∈ own_keys props.
Proof.
  intros H. apply assoc_Some_fst in H. unfold own_keys.
  apply elem_of_app. destruct (array_index k) as [n|] eqn:E.
  - left. rewrite <- (array_index_canonical k n E).
    apply list_elem_of_fmap_2. apply elem_of_sorted.
    apply list_elem_of_omap. eauto.
  - right. by apply list_elem_of_filter.
Qed.

(** What [merge] leaves in [settings]: a key that was there keeps its value,
    whatever it is; a key that was not there and is not inherited gets the
    default, if there is one. *)
Lemma merge_props_provided (d props : list (string * value)) (key : string)
    (v : value) :
  assoc key props = Some v -> assoc key (merge_props d props) = Some v.
Proof. apply fold_merge_keeps. Qed.

Lemma merge_props_omitted (d props : list (string * value)) (key : string) :
  assoc key props = None -> inherited key = false ->
  assoc key (merge_props d props) = assoc key d.
Proof.
  intros H Hi. unfold merge_props. destruct (assoc key d) as [v|] eqn:E.
  - apply fold_merge_default; eauto using own_keys_complete.
  - apply fold_merge_absent; auto.
Qed.

Lemma merge_props_no_default (d props : list (string * value)) (key : string) :
  assoc key props = None -> assoc key d = None ->
  assoc key (merge_props d props) = None.
Proof. intros H Hd. apply fold_merge_absent; auto. Qed.

(** ** [merge] on the heap *)

Lemma with_heap_id (st : state) : with_heap st (st_heap st) = st.
Proof. by destruct st. Qed.

Lemma merge_loop_ok (ld ls : loc) (dprops : list (string * value))
    (keys : list string) :
  ld <> ls -> assoc "hasOwnProperty" dprops = None ->
  forall (st : state) (acc : list (string * value)),
    st_heap st !! ld = Some (HObj dprops) ->
    st_heap st !! ls = Some (HObj acc) ->
    map_loop (fun key => read (fun h => own_property h (VRef ld) key))
      (merge_callback (VRef ld) (VRef ls)) VUndef keys st
    = (Ok (omap (fun key => const VUndef <$> assoc key dprops) keys),
       with_heap st
         (<[ls := HObj (fold_left (merge_step dprops) keys acc)]> (st_heap st))).
Proof.
  intros Hne Hshadow. induction keys as [|key keys IH]; intros st acc Hld Hls.
  - cbn [map_loop fold_left].
    by rewrite (list_insert_id _ _ _ Hls), with_heap_id.
  - assert (read (fun h => own_property h (VRef ld) key) st
            = (Ok (assoc key dprops), st)) as Hown.
    { unfold read, own_property. by rewrite Hld, Hshadow. }
    cbn [map_loop fold_left omap list_omap]. rewrite (bind_Ok _ _ _ _ _ Hown).
    unfold merge_step at 2.
    destruct (assoc key dprops) as [d|] eqn:Ek; [|by apply IH].
    assert (read (fun h => has_property h key (VRef ls)) st
            = (Ok (match assoc key acc with
                   | Some _ => true
                   | None => inherited key
                   end), st)) as Hin.
    { unfold read, has_property. by rewrite Hls. }
    cbn [fmap option_fmap option_map].
    destruct (assoc key acc) as [x|] eqn:Ea; [|destruct (inherited key)].
    + erewrite bind_Ok; last first.
      { unfold merge_callback. rewrite (bind_Ok _ _ _ _ _ Hown).
        by rewrite (bind_Ok _ _ _ _ _ Hin). }
      by rewrite (bind_Ok _ _ _ _ _ (IH st acc Hld Hls)).
    + erewrite bind_Ok; last first.
      { unfold merge_callback. rewrite (bind_Ok _ _ _ _ _ Hown).
        by rewrite (bind_Ok _ _ _ _ _ Hin). }
      by rewrite (bind_Ok _ _ _ _ _ (IH st acc Hld Hls)).
    + erewrite bind_Ok; last first.
      { unfold merge_callback. rewrite (bind_Ok _ _ _ _ _ Hown).
        rewrite (bind_Ok _ _ _ _ _ Hin). cbn [negb].
        unfold bind, read, get, set. by rewrite Hld, Ek, Hls. }
      erewrite bind_Ok; last first.
      { apply IH with (acc := assign key d acc).
        - cbn. by rewrite list_lookup_insert_ne.
        - cbn. apply list_lookup_insert_eq. by eapply lookup_lt_Some. }
      cbn. by rewrite list_insert_insert_eq.
Qed.

(** [merge] of an ordinary object into another one: it returns [settings],
    whose properties are then [merge_props]. *)
Lemma merge_ok (st : state) (ld ls : loc) (dprops sprops : list (string * value)) :
  st_heap st !! ld = Some (HObj dprops) ->
  st_heap st !! ls = Some (HObj sprops) ->
  ld <> ls -> assoc "hasOwnProperty" dprops = None ->
  merge (VRef ld) (VRef ls) st
  = (Ok (VRef ls),
     with_heap st (<[ls := HObj (merge_props dprops sprops)]> (st_heap st))).
Proof.
  intros Hld Hls Hne Hshadow. unfold merge, map.
  erewrite (bind_Ok (bind _ _)); [reflexivity |].
  erewrite bind_Ok; last first.
  { unfold read, enum_keys. by rewrite Hld. }
  apply (merge_loop_ok ld ls dprops (own_keys dprops) Hne Hshadow st sprops
           Hld Hls).
Qed.

(** ** Running [addBody] on an ordinary options object *)

Lemma parsePixels_pure (st : state) (r : Q) (v : value) :
  has_drawRatio st r -> parsePixels v st = (Ok (parse_pixels r v), st).
Proof.
  intros H. unfold parsePixels. rewrite (bind_Ok _ _ _ _ _ (drawRatio_eq st r H)).
  destruct v; try done. simpl. destruct (search true s) as [[[b g] rest]|]; done.
Qed.

Lemma getp_prop (st : state) (l : loc) (props : list (string * value))
    (key : string) :
  st_heap st !! l = Some (HObj props) -> inherited key = false ->
  getp (VRef l) key st = (Ok (prop props key), st).
Proof.
  intros H Hi. unfold getp, read, get, prop. rewrite H, Hi.
  by destruct (assoc key props).
Qed.

Lemma lookup_snoc (h : list hobj) (o : hobj) : (h ++ [o]) !! length h = Some o.
Proof. by apply list_lookup_middle. Qed.

Lemma insert_snoc (h : list hobj) (o o' : hobj) :
  <[length h := o']> (h ++ [o]) = h ++ [o'].
Proof. rewrite insert_app_r_alt by lia. by rewrite Nat.sub_diag. Qed.

Lemma allocates_nothing {A} (m : M A) :
  (forall st, snd (m st) = st) -> only_allocates m.
Proof.
  intros H st. exists []. by rewrite H, app_nil_r, with_heap_id.
Qed.

Lemma allocates_bind {A B} (m : M A) (k : A -> M B) :
  only_allocates m -> (forall a, only_allocates (k a)) ->
  only_allocates (bind m k).
Proof.
  intros Hm Hk st. unfold bind. destruct (Hm st) as [more1 H1].
  destruct (m st) as [[a| |] st1]; simpl in *; [|by eexists..].
  destruct (Hk a st1) as [more2 H2]. rewrite H2, H1. simpl.
  exists (more1 ++ more2). by rewrite app_assoc.
Qed.

Lemma allocates_alloc (o : hobj) : only_allocates (alloc o).
Proof. intros st. by exists [o]. Qed.

Lemma allocates_read {A} (f : heap -> outcome A) : only_allocates (read f).
Proof. by apply allocates_nothing. Qed.

Lemma allocates_ret {A} (a : A) : only_allocates (ret a).
Proof. by apply allocates_nothing. Qed.

Lemma allocates_throw {A} (e : error) : only_allocates (@throw A e).
Proof. by apply allocates_nothing. Qed.

Lemma allocates_drawRatio : only_allocates drawRatio.
Proof. by apply allocates_nothing. Qed.

Create HintDb allocates.

#[export] Hint Resolve allocates_alloc allocates_read allocates_ret
  allocates_throw allocates_drawRatio : allocates.

Ltac allocates_basic :=
  repeat match goal with
    | |- only_allocates (bind _ _) => apply allocates_bind; [| intros ?]
    | |- only_allocates (match ?x with _ => _ end) => destruct x
    | |- only_allocates _ => solve [auto with allocates]
    end.

Lemma allocates_map_loop (own : string -> M (option value))
    (func : string -> value -> value -> M value) (context : value)
    (keys : list string) :
  (forall key, only_allocates (own key)) ->
  (forall key v, only_allocates (func key v context)) ->
  only_allocates (map_loop own func context keys).
Proof.
  intros Hown Hfunc. induction keys as [|key keys IH]; simpl; allocates_basic.
Qed.

Lemma allocates_mapM {A B} (f : A -> M B) (l : list A) :
  (forall a, only_allocates (f a)) -> only_allocates (mapM f l).
Proof. intros H. induction l; simpl; allocates_basic. Qed.

Lemma allocates_parsePixels (str : value) : only_allocates (parsePixels str).
Proof. unfold parsePixels. allocates_basic. Qed.

#[export] Hint Resolve allocates_parsePixels : allocates.

(** [make_shape] reads the heap and allocates the vertices; it changes
    nothing that exists. *)
Lemma make_shape_allocates (settings : value) :
  only_allocates (make_shape settings).
Proof.
  unfold make_shape, getp, new_Vec2, map. allocates_basic.
  - apply allocates_map_loop; intros; allocates_basic.
  - apply allocates_mapM. intros. allocates_basic.
Qed.

Ltac st_simpl :=
  cbn [st_heap settings bodies world with_heap with_bodies with_world fst snd
       m_def m_fixtures m_angle sensorCallback body_id m_impulses].

Lemma tail_created (st : state) (lc : loc) (final : list (string * value))
    (shape : b2Shape) (w : B2DWorld) (type : b2BodyType) :
  st_heap st !! lc = Some (HObj final) -> world st = Some w ->
  type = (if to_boolean (prop final "static")
          then b2_staticBody else b2_dynamicBody) ->
  (let* body := CreateBody (mkBodyDef type (prop final "x", prop final "y")) in
   CreateFixture body
     (mkFixtureDef (prop final "density") (prop final "friction")
        (prop final "restitution") shape) ;;
   let* callback := getp (VRef lc) "sensorCallback" in
   (match callback with
    | VFun _ => set_sensorCallback body callback
    | _ => ret tt
    end) ;;
   let* rotation := getp (VRef lc) "rotation" in
   SetAngle body rotation ;;
   let* id := getp (VRef lc) "id" in
   set_id body id ;;
   push_body body ;;
   ret body) st
  = created final shape w st.
Proof.
  intros Hlc Hw ->. destruct st as [h s bs wo]. simpl in Hlc, Hw. subst wo.
  assert (lc < length h)%nat as Hlt by (by eapply lookup_lt_Some).
  unfold created, new_body. st_simpl.
  erewrite bind_Ok by reflexivity.
  erewrite bind_Ok; last first.
  { unfold CreateFixture, update_body. st_simpl.
    rewrite lookup_snoc. st_simpl. rewrite insert_snoc. reflexivity. }
  erewrite bind_Ok; last first.
  { apply getp_prop; [|reflexivity]. st_simpl. by apply lookup_app_l_Some. }
  destruct (prop final "sensorCallback") eqn:Ecb;
    (erewrite bind_Ok;
      [|first [ reflexivity
              | unfold set_sensorCallback, update_body; st_simpl;
                rewrite lookup_snoc; st_simpl; rewrite insert_snoc;
                reflexivity ]]);
    (erewrite bind_Ok;
      [|apply getp_prop; [|reflexivity]; st_simpl; by apply lookup_app_l_Some]);
    (erewrite bind_Ok;
      [|unfold SetAngle, update_body; st_simpl;
        rewrite lookup_snoc; st_simpl; rewrite insert_snoc; reflexivity]);
    (erewrite bind_Ok;
      [|apply getp_prop; [|reflexivity]; st_simpl; by apply lookup_app_l_Some]);
    (erewrite bind_Ok;
      [|unfold set_id, update_body; st_simpl;
        rewrite lookup_snoc; st_simpl; rewrite insert_snoc; reflexivity]);
    reflexivity.
Qed.

(** [addBody] on an ordinary options object, in a world with a numeric draw
    ratio: the caller's object receives the defaults, a new object receives
    the converted distances and whatever else the caller's object holds, and
    the body is built from that new object. *)
Lemma addBody_resolved (st : state) (l ls : loc)
    (props wprops : list (string * value)) (r : Q) (w : B2DWorld)
    (rest : list value) :
  st_heap st !! l = Some (HObj props) ->
  settings st = VRef ls -> st_heap st !! ls = Some (HObj wprops) ->
  assoc "drawRatio" wprops = Some (VNum (Fin r)) -> l <> ls ->
  assoc "hasOwnProperty" props = None ->
  world st = Some w ->
  let final := resolved_props r props in
  let st5 :=
    with_heap st
      (<[l := HObj (merge_props addBody_defaults props)]> (st_heap st)
       ++ [HObj addBody_defaults; HObj final]) in
  addBody (VRef l :: rest) st
  = match make_shape (VRef (S (length (st_heap st)))) st5 with
    | (Ok shape, st6) => created final shape w st6
    | (Throw e, st6) => (Throw e, st6)
    | (Unsupported, st6) => (Unsupported, st6)
    end.
Proof.
  intros Hl Hs Hls Hr Hne Hshadow Hw final st5.
  destruct st as [h s bs wo]. simpl in Hl, Hs, Hls, Hw. subst s wo.
  assert (l < length h)%nat as Hlt by (by eapply lookup_lt_Some).
  assert (ls < length h)%nat as Hlst by (by eapply lookup_lt_Some).
  set (merged := merge_props addBody_defaults props) in *.
  set (h2 := <[l := HObj merged]> h ++ [HObj addBody_defaults]).
  assert (length h2 = S (length h)) as Hlen2.
  { unfold h2. rewrite length_app, length_insert. simpl. lia. }
  assert (h2 !! l = Some (HObj merged)) as Hl2.
  { unfold h2. rewrite lookup_app_l by (by rewrite length_insert).
    by apply list_lookup_insert_eq. }
  assert (forall more, has_drawRatio (mkState (h2 ++ more) (VRef ls) bs (Some w)) r)
    as Hratio.
  { intros more. unfold has_drawRatio, get. cbn [st_heap settings].
    rewrite lookup_app_l by lia. unfold h2.
    rewrite lookup_app_l by (by rewrite length_insert).
    by rewrite list_lookup_insert_ne, Hls, Hr by done. }
  unfold addBody.
  (* the defaults *)
  erewrite bind_Ok by reflexivity. st_simpl.
  erewrite bind_Ok; last first.
  { apply merge_ok with (dprops := addBody_defaults) (sprops := props).
    - st_simpl. apply lookup_snoc.
    - st_simpl. by apply lookup_app_l_Some.
    - lia.
    - reflexivity. }
  st_simpl. rewrite insert_app_l by done. fold merged. fold h2.
  (* the conversions *)
  pose proof (Hratio []) as Hratio0. rewrite app_nil_r in Hratio0.
  do 5 (erewrite bind_Ok; [|by apply getp_prop];
        erewrite bind_Ok; [|by apply parsePixels_pure]).
  erewrite bind_Ok by reflexivity. st_simpl. rewrite Hlen2.
  fold (converted_props r merged).
  erewrite bind_Ok; last first.
  { apply merge_ok with (dprops := merged) (sprops := converted_props r merged).
    - st_simpl. by apply lookup_app_l_Some.
    - st_simpl. rewrite <- Hlen2. apply lookup_snoc.
    - lia.
    - by apply merge_props_no_default. }
  st_simpl. rewrite <- Hlen2, insert_snoc, Hlen2.
  set (final0 := merge_props merged (converted_props r merged)).
  (* the forced shape *)
  erewrite bind_Ok; last first.
  { apply getp_prop; [|reflexivity]. st_simpl. rewrite <- Hlen2.
    apply lookup_snoc. }
  assert ((if to_boolean (prop final0 "vertices")
           then set (VRef (S (length h))) "shape" (VStr "polygon")
           else ret tt)
            (mkState (h2 ++ [HObj final0]) (VRef ls) bs (Some w))
          = (Ok tt, mkState (h2 ++ [HObj final]) (VRef ls) bs (Some w)))
    as Hshape.
  { unfold final, resolved_props. fold merged. fold final0.
    destruct (to_boolean (prop final0 "vertices")); [|done].
    unfold set. st_simpl. rewrite <- Hlen2, lookup_snoc. st_simpl.
    by rewrite insert_snoc. }
  rewrite (bind_Ok _ _ _ _ _ Hshape).
  assert (st5 = mkState (h2 ++ [HObj final]) (VRef ls) bs (Some w)) as Est5.
  { unfold st5, h2. st_simpl. by rewrite <- app_assoc. }
  rewrite <- Est5.
  assert (st_heap st5 !! S (length h) = Some (HObj final)) as Hfinal.
  { rewrite Est5. st_simpl. rewrite <- Hlen2. apply lookup_snoc. }
  do 6 (erewrite bind_Ok; [|by apply getp_prop]).
  (* the shape and the body *)
  unfold bind at 1.
  destruct (make_shape_allocates (VRef (S (length h))) st5) as [more Hmore].
  destruct (make_shape (VRef (S (length h))) st5) as [[shape| |] st6];
    [|done..].
  simpl in Hmore. subst st6.
  apply tail_created; [|by rewrite Est5|done].
  st_simpl. by apply lookup_app_l_Some.
Qed.

Lemma make_shape_box (st : state) (lc : loc) (final : list (string * value))
    (a b : number) :
  st_heap st !! lc = Some (HObj final) ->
  prop final "shape" = VStr "box" ->
  to_number (st_heap st) (prop final "width") = Ok a ->
  to_number (st_heap st) (prop final "height") = Ok b ->
  make_shape (VRef lc) st
  = (Ok (SetAsBox (num_div a (fin 2)) (num_div b (fin 2))), st).
Proof.
  intros Hlc Htag Ha Hb. unfold make_shape.
  erewrite bind_Ok; [|by apply getp_prop]. rewrite Htag. cbn [is_string String.eqb Ascii.eqb Bool.eqb].
  erewrite bind_Ok; [|by apply getp_prop].
  erewrite bind_Ok; [|unfold read; by rewrite Ha].
  erewrite bind_Ok; [|by apply getp_prop].
  erewrite bind_Ok; [|unfold read; by rewrite Hb].
  reflexivity.
Qed.


Lemma make_shape_unknown (st : state) (lc : loc) (final : list (string * value)) :
  st_heap st !! lc = Some (HObj final) ->
  is_string "box" (prop final "shape") = false ->
  is_string "polygon" (prop final "shape") = false ->
  is_string "circle" (prop final "shape") = false ->
  make_shape (VRef lc) st = (Throw TypeError, st).
Proof.
  intros Hlc H1 H2 H3. unfold make_shape.
  erewrite bind_Ok; [|by apply getp_prop]. by rewrite H1, H2, H3.
Qed.

Lemma shape_state_final (st : state) (l : loc)
    (props final : list (string * value)) :
  (l < length (st_heap st))%nat ->
  st_heap (shape_state st l props final) !! S (length (st_heap st))
  = Some (HObj final).
Proof.
  intros Hl. unfold shape_state. st_simpl.
  replace (S (length (st_heap st)))
    with (length (<[l := HObj (merge_props addBody_defaults props)]> (st_heap st)
                  ++ [HObj addBody_defaults])).
  - change (?a ++ [?x; ?y]) with (a ++ [x] ++ [y]).
    rewrite app_assoc. apply lookup_snoc.
  - rewrite length_app, length_insert. simpl. lia.
Qed.


Lemma addBody_ready (st : state) (l : loc) (props : list (string * value))
    (r : Q) (w : B2DWorld) (rest : list value) :
  st_heap st !! l = Some (HObj props) -> world_ready st l r w ->
  assoc "hasOwnProperty" props = None ->
  addBody (VRef l :: rest) st
  = match make_shape (VRef (S (length (st_heap st))))
            (shape_state st l props (resolved_props r props)) with
    | (Ok shape, st6) => created (resolved_props r props) shape w st6
    | (Throw e, st6) => (Throw e, st6)
    | (Unsupported, st6) => (Unsupported, st6)
    end.
Proof.
  intros Hl (Hw & ls & wprops & Hs & Hls & Hr & Hne) Hshadow.
  by eapply addBody_resolved.
Qed.

Lemma shape_state_length (st : state) (l : loc)
    (props final : list (string * value)) :
  length (st_heap (shape_state st l props final))
  = (length (st_heap st) + 2)%nat.
Proof.
  unfold shape_state. st_simpl. rewrite length_app, length_insert. simpl. lia.
Qed.

(** The result of [addBody] once the shape is known to be [shape]. *)
Lemma addBody_created (st : state) (l : loc) (props : list (string * value))
    (r : Q) (w : B2DWorld) (shape : b2Shape) :
  st_heap st !! l = Some (HObj props) -> world_ready st l r w ->
  assoc "hasOwnProperty" props = None ->
  make_shape (VRef (S (length (st_heap st))))
    (shape_state st l props (resolved_props r props))
  = (Ok shape, shape_state st l props (resolved_props r props)) ->
  exists st',
    addBody [VRef l] st = (Ok (VRef (length (st_heap st) + 2)), st') /\
    bodies st' = bodies st ++ [VRef (length (st_heap st) + 2)] /\
    st_heap st' !! (length (st_heap st) + 2)%nat
    = Some (HBody (new_body (resolved_props r props) shape)).
Proof.
  intros Hl Hready Hshadow Hshape.
  rewrite (addBody_ready st l props r w [] Hl Hready Hshadow), Hshape.
  unfold created. rewrite shape_state_length. eexists. split; [reflexivity |].
  st_simpl. split; [reflexivity |].
  rewrite <- (shape_state_length st l props (resolved_props r props)).
  apply lookup_snoc.
Qed.

(** C3 (as amended). addBody called with no argument at all fails with a
    TypeError and changes nothing. Called with an empty options object it
    does not fail: the defaults are filled in and a static body with the
    default box shape, of half-extents NaN (no width and height), is created
    and registered. *)
Theorem addBody_rejects_only_no_argument (st : state) (l : loc) (r : Q)
    (w : B2DWorld) :
  st_heap st !! l = Some (HObj []) -> world_ready st l r w ->
  addBody [] st = (Throw TypeError, st) /\
  exists st',
    addBody [VRef l] st = (Ok (VRef (length (st_heap st) + 2)), st') /\
    bodies st' = bodies st ++ [VRef (length (st_heap st) + 2)] /\
    st_heap st' !! (length (st_heap st) + 2)%nat
    = Some (HBody
              (mkBody (mkBodyDef b2_staticBody (VNum (fin 0), VNum (fin 0)))
                 [mkFixtureDef (VNum (fin 1)) (VNum (fin (1 # 2)))
                    (VNum (fin (3 # 10))) (SetAsBox NaN NaN)]
                 (VNum (fin 0)) None VUndef [])).
Proof.
  intros Hl Hready. split; [reflexivity |].
  assert (l < length (st_heap st))%nat as Hlt by (by eapply lookup_lt_Some).
  apply (addBody_created st l [] r w (SetAsBox NaN NaN) Hl Hready eq_refl).
  by apply (make_shape_box _ _ (resolved_props r []) NaN NaN
              (shape_state_final st l [] _ Hlt)).
Qed.

Lemma addBody_rejects_only_no_argument_witness :
  addBody [] example_world = (Throw TypeError, example_world) /\
  exists st',
    addBody [VRef 1%nat] example_world
    = (Ok (VRef (length (st_heap example_world) + 2)), st') /\
    bodies st' = bodies example_world
                 ++ [VRef (length (st_heap example_world) + 2)] /\
    st_heap st' !! (length (st_heap example_world) + 2)%nat
    = Some (HBody
              (mkBody (mkBodyDef b2_staticBody (VNum (fin 0), VNum (fin 0)))
                 [mkFixtureDef (VNum (fin 1)) (VNum (fin (1 # 2)))
                    (VNum (fin (3 # 10))) (SetAsBox NaN NaN)]
                 (VNum (fin 0)) None VUndef [])).
Proof.
  apply (addBody_rejects_only_no_argument example_world 1%nat 2
           (mkB2DWorld (VRef 24%nat) (VBool true) [] true [] 0%nat)).
  - reflexivity.
  - split; [reflexivity |]. exists 0%nat. eexists.
    repeat split; try reflexivity. lia.
Defined.

(** C3, as stated, fails: [addBody({})] returns a body. *)
Lemma addBody_empty_object_succeeds :
  st_heap example_world !! 1%nat = Some (HObj []) /\
  fst (addBody [VRef 1%nat] example_world) = Ok (VRef 27%nat) /\
  fst (addBody [VRef 1%nat] example_world) <> Throw TypeError.
Proof. vm_compute. repeat split; discriminate. Qed.

Lemma parse_pixels_unmatched (r : Q) (s : string) :
  search true s = None -> parse_pixels r (VStr s) = VNum (parseFloat s).
Proof. intros H. unfold parse_pixels. by rewrite H. Qed.



(** C5 (as amended). merge fills in a default exactly for the keys that are
    not in the settings object: a field that is present keeps its value,
    also when that value is undefined, and an absent field, unless
    Object.prototype defines it, receives its default. Accordingly addBody
    with an explicit undefined shape fails with a TypeError (no shape tag
    matches), while addBody with the shape left out builds the default box
    from width and height. *)
Theorem explicit_undefined_counts_as_provided (st : state) (l1 l2 : loc)
    (r : Q) (w : B2DWorld) (a b : number) :
  st_heap st !! l1
  = Some (HObj [("shape", VUndef); ("width", VNum a); ("height", VNum b)]) ->
  st_heap st !! l2 = Some (HObj [("width", VNum a); ("height", VNum b)]) ->
  world_ready st l1 r w -> world_ready st l2 r w ->
  (forall st0 ld ls dprops sprops,
      st_heap st0 !! ld = Some (HObj dprops) ->
      st_heap st0 !! ls = Some (HObj sprops) ->
      ld <> ls -> assoc "hasOwnProperty" dprops = None ->
      exists merged,
        fst (merge (VRef ld) (VRef ls) st0) = Ok (VRef ls) /\
        st_heap (snd (merge (VRef ld) (VRef ls) st0)) !! ls
        = Some (HObj merged) /\
        (forall key v, assoc key sprops = Some v -> assoc key merged = Some v) /\
        (forall key, assoc key sprops = None -> inherited key = false ->
                     assoc key merged = assoc key dprops)) /\
  fst (addBody [VRef l1] st) = Throw TypeError /\
  exists st',
    addBody [VRef l2] st = (Ok (VRef (length (st_heap st) + 2)), st') /\
    st_heap st' !! (length (st_heap st) + 2)%nat
    = Some (HBody
              (mkBody (mkBodyDef b2_staticBody (VNum (fin 0), VNum (fin 0)))
                 [mkFixtureDef (VNum (fin 1)) (VNum (fin (1 # 2)))
                    (VNum (fin (3 # 10)))
                    (SetAsBox (num_div a (fin 2)) (num_div b (fin 2)))]
                 (VNum (fin 0)) None VUndef [])).
Proof.
  intros Hl1 Hl2 Hready1 Hready2. split; [|split].
  - intros st0 ld ls dprops sprops Hld Hls Hne Hshadow.
    rewrite (merge_ok st0 ld ls dprops sprops Hld Hls Hne Hshadow).
    exists (merge_props dprops sprops). st_simpl. repeat split.
    + apply list_lookup_insert_eq. by eapply lookup_lt_Some.
    + intros key v. apply merge_props_provided.
    + intros key. apply merge_props_omitted.
  - assert (l1 < length (st_heap st))%nat as Hlt by (by eapply lookup_lt_Some).
    rewrite (addBody_ready st l1 _ r w [] Hl1 Hready1 eq_refl).
    by rewrite (make_shape_unknown _ _ _ (shape_state_final st l1 _ _ Hlt)).
  - assert (l2 < length (st_heap st))%nat as Hlt by (by eapply lookup_lt_Some).
    destruct (addBody_created st l2 _ r w
                (SetAsBox (num_div a (fin 2)) (num_div b (fin 2)))
                Hl2 Hready2 eq_refl) as (st' & Hadd & _ & Hbody).
    + by apply (make_shape_box _ _ _ a b (shape_state_final st l2 _ _ Hlt)).
    + exists st'. by split.
Qed.

Lemma explicit_undefined_counts_as_provided_witness :
  (forall st0 ld ls dprops sprops,
      st_heap st0 !! ld = Some (HObj dprops) ->
      st_heap st0 !! ls = Some (HObj sprops) ->
      ld <> ls -> assoc "hasOwnProperty" dprops = None ->
      exists merged,
        fst (merge (VRef ld) (VRef ls) st0) = Ok (VRef ls) /\
        st_heap (snd (merge (VRef ld) (VRef ls) st0)) !! ls
        = Some (HObj merged) /\
        (forall key v, assoc key sprops = Some v -> assoc key merged = Some v) /\
        (forall key, assoc key sprops = None -> inherited key = false ->
                     assoc key merged = assoc key dprops)) /\
  fst (addBody [VRef 3%nat] example_world) = Throw TypeError /\
  exists st',
    addBody [VRef 4%nat] example_world
    = (Ok (VRef (length (st_heap example_world) + 2)), st') /\
    st_heap st' !! (length (st_heap example_world) + 2)%nat
    = Some (HBody
              (mkBody (mkBodyDef b2_staticBody (VNum (fin 0), VNum (fin 0)))
                 [mkFixtureDef (VNum (fin 1)) (VNum (fin (1 # 2)))
                    (VNum (fin (3 # 10)))
                    (SetAsBox (num_div (fin 1) (fin 2))
                              (num_div (fin 2) (fin 2)))]
                 (VNum (fin 0)) None VUndef [])).
Proof.
  apply (explicit_undefined_counts_as_provided example_world 3%nat 4%nat 2
           (mkB2DWorld (VRef 24%nat) (VBool true) [] true [] 0%nat)
           (fin 1) (fin 2)).
  - reflexivity.
  - reflexivity.
  - split; [reflexivity |]. exists 0%nat. eexists.
    repeat split; try reflexivity. lia.
  - split; [reflexivity |]. exists 0%nat. eexists.
    repeat split; try reflexivity. lia.
Defined.

(** C5, as stated, fails: with [shape: undefined] written out addBody
    throws, with the field left out it builds the default box. *)
Lemma explicit_undefined_shape_throws :
  st_heap example_world !! 3%nat
  = Some (HObj [("shape", VUndef); ("width", VNum (fin 1));
                ("height", VNum (fin 2))]) /\
  st_heap example_world !! 4%nat
  = Some (HObj [("width", VNum (fin 1)); ("height", VNum (fin 2))]) /\
  fst (addBody [VRef 3%nat] example_world) = Throw TypeError /\
  fst (addBody [VRef 4%nat] example_world) = Ok (VRef 27%nat) /\
  fst (addBody [VRef 3%nat] example_world)
  <> fst (addBody [VRef 4%nat] example_world).
Proof. vm_compute. repeat split; discriminate. Qed.

(** ** What happens to an object the caller holds *)

Section KeepsObject.

Variable l : loc.
Variable props : list (string * value).

Lemma ko_bind {A B} (m : M A) (k : A -> M B) (R : A -> Prop) (R' : B -> Prop) :
  keeps_object l props m R ->
  (forall a, R a -> keeps_object l props (k a) R') ->
  keeps_object l props (bind m k) R'.
Proof.
  intros Hm Hk st Hl. unfold bind. destruct (Hm st Hl) as [Hl1 HR].
  destruct (m st) as [[a| |] st1]; simpl in *; [|by split..].
  by apply (Hk a (HR a eq_refl) st1).
Qed.

Lemma ko_unchanged {A} (m : M A) :
  (forall st, st_heap (snd (m st)) = st_heap st) -> keeps_object l props m any.
Proof. intros H st Hl. by rewrite H. Qed.

Lemma ko_ret {A} (a : A) : keeps_object l props (ret a) any.
Proof. by apply ko_unchanged. Qed.

Lemma ko_ret_eq {A} (a : A) : keeps_object l props (ret a) (eq a).
Proof. intros st Hl. split; [done |]. by intros ? [= ->]. Qed.

Lemma ko_throw {A} (e : error) : keeps_object l props (@throw A e) any.
Proof. by apply ko_unchanged. Qed.

Lemma ko_read {A} (f : heap -> outcome A) : keeps_object l props (read f) any.
Proof. by apply ko_unchanged. Qed.

Lemma ko_getp (v : value) (key : string) : keeps_object l props (getp v key) any.
Proof. by apply ko_unchanged. Qed.

Lemma ko_the_world : keeps_object l props the_world any.
Proof. apply ko_unchanged. intros st. unfold the_world. by destruct (world st). Qed.

Lemma ko_put_world (w : B2DWorld) : keeps_object l props (put_world w) any.
Proof. by apply ko_unchanged. Qed.

Lemma ko_push_body (body : value) : keeps_object l props (push_body body) any.
Proof. by apply ko_unchanged. Qed.

Lemma ko_allocates {A} (m : M A) :
  only_allocates m -> keeps_object l props m any.
Proof.
  intros H st Hl. destruct (H st) as [more ->]. split; [|done].
  simpl. by apply lookup_app_l_Some.
Qed.

(** A new object is not the one at [l]. *)
Lemma ko_alloc (o : hobj) :
  keeps_object l props (alloc o) (fun a => a <> VRef l).
Proof.
  intros st Hl. split.
  - simpl. by apply lookup_app_l_Some.
  - simpl. intros a [= <-] [= E]. apply lookup_lt_Some in Hl. lia.
Qed.

Lemma ko_set (v : value) (key : string) (x : value) :
  v <> VRef l -> keeps_object l props (set v key x) any.
Proof.
  intros Hv st Hl. split; [|done]. unfold set.
  destruct v as [| | | | |l'|]; try done.
  destruct (st_heap st !! l') as [[]|]; try done. simpl.
  rewrite list_lookup_insert_ne; [done |]. congruence.
Qed.

(** The engine's bodies are not ordinary objects. *)
Lemma ko_update_body (body : value) (f : b2Body -> b2Body) :
  keeps_object l props (update_body body f) any.
Proof.
  intros st Hl. split; [|done]. unfold update_body.
  destruct body as [| | | | |l'|]; try done.
  destruct (st_heap st !! l') as [[]|] eqn:E; try done. simpl.
  rewrite list_lookup_insert_ne; [done |]. intros ->. congruence.
Qed.

Lemma ko_map_loop (own : string -> M (option value))
    (func : string -> value -> value -> M value) (context : value)
    (keys : list string) :
  (forall key, keeps_object l props (own key) any) ->
  (forall key v, keeps_object l props (func key v context) any) ->
  keeps_object l props (map_loop own func context keys) any.
Proof.
  intros Hown Hfunc. induction keys as [|key keys IH]; simpl.
  - apply ko_ret.
  - eapply ko_bind; [apply Hown |]. intros [v|] _; [|apply IH].
    eapply ko_bind; [apply Hfunc |]. intros r _.
    eapply ko_bind; [apply IH |]. intros rs _. apply ko_ret.
Qed.

(** [merge] writes into [settings] only, and returns it. *)
Lemma ko_merge (defaults settings : value) :
  settings <> VRef l ->
  keeps_object l props (merge defaults settings) (eq settings).
Proof.
  intros Hs. unfold merge, map.
  eapply ko_bind; [|intros _ _; apply ko_ret_eq].
  eapply ko_bind; [apply ko_read |]. intros keys _.
  apply ko_map_loop; [intros; apply ko_read |]. intros key v.
  unfold merge_callback.
  eapply ko_bind; [apply ko_read |]. intros [x|] _; [|apply ko_ret].
  eapply ko_bind; [apply ko_read |]. intros present _.
  destruct (negb present); [|apply ko_ret].
  eapply ko_bind; [apply ko_read |]. intros d _.
  eapply ko_bind; [by apply ko_set |]. intros _ _. apply ko_ret.
Qed.

End KeepsObject.

Ltac ko_step :=
  first
    [ apply ko_getp | apply ko_read | apply ko_ret | apply ko_throw
    | apply ko_the_world | apply ko_put_world | apply ko_push_body
    | apply ko_update_body
    | apply ko_allocates; first [ apply allocates_parsePixels
                                | apply make_shape_allocates
                                | apply allocates_alloc ] ].

(** After [addBody], whatever its outcome, the options object it was given
    holds what the first [merge] made of it. *)
Lemma addBody_options_object (st : state) (l : loc)
    (props : list (string * value)) (rest : list value) :
  st_heap st !! l = Some (HObj props) ->
  st_heap (snd (addBody (VRef l :: rest) st)) !! l
  = Some (HObj (merge_props addBody_defaults props)).
Proof.
  intros Hl. assert (l < length (st_heap st))%nat as Hlt
    by (by eapply lookup_lt_Some).
  unfold addBody.
  erewrite bind_Ok by reflexivity.
  erewrite bind_Ok; last first.
  { apply merge_ok with (dprops := addBody_defaults) (sprops := props).
    - st_simpl. apply lookup_snoc.
    - st_simpl. by apply lookup_app_l_Some.
    - lia.
    - reflexivity. }
  match goal with
  | |- st_heap (snd (?m ?st2)) !! _ = _ =>
      assert (keeps_object l (merge_props addBody_defaults props) m any) as H
  end.
  { do 10 (eapply ko_bind; [ko_step | intros ? _]).
    eapply ko_bind; [apply ko_alloc | intros converted Hconv].
    eapply ko_bind; [by apply ko_merge | intros ? <-].
    eapply ko_bind; [ko_step | intros ? _].
    eapply ko_bind.
    { destruct (to_boolean _); [by apply ko_set | apply ko_ret]. }
    intros _ _.
    do 7 (eapply ko_bind; [ko_step | intros ? _]).
    unfold CreateBody, CreateFixture, set_sensorCallback, SetAngle, set_id.
    eapply ko_bind.
    { eapply ko_bind; [ko_step | intros ? _].
      eapply ko_bind; [ko_step | intros ? _].
      eapply ko_bind; [ko_step | intros ? _]. ko_step. }
    intros body _.
    eapply ko_bind; [ko_step | intros ? _].
    eapply ko_bind; [ko_step | intros callback _].
    eapply ko_bind; [destruct callback; ko_step | intros ? _].
    do 5 (eapply ko_bind; [ko_step | intros ? _]). ko_step. }
  apply H. st_simpl. apply list_lookup_insert_eq.
  rewrite length_app. lia.
Qed.

(** After [randomImpulse], whatever its outcome, the options object holds
    the defaults and the converted [scale]. *)
Lemma randomImpulse_options_object
    (impulse_vector : value -> value -> value -> value * value)
    (st : state) (l : loc) (props : list (string * value)) (r : Q)
    (w : B2DWorld) (body : value) :
  st_heap st !! l = Some (HObj props) -> world_ready st l r w ->
  let merged := merge_props randomImpulse_defaults props in
  st_heap (snd (randomImpulse impulse_vector body (VRef l) st)) !! l
  = Some (HObj (assign "scale" (parse_pixels r (prop merged "scale")) merged)).
Proof.
  intros Hl (Hw & ls & wprops & Hs & Hls & Hr & Hne) merged.
  assert (l < length (st_heap st))%nat as Hlt by (by eapply lookup_lt_Some).
  assert (ls < length (st_heap st))%nat as Hlst by (by eapply lookup_lt_Some).
  unfold randomImpulse.
  erewrite bind_Ok by reflexivity.
  erewrite bind_Ok; last first.
  { apply merge_ok with (dprops := randomImpulse_defaults) (sprops := props).
    - st_simpl. apply lookup_snoc.
    - st_simpl. by apply lookup_app_l_Some.
    - lia.
    - reflexivity. }
  fold merged. st_simpl.
  set (h2 := <[l := HObj merged]> (st_heap st ++ [HObj randomImpulse_defaults])).
  assert (h2 !! l = Some (HObj merged)) as Hl2.
  { apply list_lookup_insert_eq. rewrite length_app. lia. }
  erewrite bind_Ok; [|by apply getp_prop].
  erewrite bind_Ok; last first.
  { apply parsePixels_pure with (r := r). unfold has_drawRatio, get.
    st_simpl. rewrite Hs. unfold h2.
    rewrite list_lookup_insert_ne by done.
    by rewrite (lookup_app_l_Some _ _ _ _ Hls), Hr. }
  erewrite bind_Ok; last first.
  { unfold set. st_simpl. by rewrite Hl2. }
  match goal with
  | |- st_heap (snd (?m ?st3)) !! _ = Some (HObj ?o) =>
      assert (keeps_object l o m any) as H
  end.
  { unfold has_GetWorldCenter, ApplyImpulse.
    do 4 (eapply ko_bind; [ko_step | intros ? _]). ko_step. }
  apply H. st_simpl. apply list_lookup_insert_eq.
  unfold h2. rewrite length_insert, length_app. lia.
Qed.

(** C10 (as amended). addBody and randomImpulse write their defaults into
    the caller's options object: afterwards every field the caller supplied
    has the value the caller gave it and every omitted field (unless
    Object.prototype defines it) has its default. randomImpulse also
    replaces the object's scale by the converted value. addBody does not
    write converted distances or a forced 'polygon' shape into the caller's
    object: those go into a new object, which the second merge returns. *)
Theorem options_object_after_call
    (impulse_vector : value -> value -> value -> value * value)
    (st : state) (l : loc) (props : list (string * value)) (r : Q)
    (w : B2DWorld) (body : value) (rest : list value) :
  st_heap st !! l = Some (HObj props) -> world_ready st l r w ->
  (exists after,
      st_heap (snd (addBody (VRef l :: rest) st)) !! l = Some (HObj after) /\
      (forall key v, assoc key props = Some v -> assoc key after = Some v) /\
      (forall key, assoc key props = None -> inherited key = false ->
                   assoc key after = assoc key addBody_defaults)) /\
  (exists merged,
      st_heap (snd (randomImpulse impulse_vector body (VRef l) st)) !! l
      = Some (HObj (assign "scale" (parse_pixels r (prop merged "scale")) merged)) /\
      (forall key v, assoc key props = Some v -> assoc key merged = Some v) /\
      (forall key, assoc key props = None -> inherited key = false ->
                   assoc key merged = assoc key randomImpulse_defaults)).
Proof.
  intros Hl Hready. split.
  - exists (merge_props addBody_defaults props). split; [|split].
    + by apply addBody_options_object.
    + intros key v. apply merge_props_provided.
    + intros key. apply merge_props_omitted.
  - exists (merge_props randomImpulse_defaults props). split; [|split].
    + by apply (randomImpulse_options_object impulse_vector st l props r w).
    + intros key v. apply merge_props_provided.
    + intros key. apply merge_props_omitted.
Qed.

Lemma options_object_after_call_witness :
  (exists after,
      st_heap (snd (addBody [VRef 20%nat] example_world)) !! 20%nat
      = Some (HObj after) /\
      (forall key v,
          assoc key [("x", VStr "10px"); ("width", VStr "4px");
                     ("height", VNum (fin 1)); ("vertices", VRef 8%nat)]
          = Some v -> assoc key after = Some v) /\
      (forall key,
          assoc key [("x", VStr "10px"); ("width", VStr "4px");
                     ("height", VNum (fin 1)); ("vertices", VRef 8%nat)]
          = None -> inherited key = false ->
          assoc key after = assoc key addBody_defaults)) /\
  (exists merged,
      st_heap (snd (randomImpulse (fun _ _ _ => (VUndef, VUndef)) VUndef
                      (VRef 20%nat) example_world)) !! 20%nat
      = Some (HObj (assign "scale" (parse_pixels 2 (prop merged "scale")) merged)) /\
      (forall key v,
          assoc key [("x", VStr "10px"); ("width", VStr "4px");
                     ("height", VNum (fin 1)); ("vertices", VRef 8%nat)]
          = Some v -> assoc key merged = Some v) /\
      (forall key,
          assoc key [("x", VStr "10px"); ("width", VStr "4px");
                     ("height", VNum (fin 1)); ("vertices", VRef 8%nat)]
          = None -> inherited key = false ->
          assoc key merged = assoc key randomImpulse_defaults)).
Proof.
  apply (options_object_after_call (fun _ _ _ => (VUndef, VUndef))
           example_world 20%nat _ 2
           (mkB2DWorld (VRef 24%nat) (VBool true) [] true [] 0%nat)
           VUndef []).
  - reflexivity.
  - split; [reflexivity |]. exists 0%nat. eexists.
    repeat split; try reflexivity. lia.
Defined.

(** C10, as stated, fails for addBody: after
    [addBody({x: '10px', width: '4px', height: 1, vertices: [...]})] has
    returned a body, the caller's object still holds ['10px'] and ['4px'],
    and its shape is the default ['box'], not ['polygon']. *)
Lemma addBody_keeps_caller_distances :
  fst (addBody [VRef 20%nat] example_world) = Ok (VRef 30%nat) /\
  exists after,
    st_heap (snd (addBody [VRef 20%nat] example_world)) !! 20%nat
    = Some (HObj after) /\
    prop after "x" = VStr "10px" /\ prop after "width" = VStr "4px" /\
    prop after "shape" = VStr "box" /\
    prop after "x" <> VNum (fin (10 / 2)) /\
    prop after "shape" <> VStr "polygon".
Proof.
  split; [reflexivity |]. eexists. split; [vm_compute; reflexivity |].
  repeat split; try reflexivity; vm_compute; discriminate.
Qed.

(** ** Gravity *)

(** C7. Called with a vector object, gravity gives the engine a new vector
    in which every axis that the object leaves out (or holds as undefined or
    null) has the current value and every other axis has the value the
    object gives for it; a call without argument then returns that vector.
    So gravity({x: 5}) on gravity (0, 9.8) leaves (5, 9.8). *)
Theorem gravity_partial_update (st : state) (w : B2DWorld) (lg l : loc)
    (cx cy : value) (props : list (string * value)) :
  world st = Some w -> m_gravity w = VRef lg ->
  st_heap st !! lg = Some (HVec2 cx cy) ->
  st_heap st !! l = Some (HObj props) ->
  fst (gravity [VRef l] st) = Ok VUndef /\
  exists lg' nx ny,
    fst (gravity [] (snd (gravity [VRef l] st))) = Ok (VRef lg') /\
    st_heap (snd (gravity [VRef l] st)) !! lg' = Some (HVec2 nx ny) /\
    nx = updated_axis (assoc "x" props) cx /\
    ny = updated_axis (assoc "y" props) cy /\
    (assoc "x" props = None -> nx = cx) /\
    (assoc "y" props = None -> ny = cy) /\
    (forall v, assoc "x" props = Some v -> v <> VUndef -> v <> VNull ->
               nx = v) /\
    (forall v, assoc "y" props = Some v -> v <> VUndef -> v <> VNull ->
               ny = v) /\
    (forall v, assoc "x" props = Some v -> v = VUndef \/ v = VNull ->
               nx = cx) /\
    (forall v, assoc "y" props = Some v -> v = VUndef \/ v = VNull ->
               ny = cy).
Proof.
  intros Hw Hg Hlg Hl. destruct st as [h s bs wo]. simpl in *. subst wo.
  assert (gravity [VRef l] (mkState h s bs (Some w))
          = (Ok VUndef,
             mkState (h ++ [HVec2 (updated_axis (assoc "x" props) cx)
                                  (updated_axis (assoc "y" props) cy)])
               s bs
               (Some (mkB2DWorld (VRef (length h)) (m_allowSleep w)
                        (m_bodyList w) (m_contactListener w) (m_steps w)
                        (m_clearForces w))))) as Hset.
  { unfold gravity. cbv zeta.
    change (arg 0 [VRef l]) with (VRef l).
    erewrite bind_Ok by reflexivity. rewrite Hg. cbn [to_boolean negb].
    erewrite bind_Ok; [|by apply getp_prop].
    erewrite (bind_Ok _ _ _ _ (updated_axis (assoc "x" props) cx)); last first.
    { unfold prop, updated_axis. destruct (assoc "x" props) as [v|]; simpl.
      - destruct (eq_undefined v); [|done].
        unfold getp, read, get. st_simpl. by rewrite Hlg.
      - unfold getp, read, get. st_simpl. by rewrite Hlg. }
    erewrite bind_Ok; [|by apply getp_prop].
    erewrite (bind_Ok _ _ _ _ (updated_axis (assoc "y" props) cy)); last first.
    { unfold prop, updated_axis. destruct (assoc "y" props) as [v|]; simpl.
      - destruct (eq_undefined v); [|done].
        unfold getp, read, get. st_simpl. by rewrite Hlg.
      - unfold getp, read, get. st_simpl. by rewrite Hlg. }
    reflexivity. }
  rewrite Hset. split; [done |].
  exists (length h), (updated_axis (assoc "x" props) cx),
    (updated_axis (assoc "y" props) cy).
  split; [reflexivity |]. split; [st_simpl; apply lookup_snoc |].
  split; [reflexivity |]. split; [reflexivity |].
  split; [by intros -> |]. split; [by intros -> |].
  split; [|split; [|split]].
  - intros v -> H1 H2. unfold updated_axis. destruct v; cbn; congruence.
  - intros v -> H1 H2. unfold updated_axis. destruct v; cbn; congruence.
  - by intros v -> [-> | ->].
  - by intros v -> [-> | ->].
Qed.

Lemma gravity_partial_update_witness :
  fst (gravity [VRef 6%nat] example_world) = Ok VUndef /\
  exists lg',
    fst (gravity [] (snd (gravity [VRef 6%nat] example_world))) = Ok (VRef lg') /\
    st_heap (snd (gravity [VRef 6%nat] example_world)) !! lg'
    = Some (HVec2 (VNum (fin 5)) (VNum (fin (98 # 10)))).
Proof.
  destruct (gravity_partial_update example_world
              (mkB2DWorld (VRef 24%nat) (VBool true) [] true [] 0%nat)
              24%nat 6%nat (VNum (fin 0)) (VNum (fin (98 # 10)))
              [("x", VNum (fin 5))])
    as (Hset & lg' & nx & ny & Hget & Hvec & _ & _ & _ & Hy & Hx & _);
    [reflexivity | reflexivity | reflexivity | reflexivity |].
  split; [exact Hset |]. exists lg'. split; [exact Hget |].
  rewrite Hvec.
  rewrite (Hx (VNum (fin 5)) eq_refl); [| discriminate | discriminate].
  by rewrite (Hy eq_refl).
Defined.

(** The example of the claim: on a world with gravity {0, 9.8},
    [gravity({x: 5})] makes [gravity()] return {5, 9.8}. *)
Example gravity_x_5 :
  exists lg',
    fst (gravity [] (snd (gravity [VRef 6%nat] example_world))) = Ok (VRef lg') /\
    st_heap (snd (gravity [VRef 6%nat] example_world)) !! lg'
    = Some (HVec2 (VNum (fin 5)) (VNum (fin (98 # 10)))).
Proof. exists 25%nat. split; reflexivity. Qed.

(** ** Vertex encodings *)

(** C4. The three documented encodings of the points (1, 2), (3, 4), (5, 6)
    do not give the same polygon: only the array of pairs passes the
    coordinates on; from the array of records addBody passes three vectors
    of undefined coordinates, and from the flat sequence six. *)
Theorem vertex_encodings_differ :
  created_shapes (addBody [VRef 7%nat] example_world)
  = Some [SetAsArray [(VNum (fin 1), VNum (fin 2)); (VNum (fin 3), VNum (fin 4));
                      (VNum (fin 5), VNum (fin 6))] 3] /\
  created_shapes (addBody [VRef 12%nat] example_world)
  = Some [SetAsArray [(VUndef, VUndef); (VUndef, VUndef); (VUndef, VUndef)] 3] /\
  created_shapes (addBody [VRef 17%nat] example_world)
  = Some [SetAsArray [(VUndef, VUndef); (VUndef, VUndef); (VUndef, VUndef);
                      (VUndef, VUndef); (VUndef, VUndef); (VUndef, VUndef)] 6].
Proof. repeat split; vm_compute; reflexivity. Qed.

(** ** Pixel strings with text after them, and strings without [px] *)

Lemma px_head (px rest : string) :
  is_px px = true ->
  exists p x, px +:+ rest = String p (String x rest) /\
    ((Ascii.eqb p "p" || Ascii.eqb p "P")
     && (Ascii.eqb x "x" || Ascii.eqb x "X"))%char = true /\
    in_class p = false /\ is_ws p = false.
Proof.
  intros Hpx. destruct (is_px_inv px Hpx) as (p & x & -> & Hp & Hx).
  exists p, x. split; [reflexivity |].
  by destruct Hp as [-> | ->], Hx as [-> | ->].
Qed.

Lemma take_class_ws_px_rest (ws px rest : string) :
  all_ws ws = true -> is_px px = true ->
  take_class (ws +:+ px +:+ rest) = (EmptyString, ws +:+ px +:+ rest).
Proof.
  intros Hws Hpx. destruct ws as [|c ws].
  - rewrite append_nil.
    destruct (px_head px rest Hpx) as (p & x & -> & _ & Hp & _).
    simpl. by rewrite Hp.
  - simpl in Hws. apply andb_true_iff in Hws as [Hc _].
    rewrite append_cons. simpl. by rewrite (ws_not_class c Hc).
Qed.

Lemma skip_ws_px_rest (ws px rest : string) :
  all_ws ws = true -> is_px px = true ->
  skip_ws (ws +:+ px +:+ rest) = px +:+ rest.
Proof.
  intros Hws Hpx. rewrite (skip_ws_all ws _ Hws).
  destruct (px_head px rest Hpx) as (p & x & -> & _ & _ & Hp).
  simpl. by rewrite Hp.
Qed.

Lemma literal_nonempty (neg : bool) (ints : list Z) (dot : bool)
    (fracs : list Z) :
  well_formed ints dot fracs -> literal neg ints dot fracs <> EmptyString.
Proof.
  intros Hwf. unfold literal. destruct neg; [done |]. rewrite append_nil.
  destruct (unsigned_literal_head ints dot fracs EmptyString Hwf)
    as (c & r & E & _). rewrite append_empty_r in E. by rewrite E.
Qed.

(** The pattern matches a pixel string from its first character and leaves
    over whatever follows the unit. *)
Lemma search_pixel_string_rest (ws1 : string) (neg : bool) (ints : list Z)
    (dot : bool) (fracs : list Z) (ws2 px rest : string) :
  all_ws ws1 = true -> well_formed ints dot fracs ->
  all_ws ws2 = true -> is_px px = true ->
  search true (ws1 +:+ literal neg ints dot fracs +:+ ws2 +:+ px +:+ rest)
  = Some (EmptyString, literal neg ints dot fracs, rest).
Proof.
  intros H1 Hwf H2 Hpx. apply search_here. unfold match_here.
  rewrite (skip_ws_all _ _ H1), (skip_ws_literal _ _ _ _ _ Hwf).
  rewrite (take_class_app _ _ (all_class_literal neg _ _ _ Hwf)
             (take_class_ws_px_rest _ _ rest H2 Hpx)).
  rewrite (skip_ws_px_rest _ _ rest H2 Hpx).
  pose proof (literal_nonempty neg ints dot fracs Hwf) as Hne.
  destruct (literal neg ints dot fracs); [done |].
  destruct (px_head px rest Hpx) as (p & x & -> & Hp & _). by rewrite Hp.
Qed.

Lemma has_px_step (c x : ascii) (r : string) :
  has_px (String c (String x r))
  = ((Ascii.eqb c "p" || Ascii.eqb c "P")
     && (Ascii.eqb x "x" || Ascii.eqb x "X"))%char
    || has_px (String x r).
Proof. reflexivity. Qed.

Lemma has_px_app_r (a t : string) :
  has_px t = true -> has_px (a +:+ t) = true.
Proof.
  intros Ht. induction a as [|c a IH]; [done |].
  rewrite append_cons. destruct (a +:+ t) as [|x r]; [done |].
  rewrite has_px_step, IH. apply orb_true_r.
Qed.

Lemma has_px_tail (c : ascii) (s : string) :
  has_px (String c s) = false -> has_px s = false.
Proof.
  intros H. destruct (has_px s) eqn:E; [|done].
  pose proof (has_px_app_r (String c EmptyString) s E) as H'.
  rewrite append_cons, append_nil in H'. by rewrite H' in H.
Qed.

Lemma skip_ws_suffix (s : string) : exists a, s = a +:+ skip_ws s.
Proof.
  induction s as [|c s [a IH]]; [by exists EmptyString |].
  simpl. destruct (is_ws c).
  - exists (String c a). by rewrite append_cons, <- IH.
  - by exists EmptyString.
Qed.

Lemma take_class_split (s : string) :
  s = fst (take_class s) +:+ snd (take_class s).
Proof.
  induction s as [|c s IH]; [done |].
  simpl. destruct (in_class c); [|done].
  destruct (take_class s) as [g rest]. simpl in *.
  by rewrite append_cons, <- IH.
Qed.

(** The pattern needs the unit: it matches nowhere in a string without it. *)
Lemma match_here_needs_px (s : string) :
  has_px s = false -> match_here s = None.
Proof.
  intros H. unfold match_here.
  destruct (take_class (skip_ws s)) as [g s2] eqn:E.
  destruct g as [|g0 g]; [done |].
  destruct (skip_ws s2) as [|p [|x rest]] eqn:E2; try done.
  destruct ((Ascii.eqb p "p" || Ascii.eqb p "P")
            && (Ascii.eqb x "x" || Ascii.eqb x "X"))%char eqn:Epx; [|done].
  exfalso.
  assert (has_px (skip_ws s2) = true) as H2.
  { rewrite E2, has_px_step. by rewrite Epx. }
  destruct (skip_ws_suffix s2) as [a2 Ha2].
  destruct (skip_ws_suffix s) as [a Ha].
  pose proof (take_class_split (skip_ws s)) as Hs. rewrite E in Hs.
  simpl in Hs.
  assert (has_px s = true) as Hs'; [| by rewrite Hs' in H].
  rewrite Ha. apply has_px_app_r. rewrite Hs. apply has_px_app_r.
  rewrite Ha2. by apply has_px_app_r.
Qed.

Lemma search_needs_px (s : string) (line_start : bool) :
  has_px s = false -> search line_start s = None.
Proof.
  revert line_start. induction s as [|c s IH]; intros b H.
  - simpl. destruct b; [|done]. by rewrite (match_here_needs_px _ H).
  - cbn [search].
    assert ((if b then match_here (String c s) else None) = None) as ->.
    { destruct b; [|done]. by apply match_here_needs_px. }
    by rewrite (IH _ (has_px_tail c s H)).
Qed.

Lemma all_class_no_px (a : string) : all_class a = true -> has_px a = false.
Proof.
  induction a as [|c a IH]; [done |]. intros H. simpl in H.
  apply andb_true_iff in H as [Hc Ha]. destruct a as [|c2 r]; [done |].
  rewrite has_px_step, (IH Ha).
  destruct (class_not_p c Hc) as (-> & _). done.
Qed.

Lemma num_div_nonzero (q r : Q) :
  ~ (r == 0)%Q -> num_div (fin q) (Fin r) = fin (q / r).
Proof.
  intros Hr. unfold num_div, fin at 1, Qsign.
  destruct (Qnum r ?= 0)%Z eqn:E.
  - apply Z.compare_eq in E. destruct Hr. unfold Qeq. simpl. lia.
  - apply fin_eq. by rewrite (Qred_correct q).
  - apply fin_eq. by rewrite (Qred_correct q).
Qed.

Lemma num_mul_div_nonzero (n r : Q) :
  ~ (r == 0)%Q -> num_mul (fin (n / r)) (Fin r) = fin n.
Proof.
  intros Hr. unfold num_mul, fin at 1. apply fin_eq.
  rewrite (Qred_correct (n / r)). field. exact Hr.
Qed.

Lemma num_div_mul_nonzero (n r : Q) :
  ~ (r == 0)%Q -> num_div (num_mul (fin n) (Fin r)) (Fin r) = fin n.
Proof.
  intros Hr. unfold num_mul, fin at 1.
  rewrite (num_div_nonzero _ r Hr). apply fin_eq.
  rewrite (Qred_correct n). field. exact Hr.
Qed.

Lemma num_div_zero (q : Q) : num_div (fin q) (Fin 0) = inf_of_sign (Qsign q).
Proof.
  unfold num_div, fin. change (Qsign 0) with Eq. cbv iota.
  f_equal. unfold Qsign.
  pose proof (Qred_correct q) as H. unfold Qeq in H.
  destruct (Qred q) as [a b], q as [c d]. simpl in *.
  destruct (Z.compare_spec a 0), (Z.compare_spec c 0); try done; nia.
Qed.

Lemma num_div_by_zero (q r : Q) :
  (r == 0)%Q -> num_div (fin q) (Fin r) = inf_of_sign (Qsign q).
Proof.
  intros Hr. unfold num_div, fin.
  assert (Qsign r = Eq) as ->.
  { unfold Qsign. unfold Qeq in Hr. simpl in Hr. apply Z.compare_eq_iff. lia. }
  f_equal. unfold Qsign.
  pose proof (Qred_correct q) as H. unfold Qeq in H.
  destruct (Qred q) as [a b], q as [c d]. simpl in *.
  destruct (Z.compare_spec a 0), (Z.compare_spec c 0); try done; nia.
Qed.

Lemma Qsign_cases (q : Q) :
  ((0 < q)%Q -> Qsign q = Gt) /\ ((q < 0)%Q -> Qsign q = Lt) /\
  ((q == 0)%Q -> Qsign q = Eq).
Proof.
  unfold Qsign, Qlt, Qeq. destruct q as [a b]. simpl.
  repeat split; intros H.
  - apply Z.compare_gt_iff. lia.
  - apply Z.compare_lt_iff. lia.
  - apply Z.compare_eq_iff. lia.
Qed.

Lemma toMeters_eq (st : state) (r : Q) (a : number) :
  has_drawRatio st r ->
  toMeters (VNum a) st = (Ok (VNum (num_div a (Fin r))), st).
Proof.
  intros H. unfold toMeters, bind, read. by rewrite (drawRatio_eq st r H).
Qed.

Lemma parsePixels_literal_px (st : state) (r : Q) (ws1 : string) (neg : bool)
    (ints : list Z) (dot : bool) (fracs : list Z) (ws2 px rest : string) :
  has_drawRatio st r ->
  all_ws ws1 = true -> well_formed ints dot fracs ->
  all_ws ws2 = true -> is_px px = true -> continues rest = false ->
  parsePixels
    (VStr (ws1 +:+ literal neg ints dot fracs +:+ ws2 +:+ px +:+ rest)) st
  = (Ok (VNum (num_div (fin (literal_value neg ints fracs)) (Fin r))), st).
Proof.
  intros Hr H1 Hwf H2 Hpx Hrest.
  rewrite (parsePixels_matched st r _ _ _ _ Hr
             (search_pixel_string_rest ws1 neg ints dot fracs ws2 px rest
                H1 Hwf H2 Hpx)).
  pose proof (parseFloat_literal neg ints dot fracs EmptyString Hwf I) as Hlit.
  rewrite append_empty_r in Hlit.
  rewrite Hlit, num_mul_one. cbn [parseFloat_replaced all_ws andb].
  by rewrite Hrest.
Qed.

(** X1. Whatever follows the unit is left out of the result, as long as it
    does not begin like more of a number (a digit, a point, an exponent
    mark): for every draw ratio other than zero, negative ones included,
    parsePixels returns the literal divided by the draw ratio. *)
Theorem parsePixels_ignores_text_after_unit (st : state) (r : Q)
    (ws1 : string) (neg : bool) (ints : list Z) (dot : bool) (fracs : list Z)
    (ws2 px rest : string) :
  has_drawRatio st r -> ~ (r == 0)%Q ->
  all_ws ws1 = true -> well_formed ints dot fracs ->
  all_ws ws2 = true -> is_px px = true -> continues rest = false ->
  parsePixels
    (VStr (ws1 +:+ literal neg ints dot fracs +:+ ws2 +:+ px +:+ rest)) st
  = (Ok (VNum (fin (literal_value neg ints fracs / r))), st).
Proof.
  intros Hr Hnz H1 Hwf H2 Hpx Hrest.
  rewrite (parsePixels_literal_px st r ws1 neg ints dot fracs ws2 px rest
             Hr H1 Hwf H2 Hpx Hrest).
  by rewrite (num_div_nonzero _ r Hnz).
Qed.

Lemma parsePixels_ignores_text_after_unit_witness :
  parsePixels
    (VStr (EmptyString +:+ literal true [1; 0] false [] +:+ " " +:+ "Px"
           +:+ " solid"))
    example_world
  = (Ok (VNum (fin (literal_value true [1; 0] [] / 2))), example_world).
Proof.
  apply (parsePixels_ignores_text_after_unit example_world 2 EmptyString true
           [1; 0] false [] " " "Px" " solid"); try reflexivity.
  - discriminate.
  - unfold well_formed, is_digits. repeat split; [| |discriminate];
      repeat constructor; lia.
Defined.

(** X2. A string in which px does not occur is never rescaled by
    parsePixels: the result is parseFloat of the string, so a bare numeric
    string counts as meters. toMeters on the same string divides by the draw
    ratio. *)
Theorem string_without_unit_is_meters (st : state) (r : Q) :
  has_drawRatio st r ->
  (forall s, has_px s = false ->
             parsePixels (VStr s) st = (Ok (VNum (parseFloat s)), st)) /\
  (forall neg ints dot fracs,
      well_formed ints dot fracs ->
      parsePixels (VStr (literal neg ints dot fracs)) st
      = (Ok (VNum (fin (literal_value neg ints fracs))), st) /\
      (~ (r == 0)%Q ->
       toMeters (VStr (literal neg ints dot fracs)) st
       = (Ok (VNum (fin (literal_value neg ints fracs / r))), st))).
Proof.
  intros Hr.
  assert (forall s, has_px s = false ->
                    parsePixels (VStr s) st = (Ok (VNum (parseFloat s)), st))
    as Hplain.
  { intros s Hs. rewrite (parsePixels_pure st r _ Hr).
    by rewrite (parse_pixels_unmatched r s (search_needs_px s true Hs)). }
  split; [exact Hplain |].
  intros neg ints dot fracs Hwf.
  pose proof (all_class_no_px _ (all_class_literal neg _ _ _ Hwf)) as Hno.
  pose proof (parseFloat_literal neg ints dot fracs EmptyString Hwf I) as Hlit.
  rewrite append_empty_r in Hlit.
  split.
  - by rewrite (Hplain _ Hno), Hlit.
  - intros Hnz. rewrite (toMeters_string st r _ Hr), (strip_px_absent _ Hno).
    destruct (string_to_number_literal neg ints dot fracs "px" Hwf eq_refl)
      as [-> _].
    by rewrite (num_div_nonzero _ r Hnz).
Qed.

Lemma string_without_unit_is_meters_witness :
  (forall s, has_px s = false ->
             parsePixels (VStr s) example_world
             = (Ok (VNum (parseFloat s)), example_world)) /\
  (forall neg ints dot fracs,
      well_formed ints dot fracs ->
      parsePixels (VStr (literal neg ints dot fracs)) example_world
      = (Ok (VNum (fin (literal_value neg ints fracs))), example_world) /\
      (~ (2 == 0)%Q ->
       toMeters (VStr (literal neg ints dot fracs)) example_world
       = (Ok (VNum (fin (literal_value neg ints fracs / 2))), example_world))).
Proof. apply (string_without_unit_is_meters example_world 2). reflexivity. Defined.

(** X4. For a draw ratio other than zero, toPixels and toMeters undo each
    other on every finite number. *)
Theorem toPixels_toMeters_inverse (st : state) (r q : Q) :
  has_drawRatio st r -> ~ (r == 0)%Q ->
  (let* p := toPixels (VNum (fin q)) in toMeters p) st
  = (Ok (VNum (fin q)), st) /\
  (let* m := toMeters (VNum (fin q)) in toPixels m) st
  = (Ok (VNum (fin q)), st).
Proof.
  intros Hr Hnz. split.
  - rewrite (bind_Ok _ _ _ _ _ (toPixels_eq st r (VNum _) _ Hr eq_refl)).
    rewrite (toMeters_eq st r _ Hr).
    by rewrite (num_div_mul_nonzero q r Hnz).
  - rewrite (bind_Ok _ _ _ _ _ (toMeters_eq st r _ Hr)).
    rewrite (toPixels_eq st r (VNum _) _ Hr eq_refl).
    by rewrite (num_div_nonzero q r Hnz), (num_mul_div_nonzero q r Hnz).
Qed.

Lemma toPixels_toMeters_inverse_witness :
  (let* p := toPixels (VNum (fin (7 # 3))) in toMeters p) example_world
  = (Ok (VNum (fin (7 # 3))), example_world) /\
  (let* m := toMeters (VNum (fin (7 # 3))) in toPixels m) example_world
  = (Ok (VNum (fin (7 # 3))), example_world).
Proof.
  apply (toPixels_toMeters_inverse example_world 2 (7 # 3));
    [reflexivity | discriminate].
Defined.

Lemma Qsign_compare (q : Q) : Qsign q = (q ?= 0)%Q.
Proof.
  unfold Qsign, Qcompare. destruct q as [a b]. simpl.
  by rewrite Z.mul_1_r.
Qed.

(** X3. With a draw ratio of zero nothing fails: parsePixels and toMeters
    turn a pixel string into Infinity when the literal is positive, into
    -Infinity when it is negative, and into NaN when it is zero. *)
Theorem zero_drawRatio_gives_infinity (st : state) (r : Q) (neg : bool)
    (ints : list Z) (dot : bool) (fracs : list Z) (px : string) :
  has_drawRatio st r -> (r == 0)%Q ->
  well_formed ints dot fracs -> is_px px = true ->
  let x := match (literal_value neg ints fracs ?= 0)%Q with
           | Gt => PInf
           | Lt => NInf
           | Eq => NaN
           end in
  parsePixels (VStr (literal neg ints dot fracs +:+ px)) st = (Ok (VNum x), st) /\
  toMeters (VStr (literal neg ints dot fracs +:+ px)) st = (Ok (VNum x), st).
Proof.
  intros Hr Hz Hwf Hpx x.
  assert (num_div (fin (literal_value neg ints fracs)) (Fin r) = x) as Hx.
  { rewrite (num_div_by_zero _ r Hz), Qsign_compare. reflexivity. }
  split.
  - pose proof (parsePixels_literal_px st r EmptyString neg ints dot fracs
                  EmptyString px EmptyString Hr eq_refl Hwf eq_refl Hpx eq_refl)
      as H.
    rewrite !append_nil, append_empty_r in H. by rewrite H, Hx.
  - rewrite (toMeters_string st r _ Hr).
    rewrite (strip_px_literal _ px (all_class_literal neg _ _ _ Hwf) Hpx).
    destruct (string_to_number_literal neg ints dot fracs px Hwf Hpx)
      as [-> _].
    by rewrite Hx.
Qed.

Lemma zero_drawRatio_gives_infinity_witness :
  parsePixels (VStr (literal true [1; 0] false [] +:+ "px")) flat_world
  = (Ok (VNum NInf), flat_world) /\
  toMeters (VStr (literal true [1; 0] false [] +:+ "px")) flat_world
  = (Ok (VNum NInf), flat_world).
Proof.
  apply (zero_drawRatio_gives_infinity flat_world 0 true [1; 0] false [] "px");
    try reflexivity.
  unfold well_formed, is_digits. repeat split; [| |discriminate];
    repeat constructor; lia.
Defined.

(** ** [merge], again *)

Lemma fst_assoc (k : string) (props : list (string * value)) :
  k ∈ fst <$> props -> exists v, assoc k props = Some v.
Proof.
  induction props as [|[k' v'] props IH]; simpl.
  - by rewrite elem_of_nil.
  - rewrite elem_of_cons. intros H. destruct (String.eqb k k') eqn:E; [eauto |].
    destruct H as [-> | H]; [by rewrite String.eqb_refl in E | by apply IH].
Qed.

(** Only own properties are enumerated. *)
Lemma own_keys_sound (k : string) (props : list (string * value)) :
  k ∈ own_keys props -> exists v, assoc k props = Some v.
Proof.
  unfold own_keys. rewrite elem_of_app. intros [H | H]; apply fst_assoc.
  - apply list_elem_of_fmap in H as (n & -> & H).
    apply (proj1 (elem_of_sorted _ _)) in H.
    apply (proj1 (list_elem_of_omap _ _ _)) in H as (k' & Hk' & E).
    by rewrite (array_index_canonical k' n E).
  - by apply list_elem_of_filter in H as [_ H].
Qed.

Lemma fold_merge_settled (d : list (string * value)) (keys : list string)
    (acc : list (string * value)) :
  (forall k, k ∈ keys -> assoc k acc <> None \/ inherited k = true) ->
  fold_left (merge_step d) keys acc = acc.
Proof.
  induction keys as [|k keys IH]; intros H; [done |].
  cbn [fold_left].
  assert (merge_step d acc k = acc) as ->.
  { unfold merge_step. destruct (assoc k d); [|done].
    destruct (H k) as [Hk | Hk]; [by left | |].
    - by destruct (assoc k acc).
    - destruct (assoc k acc); [done |]. by rewrite Hk. }
  apply IH. intros k' Hk'. apply H. by right.
Qed.

(** Merging the same defaults again changes nothing. *)
Lemma merge_props_idempotent (d props : list (string * value)) :
  merge_props d (merge_props d props) = merge_props d props.
Proof.
  unfold merge_props at 1. apply fold_merge_settled. intros k Hk.
  destruct (own_keys_sound k d Hk) as [v Hv].
  destruct (assoc k props) as [x|] eqn:E.
  - left. by rewrite (merge_props_provided d props k x E).
  - destruct (inherited k) eqn:Ei; [by right |]. left.
    by rewrite (merge_props_omitted d props k E Ei), Hv.
Qed.

Lemma bind_Throw {A B} (m : M A) (k : A -> M B) (st st' : state) (e : error) :
  m st = (Throw e, st') -> bind m k st = (Throw e, st').
Proof. intros H. unfold bind. by rewrite H. Qed.

Lemma merge_primitive (st : state) (ld : loc) (dprops : list (string * value))
    (v : value) :
  st_heap st !! ld = Some (HObj dprops) ->
  assoc "hasOwnProperty" dprops = None -> dprops <> [] ->
  is_primitive v = true ->
  merge (VRef ld) v st = (Throw TypeError, st).
Proof.
  intros Hld Hshadow Hne Hv. unfold merge, map.
  assert (exists k ks, own_keys dprops = k :: ks) as (k & ks & Hks).
  { destruct dprops as [|[k0 v0] dprops]; [done |].
    assert (k0 ∈ own_keys ((k0, v0) :: dprops)) as Hin.
    { apply (own_keys_complete k0 v0). simpl. by rewrite String.eqb_refl. }
    destruct (own_keys ((k0, v0) :: dprops)) as [|k ks]; [|eauto].
    by apply elem_of_nil in Hin. }
  destruct (own_keys_sound k dprops) as [d Hd]; [rewrite Hks; by left |].
  assert (read (fun h => own_property h (VRef ld) k) st
          = (Ok (Some d), st)) as Hown.
  { unfold read, own_property. by rewrite Hld, Hshadow, Hd. }
  apply bind_Throw.
  erewrite bind_Ok; last first.
  { unfold read, enum_keys. by rewrite Hld, Hks. }
  cbn [map_loop]. rewrite (bind_Ok _ _ _ _ _ Hown).
  apply bind_Throw. unfold merge_callback. rewrite (bind_Ok _ _ _ _ _ Hown).
  apply bind_Throw. unfold read, has_property. by destruct v.
Qed.

(** X5. On two ordinary objects merge returns its second argument, leaves
    the defaults object as it was, and is idempotent: merging the same
    defaults a second time changes nothing. *)
Theorem merge_is_idempotent (st : state) (ld ls : loc)
    (dprops sprops : list (string * value)) :
  st_heap st !! ld = Some (HObj dprops) ->
  st_heap st !! ls = Some (HObj sprops) ->
  ld <> ls -> assoc "hasOwnProperty" dprops = None ->
  let st1 := snd (merge (VRef ld) (VRef ls) st) in
  fst (merge (VRef ld) (VRef ls) st) = Ok (VRef ls) /\
  st_heap st1 !! ld = Some (HObj dprops) /\
  merge (VRef ld) (VRef ls) st1 = (Ok (VRef ls), st1).
Proof.
  intros Hld Hls Hne Hshadow st1. subst st1.
  rewrite (merge_ok st ld ls dprops sprops Hld Hls Hne Hshadow).
  cbn [fst snd]. split; [done |].
  assert (ls < length (st_heap st))%nat as Hlt by by eapply lookup_lt_Some.
  split.
  - cbn. by rewrite list_lookup_insert_ne.
  - erewrite merge_ok; [| | |done..]; last first.
    + cbn. by apply list_lookup_insert_eq.
    + cbn. by rewrite list_lookup_insert_ne.
    + rewrite merge_props_idempotent. cbn.
      by rewrite list_insert_insert_eq.
Qed.

Lemma merge_is_idempotent_witness :
  let st1 := snd (merge (VRef 2%nat) (VRef 4%nat) example_world) in
  fst (merge (VRef 2%nat) (VRef 4%nat) example_world) = Ok (VRef 4%nat) /\
  st_heap st1 !! 2%nat
  = Some (HObj [("shape", VStr "circle"); ("radius", VStr "50px");
                ("friction", VNum (fin (1 # 10))); ("id", VStr "#circle")]) /\
  merge (VRef 2%nat) (VRef 4%nat) st1 = (Ok (VRef 4%nat), st1).
Proof.
  apply (merge_is_idempotent example_world 2%nat 4%nat
           [("shape", VStr "circle"); ("radius", VStr "50px");
            ("friction", VNum (fin (1 # 10))); ("id", VStr "#circle")]
           [("width", VNum (fin 1)); ("height", VNum (fin 2))]);
    [reflexivity | reflexivity | lia | reflexivity].
Defined.

(** X6. merge tests [key in settings], which also finds what every object
    inherits: a default named like a member of Object.prototype (toString,
    constructor, valueOf, ...) is never copied into settings. *)
Theorem merge_skips_inherited_names (st : state) (ld ls : loc)
    (dprops sprops : list (string * value)) (key : string) :
  st_heap st !! ld = Some (HObj dprops) ->
  st_heap st !! ls = Some (HObj sprops) ->
  ld <> ls -> assoc "hasOwnProperty" dprops = None ->
  inherited key = true -> assoc key sprops = None ->
  exists merged,
    st_heap (snd (merge (VRef ld) (VRef ls) st)) !! ls = Some (HObj merged) /\
    assoc key merged = None.
Proof.
  intros Hld Hls Hne Hshadow Hi Hkey.
  rewrite (merge_ok st ld ls dprops sprops Hld Hls Hne Hshadow).
  exists (merge_props dprops sprops). split.
  - cbn. apply list_lookup_insert_eq. by eapply lookup_lt_Some.
  - apply fold_merge_absent; auto.
Qed.

Lemma merge_skips_inherited_names_witness :
  exists merged,
    st_heap (snd (merge (VRef 0%nat) (VRef 1%nat)
                    (mkState [HObj [("toString", VStr "default"); ("a", VNull)];
                              HObj []] VUndef [] None))) !! 1%nat
    = Some (HObj merged) /\
    assoc "toString" merged = None.
Proof.
  apply (merge_skips_inherited_names
           (mkState [HObj [("toString", VStr "default"); ("a", VNull)]; HObj []]
              VUndef [] None)
           0%nat 1%nat [("toString", VStr "default"); ("a", VNull)] []
           "toString"); try reflexivity.
  lia.
Defined.

(** ** Traversals with any visitor *)

Lemma map_loop_visits (func : visitor) (context : value) (m : nat) :
  forall (k : nat) (st : state),
    (k + m <= length (bodies st))%nat ->
    (N.of_nat (length (bodies st)) <= 4294967295)%N ->
    map_loop (fun key st => (Ok (registry_lookup (bodies st) key), st))
      (call_visitor func) context (List.map index_key (seq k m)) st
    = (fst (visit_all func context k (take m (drop k (bodies st))) (st_heap st)),
       with_heap st
         (snd (visit_all func context k (take m (drop k (bodies st)))
                 (st_heap st)))).
Proof.
  induction m as [|m IH]; intros k st Hk Hlen.
  - cbn. by rewrite with_heap_id.
  - destruct (lookup_lt_is_Some_2 (bodies st) k) as [b Hb]; [lia |].
    rewrite (drop_S _ b k Hb). cbn [seq List.map map_loop take visit_all].
    erewrite bind_Ok; last first.
    { unfold registry_lookup. rewrite array_index_key by lia.
      by rewrite Nat2N.id, Hb. }
    destruct (func (index_key k) b context (st_heap st)) as [o h1] eqn:Ef.
    assert (call_visitor func (index_key k) b context st
            = (o, with_heap st h1)) as Hcall.
    { unfold call_visitor. by rewrite Ef. }
    destruct o as [r| |]; [|unfold bind; by rewrite Hcall..].
    rewrite (bind_Ok _ _ _ _ _ Hcall).
    pose proof (IH (S k) (with_heap st h1)) as IH'.
    cbn [bodies with_heap st_heap] in IH'.
    unfold bind. rewrite IH' by lia.
    by destruct (visit_all func context (S k) (take m (drop (S k) (bodies st)))
                   h1) as [[rs| |] h2].
Qed.

(** X8. iterBodies calls the visitor once for every registered body, in
    the order of creation, with the body's index written as a decimal string
    for key and with the context it was given; the results come back in
    that order, each call sees the heap the one before left, and the first
    exception ends the round. *)
Theorem iterBodies_visits_in_order (func : visitor) (context : value)
    (st : state) :
  (N.of_nat (length (bodies st)) <= 4294967295)%N ->
  iterBodies func context st
  = (fst (visit_all func context 0 (bodies st) (st_heap st)),
     with_heap st (snd (visit_all func context 0 (bodies st) (st_heap st)))).
Proof.
  intros Hlen. unfold iterBodies, index_keys.
  erewrite bind_Ok by reflexivity.
  rewrite (map_loop_visits func context (length (bodies st)) 0 st)
    by (simpl; lia).
  by rewrite drop_0, firstn_all.
Qed.

Lemma iterBodies_visits_in_order_witness :
  iterBodies key_visitor VUndef
    (snd (addBody [VRef 1%nat] (snd (addBody [VRef 2%nat] example_world))))
  = (fst (visit_all key_visitor VUndef 0
            (bodies (snd (addBody [VRef 1%nat]
                            (snd (addBody [VRef 2%nat] example_world)))))
            (st_heap (snd (addBody [VRef 1%nat]
                             (snd (addBody [VRef 2%nat] example_world)))))),
     with_heap
       (snd (addBody [VRef 1%nat] (snd (addBody [VRef 2%nat] example_world))))
       (snd (visit_all key_visitor VUndef 0
               (bodies (snd (addBody [VRef 1%nat]
                               (snd (addBody [VRef 2%nat] example_world)))))
               (st_heap (snd (addBody [VRef 1%nat]
                                (snd (addBody [VRef 2%nat] example_world)))))))).
Proof.
  apply (iterBodies_visits_in_order key_visitor VUndef
           (snd (addBody [VRef 1%nat] (snd (addBody [VRef 2%nat] example_world))))).
  vm_compute. discriminate.
Defined.

Example iterBodies_keys :
  fst (iterBodies key_visitor VUndef
         (snd (addBody [VRef 1%nat] (snd (addBody [VRef 2%nat] example_world)))))
  = Ok [VStr "0"; VStr "1"].
Proof. vm_compute. reflexivity. Qed.

(** ** Options that are not objects *)

Lemma fst_of_pair {A B} (x : A * B) (a : A) (b : B) : x = (a, b) -> fst x = a.
Proof. by intros ->. Qed.

(** X7. An options argument that is not an object (undefined, null, a
    boolean, a number, a string) makes addBody, randomImpulse and the
    constructor throw a TypeError at the first default, [key in settings]
    being undefined on it; so does the constructor without argument. Only the
    defaults literal has been allocated by then: no body is made and none is
    pushed. *)
Theorem primitive_options_are_rejected
    (impulse_vector : value -> value -> value -> value * value)
    (st : state) (h : heap) (v body : value) :
  is_primitive v = true ->
  addBody [v] st
  = (Throw TypeError, with_heap st (st_heap st ++ [HObj addBody_defaults])) /\
  randomImpulse impulse_vector body v st
  = (Throw TypeError,
     with_heap st (st_heap st ++ [HObj randomImpulse_defaults])) /\
  fst (Box2D_world [v] h) = Throw TypeError /\
  fst (Box2D_world [] h) = Throw TypeError.
Proof.
  intros Hv.
  assert (forall (A : Type) v' st0 d (k : value -> M A),
             is_primitive v' = true ->
             d <> [] -> assoc "hasOwnProperty" d = None ->
             (let* defaults := alloc (HObj d) in
              let* x := merge defaults v' in k x) st0
             = (Throw TypeError, with_heap st0 (st_heap st0 ++ [HObj d])))
    as Hmerge.
  { intros A v' st0 d k Hv' Hd Hshadow. erewrite bind_Ok by reflexivity.
    apply bind_Throw. apply (merge_primitive _ _ d); try done.
    cbn. apply lookup_snoc. }
  split; [|split; [|split]].
  - by apply (Hmerge _ v st addBody_defaults).
  - by apply (Hmerge _ v st randomImpulse_defaults).
  - unfold Box2D_world. change (arg 0 [v]) with v.
    do 2 erewrite bind_Ok by reflexivity.
    eapply fst_of_pair. by eapply (Hmerge _ v).
  - unfold Box2D_world. change (arg 0 []) with VUndef.
    do 2 erewrite bind_Ok by reflexivity.
    eapply fst_of_pair. by eapply (Hmerge _ VUndef).
Qed.

Lemma primitive_options_are_rejected_witness :
  addBody [VNull] example_world
  = (Throw TypeError,
     with_heap example_world (st_heap example_world ++ [HObj addBody_defaults])) /\
  randomImpulse (fun _ _ _ => (VUndef, VUndef)) (VRef 0%nat) VNull example_world
  = (Throw TypeError,
     with_heap example_world
       (st_heap example_world ++ [HObj randomImpulse_defaults])) /\
  fst (Box2D_world [VNull] example_heap) = Throw TypeError /\
  fst (Box2D_world [] example_heap) = Throw TypeError.
Proof.
  apply (primitive_options_are_rejected (fun _ _ _ => (VUndef, VUndef))
           example_world example_heap VNull (VRef 0%nat)).
  reflexivity.
Defined.

(** ** The constructor *)

(** The constructor up to its second half: the defaults are merged into the
    caller's settings object. *)
Lemma Box2D_world_merged (h : heap) (l : loc) (props : list (string * value)) :
  h !! l = Some (HObj props) ->
  Box2D_world [VRef l] h
  = (let* sg := getp (VRef l) "gravity" in
     let* gx := getp sg "x" in
     let* gy := getp sg "y" in
     let* v := new_Vec2 gx gy in
     let* ignoreStatic := getp (VRef l) "ignoreStatic" in
     put_world (mkB2DWorld v ignoreStatic [] true [] 0))
      (mkState
         (<[l := HObj (merge_props (world_defaults (length h)) props)]> h
          ++ [HObj default_gravity; HObj (world_defaults (length h))])
         (VRef l) [] None).
Proof.
  intros Hl. assert (l < length h)%nat as Hlt by by eapply lookup_lt_Some.
  unfold Box2D_world. change (arg 0 [VRef l]) with (VRef l).
  do 3 erewrite bind_Ok by reflexivity.
  st_simpl. rewrite length_app. cbn [length]. rewrite Nat.add_1_r.
  rewrite <- (app_assoc h [_] [_]). cbn [app].
  erewrite bind_Ok; last first.
  { apply (merge_ok _ (S (length h)) l (world_defaults (length h)) props).
    - cbn. rewrite lookup_app_r by lia.
      by replace (S (length h) - length h)%nat with 1%nat by lia.
    - cbn. by rewrite lookup_app_l.
    - lia.
    - reflexivity. }
  st_simpl. by rewrite insert_app_l.
Qed.

Lemma Box2D_world_constructed (h : heap) (l : loc)
    (props : list (string * value)) (gx gy : value) :
  h !! l = Some (HObj props) ->
  let merged := merge_props (world_defaults (length h)) props in
  let h1 := <[l := HObj merged]> h
            ++ [HObj default_gravity; HObj (world_defaults (length h))] in
  get h1 (prop merged "gravity") "x" = Ok gx ->
  get h1 (prop merged "gravity") "y" = Ok gy ->
  Box2D_world [VRef l] h = (Ok tt, constructed h l merged gx gy).
Proof.
  intros Hl merged h1 Hx Hy.
  assert (l < length h)%nat as Hlt by by eapply lookup_lt_Some.
  assert (h1 !! l = Some (HObj merged)) as Hl1.
  { unfold h1. rewrite lookup_app_l by by rewrite length_insert.
    by apply list_lookup_insert_eq. }
  rewrite (Box2D_world_merged h l props Hl). fold merged. fold h1.
  erewrite bind_Ok; [|by apply (getp_prop _ l merged)].
  erewrite bind_Ok; [|unfold getp, read; cbn [st_heap]; by rewrite Hx].
  erewrite bind_Ok; [|unfold getp, read; cbn [st_heap]; by rewrite Hy].
  erewrite bind_Ok by reflexivity.
  erewrite bind_Ok; last first.
  { apply (getp_prop _ l merged); [|done]. cbn.
    rewrite lookup_app_l; [done |].
    unfold h1. rewrite length_app, length_insert. simpl. lia. }
  unfold put_world, with_world, constructed. cbn.
  unfold h1. rewrite length_app, length_insert. simpl.
  by rewrite <- (app_assoc _ [_; _] [_]).
Qed.

(** X9. For a settings object without gravity the constructor writes the
    missing defaults into the caller's object and leaves a world with no
    bodies, whose draw ratio is the given one or 1, whose gravity vector is
    (0, 9.8) and whose second engine argument is the given ignoreStatic or
    true. *)
Theorem constructor_fills_defaults (h : heap) (l : loc)
    (props : list (string * value)) :
  h !! l = Some (HObj props) -> assoc "gravity" props = None ->
  exists st lv,
    Box2D_world [VRef l] h = (Ok tt, st) /\
    bodies st = [] /\
    st_heap st !! l
    = Some (HObj (merge_props (world_defaults (length h)) props)) /\
    fst (drawRatio st) = Ok (default (VNum (fin 1)) (assoc "drawRatio" props)) /\
    world st
    = Some (mkB2DWorld (VRef lv)
              (default (VBool true) (assoc "ignoreStatic" props)) [] true [] 0) /\
    st_heap st !! lv = Some (HVec2 (VNum (fin 0)) (VNum (fin (98 # 10)))).
Proof.
  intros Hl Hg.
  assert (l < length h)%nat as Hlt by by eapply lookup_lt_Some.
  remember (merge_props (world_defaults (length h)) props) as merged eqn:Hm.
  assert (forall key d,
             assoc key (world_defaults (length h)) = Some d ->
             inherited key = false ->
             prop merged key = default d (assoc key props)) as Hprop.
  { intros key d Hd Hi. unfold prop. rewrite Hm.
    destruct (assoc key props) as [v|] eqn:E.
    - by rewrite (merge_props_provided _ props key v E).
    - by rewrite (merge_props_omitted _ props key E Hi), Hd. }
  assert (prop merged "gravity" = VRef (length h)) as Hsg.
  { rewrite (Hprop "gravity" (VRef (length h))); [by rewrite Hg | done..]. }
  assert (forall key,
             get (<[l := HObj merged]> h
                  ++ [HObj default_gravity; HObj (world_defaults (length h))])
               (prop merged "gravity") key
             = get [HObj default_gravity] (VRef 0%nat) key) as Hget.
  { intros key. rewrite Hsg. unfold get.
    rewrite lookup_app_r by by rewrite length_insert.
    rewrite length_insert. by replace (length h - length h)%nat with 0%nat by lia. }
  exists (constructed h l merged (VNum (fin 0)) (VNum (fin (98 # 10)))),
    (length h + 2)%nat.
  split; [|split; [|split; [|split; [|split]]]].
  - rewrite Hm in *.
    apply (Box2D_world_constructed h l props); [done | by rewrite Hget..].
  - reflexivity.
  - cbn. rewrite lookup_app_l by by rewrite length_insert.
    by apply list_lookup_insert_eq.
  - assert (st_heap (constructed h l merged (VNum (fin 0)) (VNum (fin (98 # 10))))
            !! l = Some (HObj merged)) as Hl1.
    { cbn. rewrite lookup_app_l by by rewrite length_insert.
      by apply list_lookup_insert_eq. }
    pose proof (getp_prop _ l merged "drawRatio" Hl1 eq_refl) as Hd.
    apply (f_equal fst) in Hd. unfold getp, read in Hd. cbn [fst] in Hd.
    unfold drawRatio. cbn [fst].
    change (settings (constructed h l merged _ _)) with (VRef l).
    etrans; [exact Hd |].
    by rewrite (Hprop "drawRatio" (VNum (fin 1))).
  - cbn. by rewrite (Hprop "ignoreStatic" (VBool true)).
  - cbn. rewrite lookup_app_r by (rewrite length_insert; lia).
    rewrite length_insert.
    by replace (length h + 2 - length h)%nat with 2%nat by lia.
Qed.

Lemma constructor_fills_defaults_witness :
  exists st lv,
    Box2D_world [VRef 0%nat] example_heap = (Ok tt, st) /\
    bodies st = [] /\
    st_heap st !! 0%nat
    = Some (HObj (merge_props (world_defaults (length example_heap))
                    [("drawRatio", VNum (fin 2))])) /\
    fst (drawRatio st)
    = Ok (default (VNum (fin 1)) (assoc "drawRatio" [("drawRatio", VNum (fin 2))])) /\
    world st
    = Some (mkB2DWorld (VRef lv)
              (default (VBool true)
                 (assoc "ignoreStatic" [("drawRatio", VNum (fin 2))]))
              [] true [] 0) /\
    st_heap st !! lv = Some (HVec2 (VNum (fin 0)) (VNum (fin (98 # 10)))).
Proof.
  apply (constructor_fills_defaults example_heap 0%nat
           [("drawRatio", VNum (fin 2))]); reflexivity.
Defined.

(** X10. A gravity object in the settings is passed on axis by axis as it
    is: the constructor does not fill in a missing axis, which reaches the
    engine as undefined (gravity(), called later, keeps the current value
    instead). *)
Theorem constructor_passes_gravity_as_given (h : heap) (l lg : loc)
    (props gprops : list (string * value)) :
  h !! l = Some (HObj props) ->
  assoc "gravity" props = Some (VRef lg) ->
  h !! lg = Some (HObj gprops) -> lg <> l ->
  exists st lv a,
    Box2D_world [VRef l] h = (Ok tt, st) /\
    world st = Some (mkB2DWorld (VRef lv) a [] true [] 0) /\
    st_heap st !! lv
    = Some (HVec2 (default VUndef (assoc "x" gprops))
                  (default VUndef (assoc "y" gprops))).
Proof.
  intros Hl Hg Hlg Hne.
  assert (l < length h)%nat as Hlt by by eapply lookup_lt_Some.
  assert (lg < length h)%nat as Hlgt by by eapply lookup_lt_Some.
  remember (merge_props (world_defaults (length h)) props) as merged eqn:Hm.
  assert (prop merged "gravity" = VRef lg) as Hsg.
  { unfold prop. rewrite Hm. by rewrite (merge_props_provided _ props _ _ Hg). }
  assert (forall key, inherited key = false ->
             get (<[l := HObj merged]> h
                  ++ [HObj default_gravity; HObj (world_defaults (length h))])
               (prop merged "gravity") key
             = Ok (default VUndef (assoc key gprops))) as Hget.
  { intros key Hi. rewrite Hsg. unfold get.
    rewrite lookup_app_l by by rewrite length_insert.
    rewrite list_lookup_insert_ne by done. rewrite Hlg.
    destruct (assoc key gprops); [done |]. by rewrite Hi. }
  exists (constructed h l merged (default VUndef (assoc "x" gprops))
            (default VUndef (assoc "y" gprops))),
    (length h + 2)%nat, (prop merged "ignoreStatic").
  split; [|split].
  - rewrite Hm in *.
    apply (Box2D_world_constructed h l props); [done | by apply Hget..].
  - reflexivity.
  - cbn. rewrite lookup_app_r by (rewrite length_insert; lia).
    rewrite length_insert.
    by replace (length h + 2 - length h)%nat with 2%nat by lia.
Qed.

Lemma constructor_passes_gravity_as_given_witness :
  exists st lv a,
    Box2D_world [VRef 0%nat]
      [HObj [("gravity", VRef 1%nat)]; HObj [("x", VNum (fin 3))]]
    = (Ok tt, st) /\
    world st = Some (mkB2DWorld (VRef lv) a [] true [] 0) /\
    st_heap st !! lv
    = Some (HVec2 (default VUndef (assoc "x" [("x", VNum (fin 3))]))
                  (default VUndef (assoc "y" [("x", VNum (fin 3))]))).
Proof.
  apply (constructor_passes_gravity_as_given
           [HObj [("gravity", VRef 1%nat)]; HObj [("x", VNum (fin 3))]]
           0%nat 1%nat [("gravity", VRef 1%nat)] [("x", VNum (fin 3))]);
    try reflexivity.
  lia.
Defined.

(** X11. A gravity given as undefined or null counts as provided, is not
    replaced by the default, and makes the constructor throw a TypeError
    when its axes are read. *)
Theorem constructor_rejects_null_gravity (h : heap) (l : loc)
    (props : list (string * value)) (v : value) :
  h !! l = Some (HObj props) ->
  assoc "gravity" props = Some v -> nullish v = true ->
  fst (Box2D_world [VRef l] h) = Throw TypeError.
Proof.
  intros Hl Hg Hv.
  assert (l < length h)%nat as Hlt by by eapply lookup_lt_Some.
  rewrite (Box2D_world_merged h l props Hl).
  eapply fst_of_pair.
  erewrite bind_Ok; last first.
  { apply (getp_prop _ l (merge_props (world_defaults (length h)) props));
      [|done].
    cbn. rewrite lookup_app_l by by rewrite length_insert.
    by apply list_lookup_insert_eq. }
  unfold prop. rewrite (merge_props_provided _ props _ _ Hg). cbn [default].
  apply bind_Throw. by destruct v.
Qed.

Lemma constructor_rejects_null_gravity_witness :
  fst (Box2D_world [VRef 0%nat] [HObj [("gravity", VNull)]]) = Throw TypeError.
Proof.
  apply (constructor_rejects_null_gravity [HObj [("gravity", VNull)]] 0%nat
           [("gravity", VNull)] VNull); reflexivity.
Defined.

(** ** The draw ratio is read when it is used *)

(** X12. The facade keeps no copy of the draw ratio: once the caller
    changes drawRatio on the settings object given to the constructor, the
    conversions use the new value. *)
Theorem drawRatio_is_read_from_settings (st : state) (ls : loc)
    (wprops : list (string * value)) (r : Q) (a : number) :
  settings st = VRef ls -> st_heap st !! ls = Some (HObj wprops) ->
  (set (VRef ls) "drawRatio" (VNum (Fin r)) ;; toPixels (VNum a)) st
  = (Ok (VNum (num_mul a (Fin r))),
     with_heap st
       (<[ls := HObj (assign "drawRatio" (VNum (Fin r)) wprops)]> (st_heap st))).
Proof.
  intros Hs Hls. erewrite bind_Ok; last first.
  { unfold set. by rewrite Hls. }
  apply toPixels_eq; [|done].
  unfold has_drawRatio, get. cbn [st_heap with_heap settings]. rewrite Hs.
  rewrite list_lookup_insert_eq by by eapply lookup_lt_Some.
  by rewrite assoc_assign_eq.
Qed.

Lemma drawRatio_is_read_from_settings_witness :
  (set (VRef 0%nat) "drawRatio" (VNum (Fin 10)) ;; toPixels (VNum (fin 3)))
    example_world
  = (Ok (VNum (num_mul (fin 3) (Fin 10))),
     with_heap example_world
       (<[0%nat := HObj (assign "drawRatio" (VNum (Fin 10))
                           (merge_props (world_defaults (length example_heap))
                              [("drawRatio", VNum (fin 2))]))]>
          (st_heap example_world))).
Proof.
  apply (drawRatio_is_read_from_settings example_world 0%nat
           (merge_props (world_defaults (length example_heap))
              [("drawRatio", VNum (fin 2))]) 10 (fin 3)); reflexivity.
Defined.

(** ** Polygons *)














Lemma prop_assign_eq (k : string) (v : value) (props : list (string * value)) :
  prop (assign k v props) k = v.
Proof. unfold prop. by rewrite assoc_assign_eq. Qed.

Lemma prop_assign_ne (k k' : string) (v : value)
    (props : list (string * value)) :
  k <> k' -> prop (assign k' v props) k = prop props k.
Proof. intros H. unfold prop. by rewrite (assoc_assign_ne _ _ _ _ H). Qed.







(** ** Strings that the pixel pattern does not match *)








(** What [addBody] hands to the engine for the vertices
    [[['abc', 2], [3, 'x5'], [5, '6px']]] under draw ratio 2. *)
Example addBody_unmatched_vertex_strings :
  created_shapes (addBody [VRef 1%nat] vertex_world)
  = Some [SetAsArray [(VNum NaN, VNum (fin 2)); (VNum (fin 3), VNum NaN);
                      (VNum (fin 5), VNum (fin 3))] 3].
Proof. vm_compute. reflexivity. Qed.

(** ** [randomImpulse] on an engine body *)

(** X14. On an engine body and an ordinary options object randomImpulse
    returns after exactly one ApplyImpulse on that body, with the vector made
    from the merged minAngle and maxAngle and the converted scale; the
    registry and the engine's world are as before. The defaults are 0, 360
    and the scale 10px, that is 10 divided by the draw ratio. *)
Theorem randomImpulse_applies_one_impulse
    (impulse_vector : value -> value -> value -> value * value)
    (st : state) (l lb : loc) (props : list (string * value)) (b : b2Body)
    (r : Q) (w : B2DWorld) :
  st_heap st !! l = Some (HObj props) -> world_ready st l r w ->
  st_heap st !! lb = Some (HBody b) ->
  let merged := merge_props randomImpulse_defaults props in
  let scale := parse_pixels r (prop merged "scale") in
  exists st',
    randomImpulse impulse_vector (VRef lb) (VRef l) st = (Ok tt, st') /\
    st_heap st' !! lb
    = Some (HBody
              (mkBody (m_def b) (m_fixtures b) (m_angle b) (sensorCallback b)
                 (body_id b)
                 (m_impulses b
                  ++ [impulse_vector (prop merged "minAngle")
                        (prop merged "maxAngle") scale]))) /\
    bodies st' = bodies st /\ world st' = world st /\
    (assoc "minAngle" props = None -> prop merged "minAngle" = VNum (fin 0)) /\
    (assoc "maxAngle" props = None -> prop merged "maxAngle" = VNum (fin 360)) /\
    (assoc "scale" props = None -> scale = VNum (num_div (fin 10) (Fin r))).
Proof.
  intros Hl (Hw & ls & wprops & Hs & Hls & Hr & Hne) Hlb merged scale.
  assert (l < length (st_heap st))%nat as Hlt by (by eapply lookup_lt_Some).
  assert (lb < length (st_heap st))%nat as Hlbt by (by eapply lookup_lt_Some).
  assert (lb <> l) as Hlbl by (intros ->; by rewrite Hl in Hlb).
  unfold randomImpulse.
  erewrite bind_Ok by reflexivity.
  erewrite bind_Ok; last first.
  { apply merge_ok with (dprops := randomImpulse_defaults) (sprops := props).
    - st_simpl. apply lookup_snoc.
    - st_simpl. by apply lookup_app_l_Some.
    - lia.
    - reflexivity. }
  fold merged. st_simpl.
  set (h2 := <[l := HObj merged]> (st_heap st ++ [HObj randomImpulse_defaults])).
  assert (h2 !! l = Some (HObj merged)) as Hl2.
  { apply list_lookup_insert_eq. rewrite length_app. lia. }
  erewrite bind_Ok; [|by apply getp_prop].
  erewrite bind_Ok; last first.
  { apply parsePixels_pure with (r := r). unfold has_drawRatio, get.
    st_simpl. rewrite Hs. unfold h2.
    rewrite list_lookup_insert_ne by done.
    by rewrite (lookup_app_l_Some _ _ _ _ Hls), Hr. }
  fold scale.
  erewrite bind_Ok; last first.
  { unfold set. st_simpl. by rewrite Hl2. }
  st_simpl. unfold h2. rewrite list_insert_insert_eq.
  set (h3 := <[l := HObj (assign "scale" scale merged)]>
               (st_heap st ++ [HObj randomImpulse_defaults])).
  assert (h3 !! l = Some (HObj (assign "scale" scale merged))) as Hl3.
  { apply list_lookup_insert_eq. rewrite length_app. lia. }
  assert (h3 !! lb = Some (HBody b)) as Hlb3.
  { unfold h3. rewrite list_lookup_insert_ne by done.
    by apply lookup_app_l_Some. }
  erewrite bind_Ok; [|by apply getp_prop].
  erewrite bind_Ok; [|by apply getp_prop].
  erewrite bind_Ok; [|by apply getp_prop].
  rewrite prop_assign_eq, !prop_assign_ne by done.
  erewrite bind_Ok; last first.
  { unfold has_GetWorldCenter, read. st_simpl. by rewrite Hlb3. }
  unfold ApplyImpulse, update_body. st_simpl. rewrite Hlb3.
  eexists. split; [reflexivity |]. st_simpl.
  split; [|split; [done |split; [done |]]].
  - apply list_lookup_insert_eq. unfold h3.
    rewrite length_insert, length_app. lia.
  - split; [|split]; intros Hnone; unfold scale, prop, merged;
      by rewrite (merge_props_omitted _ props _ Hnone eq_refl).
Qed.

Lemma randomImpulse_applies_one_impulse_witness :
  let st := snd (addBody [VRef 2%nat] example_world) in
  let merged := merge_props randomImpulse_defaults [] in
  let scale := parse_pixels 2 (prop merged "scale") in
  exists st',
    randomImpulse (fun a b s => (a, s)) (VRef 27%nat) (VRef 1%nat) st
    = (Ok tt, st') /\
    (exists b,
        st_heap st !! 27%nat = Some (HBody b) /\
        st_heap st' !! 27%nat
        = Some (HBody
                  (mkBody (m_def b) (m_fixtures b) (m_angle b) (sensorCallback b)
                     (body_id b)
                     (m_impulses b ++ [(VNum (fin 0), VNum (fin 5))])))) /\
    bodies st' = bodies st /\ world st' = world st.
Proof.
  intros st merged scale.
  destruct (randomImpulse_applies_one_impulse (fun a b s => (a, s)) st
              1%nat 27%nat [] 
              (mkBody (mkBodyDef b2_staticBody (VNum (fin 0), VNum (fin 0)))
                 [mkFixtureDef (VNum (fin 1)) (VNum (fin (1 # 10)))
                    (VNum (fin (3 # 10))) (CircleShape (VNum (fin 25)))]
                 (VNum (fin 0)) None (VStr "#circle") [])
              2 (mkB2DWorld (VRef 24%nat) (VBool true) [VRef 27%nat] true [] 0%nat))
    as (st' & Hrun & Hbody & Hbodies & Hworld & _).
  - reflexivity.
  - split; [reflexivity |]. exists 0%nat. eexists.
    repeat split; try reflexivity. lia.
  - reflexivity.
  - exists st'. split; [exact Hrun |]. split; [|by split].
    eexists. split; [reflexivity |]. exact Hbody.
Defined.

(** ** Distances given to [addBody] *)



